(** * Task-List-Manager: the task store, the derived view and the persistence
      bridge of [src/components/TaskManager.tsx] and [src/App.tsx]

    The React component keeps its state in [useState] cells and every handler
    is a closure over one snapshot of them; a handler is therefore a function
    from the snapshot (and the inputs of the event) to the next snapshot.  The
    parts of the JavaScript runtime the component calls ([String.prototype.trim],
    [Array.prototype.sort], [JSON.stringify], [JSON.parse], date-fns) are
    modelled next to the code that calls them; the properties follow the
    definitions. *)

From Stdlib Require Import ZArith NArith List Lia Bool String Ascii.
From Stdlib Require Import Permutation Sorted.
From stdpp Require Import base gmap list.

Local Open Scope Z_scope.

(** ** JavaScript strings

    A string is a sequence of UTF-16 code units. *)

Definition jsstring := list N.

(** A literal of the source, written with characters below U+0100. *)
Definition lit (s : string) : jsstring :=
  List.map N_of_ascii (list_ascii_of_string s).

Definition jsstring_eqb (a b : jsstring) : bool :=
  bool_decide (a = b).

(** WhiteSpace and LineTerminator code points of ECMAScript, the ones
    [trim] strips. *)
Definition isWhiteSpace (c : N) : bool :=
  ((c =? 9) || (c =? 10) || (c =? 11) || (c =? 12) || (c =? 13) || (c =? 32)
   || (c =? 160) || (c =? 5760) || ((8192 <=? c) && (c <=? 8202))
   || (c =? 8232) || (c =? 8233) || (c =? 8239) || (c =? 8287)
   || (c =? 12288) || (c =? 65279))%N.

Fixpoint trimStart (s : jsstring) : jsstring :=
  match s with
  | c :: s' => if isWhiteSpace c then trimStart s' else s
  | [] => []
  end.

Definition trimEnd (s : jsstring) : jsstring := rev (trimStart (rev s)).

Definition trim (s : jsstring) : jsstring := trimEnd (trimStart s).

(** ToBoolean of a string: the empty string is the only falsy one. *)
Definition truthy (s : jsstring) : bool :=
  match s with [] => false | _ :: _ => true end.

(** [toLowerCase] on the Basic Latin letters; the case mapping of the other
    code points is the runtime's Unicode table and is left out: they are
    returned as they are. For a string of code units below U+0080 this is
    the function of the runtime. Outside them it is not: the runtime maps
    other letters too, can change the length of the string (U+0130) and
    looks at the context of a letter (a capital sigma at the end of a word),
    so a property that depends on the mapping itself is stated for Basic
    Latin strings only. *)
Definition lowerUnit (c : N) : N :=
  if ((65 <=? c) && (c <=? 90))%N then (c + 32)%N else c.

Definition toLowerCase (s : jsstring) : jsstring := List.map lowerUnit s.

Fixpoint startsWith (s q : jsstring) {struct q} : bool :=
  match q, s with
  | [], _ => true
  | _ :: _, [] => false
  | a :: q', b :: s' => (a =? b)%N && startsWith s' q'
  end.

(** [s.includes(q)]: [q] occurs in [s] as a contiguous run. *)
Fixpoint includes (s q : jsstring) : bool :=
  startsWith s q ||
  match s with
  | [] => false
  | _ :: s' => includes s' q
  end.

(** ** The data model *)

Inductive Priority := High | Medium | Low.

Global Instance Priority_eq_dec : EqDecision Priority.
Proof. solve_decision. Defined.

(** [interface Task]; a [Date] is its time value, milliseconds since the
    epoch. *)
Record Task := mkTask {
  id : Z;
  text : jsstring;
  completed : bool;
  category : jsstring;
  priority : Priority;
  dueDate : option Z;
  description : jsstring;
  expanded : bool
}.

Global Instance Task_eq_dec : EqDecision Task.
Proof. solve_decision. Defined.

Definition categories : list jsstring :=
  [lit "Personal"; lit "Work"; lit "Shopping"; lit "Health"; lit "Other"].

Inductive SortKey := SortPriority | SortDueDate.

(** The [useState] cells of [TaskManager]. *)
Record State := mkState {
  tasks : list Task;
  currentTask : jsstring;
  selectedCategory : jsstring;
  searchQuery : jsstring;
  showNotification : bool;
  notificationMessage : jsstring;
  selectedPriority : Priority;
  selectedDueDate : option Z;
  taskDescription : jsstring;
  sortBy : SortKey;
  mobileOpen : bool
}.

Definition initialState (loaded : list Task) : State :=
  {| tasks := loaded;
     currentTask := [];
     selectedCategory := lit "All";
     searchQuery := [];
     showNotification := false;
     notificationMessage := [];
     selectedPriority := Medium;
     selectedDueDate := None;
     taskDescription := [];
     sortBy := SortPriority;
     mobileOpen := false |}.

(** *** Setters: each replaces one cell *)

Definition setTasks (v : list Task) (s : State) : State :=
  mkState v (currentTask s) (selectedCategory s) (searchQuery s)
    (showNotification s) (notificationMessage s) (selectedPriority s)
    (selectedDueDate s) (taskDescription s) (sortBy s) (mobileOpen s).

Definition setCurrentTask (v : jsstring) (s : State) : State :=
  mkState (tasks s) v (selectedCategory s) (searchQuery s)
    (showNotification s) (notificationMessage s) (selectedPriority s)
    (selectedDueDate s) (taskDescription s) (sortBy s) (mobileOpen s).

Definition setSelectedCategory (v : jsstring) (s : State) : State :=
  mkState (tasks s) (currentTask s) v (searchQuery s)
    (showNotification s) (notificationMessage s) (selectedPriority s)
    (selectedDueDate s) (taskDescription s) (sortBy s) (mobileOpen s).

Definition setSearchQuery (v : jsstring) (s : State) : State :=
  mkState (tasks s) (currentTask s) (selectedCategory s) v
    (showNotification s) (notificationMessage s) (selectedPriority s)
    (selectedDueDate s) (taskDescription s) (sortBy s) (mobileOpen s).

Definition setShowNotification (v : bool) (s : State) : State :=
  mkState (tasks s) (currentTask s) (selectedCategory s) (searchQuery s)
    v (notificationMessage s) (selectedPriority s)
    (selectedDueDate s) (taskDescription s) (sortBy s) (mobileOpen s).

Definition setNotificationMessage (v : jsstring) (s : State) : State :=
  mkState (tasks s) (currentTask s) (selectedCategory s) (searchQuery s)
    (showNotification s) v (selectedPriority s)
    (selectedDueDate s) (taskDescription s) (sortBy s) (mobileOpen s).

Definition setSelectedPriority (v : Priority) (s : State) : State :=
  mkState (tasks s) (currentTask s) (selectedCategory s) (searchQuery s)
    (showNotification s) (notificationMessage s) v
    (selectedDueDate s) (taskDescription s) (sortBy s) (mobileOpen s).

Definition setSelectedDueDate (v : option Z) (s : State) : State :=
  mkState (tasks s) (currentTask s) (selectedCategory s) (searchQuery s)
    (showNotification s) (notificationMessage s) (selectedPriority s)
    v (taskDescription s) (sortBy s) (mobileOpen s).

Definition setTaskDescription (v : jsstring) (s : State) : State :=
  mkState (tasks s) (currentTask s) (selectedCategory s) (searchQuery s)
    (showNotification s) (notificationMessage s) (selectedPriority s)
    (selectedDueDate s) v (sortBy s) (mobileOpen s).

Definition setSortBy (v : SortKey) (s : State) : State :=
  mkState (tasks s) (currentTask s) (selectedCategory s) (searchQuery s)
    (showNotification s) (notificationMessage s) (selectedPriority s)
    (selectedDueDate s) (taskDescription s) v (mobileOpen s).

Definition setMobileOpen (v : bool) (s : State) : State :=
  mkState (tasks s) (currentTask s) (selectedCategory s) (searchQuery s)
    (showNotification s) (notificationMessage s) (selectedPriority s)
    (selectedDueDate s) (taskDescription s) (sortBy s) v.

(** *** Handlers

    Every handler reads the cells of the snapshot [s0] it closed over and
    queues its updates; the updates of one handler are applied together. *)

Definition handleDrawerToggle (s0 : State) : State :=
  setMobileOpen (negb (mobileOpen s0)) s0.

Definition showSuccessMessage (message : jsstring) (s : State) : State :=
  setShowNotification true (setNotificationMessage message s).

(** [Date.now()] is the argument [now]. *)
Definition handleAddTask (now : Z) (s0 : State) : State :=
  if truthy (trim (currentTask s0)) then
    let newTask :=
      {| id := now;
         text := trim (currentTask s0);
         completed := false;
         category := if jsstring_eqb (selectedCategory s0) (lit "All")
                     then lit "Other" else selectedCategory s0;
         priority := selectedPriority s0;
         dueDate := selectedDueDate s0;
         description := taskDescription s0;
         expanded := false |} in
    showSuccessMessage (lit "Task added successfully!")
      (setSelectedDueDate None
        (setTaskDescription []
          (setCurrentTask []
            (setTasks (tasks s0 ++ [newTask]) s0))))
  else s0.

Definition handleDeleteTask (taskId : Z) (s0 : State) : State :=
  showSuccessMessage (lit "Task deleted successfully!")
    (setTasks (List.filter (fun task => negb (id task =? taskId)) (tasks s0)) s0).

Definition toggleCompletedOf (task : Task) : Task :=
  mkTask (id task) (text task) (negb (completed task)) (category task)
    (priority task) (dueDate task) (description task) (expanded task).

Definition toggleExpandedOf (task : Task) : Task :=
  mkTask (id task) (text task) (completed task) (category task)
    (priority task) (dueDate task) (description task) (negb (expanded task)).

Definition handleToggleComplete (taskId : Z) (s0 : State) : State :=
  showSuccessMessage (lit "Task status updated!")
    (setTasks
       (List.map (fun task => if id task =? taskId then toggleCompletedOf task
                              else task) (tasks s0)) s0).

Definition handleToggleExpand (taskId : Z) (s0 : State) : State :=
  setTasks
    (List.map (fun task => if id task =? taskId then toggleExpandedOf task
                           else task) (tasks s0)) s0.

(** [handleKeyPress]: Enter in the title field adds. *)
Definition handleKeyPress (key : jsstring) (now : Z) (s0 : State) : State :=
  if jsstring_eqb key (lit "Enter") then handleAddTask now s0 else s0.

(** *** The events of the interactive surface

    The drawer offers "All Tasks", "High Priority", "Due Today" and one
    button per entry of [categories]; the form's Select offers "All" and the
    entries of [categories].  Both write [selectedCategory]. *)

Inductive DrawerItem :=
| ItemAll
| ItemHighPriority
| ItemDueToday
| ItemCategory (i : nat).

Definition drawerClick (item : DrawerItem) (s0 : State) : State :=
  match item with
  | ItemAll => setSelectedCategory (lit "All") s0
  | ItemHighPriority => setSelectedCategory (lit "High Priority") s0
  | ItemDueToday => setSelectedCategory (lit "Due Today") s0
  | ItemCategory i =>
      match categories !! i with
      | Some c => setSelectedCategory c s0
      | None => s0
      end
  end.

(** [None] is the "All Categories" entry, [Some i] the [i]-th category. *)
Definition categorySelect (choice : option nat) (s0 : State) : State :=
  match choice with
  | None => setSelectedCategory (lit "All") s0
  | Some i =>
      match categories !! i with
      | Some c => setSelectedCategory c s0
      | None => s0
      end
  end.

Inductive Event :=
| DrawerClick (item : DrawerItem)
| CategorySelect (choice : option nat)
| TitleChange (v : jsstring)
| SearchChange (v : jsstring)
| PriorityChange (p : Priority)
| DueDateChange (d : option Z)
| DescriptionChange (v : jsstring)
| SortChange (value : option SortKey)
| AddClick (now : Z)
| KeyPress (key : jsstring) (now : Z)
| DeleteClick (taskId : Z)
| CompleteToggle (taskId : Z)
| ExpandToggle (taskId : Z)
| DrawerToggle
| NotificationClose.

Definition handle (e : Event) (s0 : State) : State :=
  match e with
  | DrawerClick item => drawerClick item s0
  | CategorySelect choice => categorySelect choice s0
  | TitleChange v => setCurrentTask v s0
  | SearchChange v => setSearchQuery v s0
  | PriorityChange p => setSelectedPriority p s0
  | DueDateChange d => setSelectedDueDate d s0
  | DescriptionChange v => setTaskDescription v s0
  | SortChange (Some k) => setSortBy k s0
  | SortChange None => s0
  | AddClick now => handleAddTask now s0
  | KeyPress key now => handleKeyPress key now s0
  | DeleteClick taskId => handleDeleteTask taskId s0
  | CompleteToggle taskId => handleToggleComplete taskId s0
  | ExpandToggle taskId => handleToggleExpand taskId s0
  | DrawerToggle => handleDrawerToggle s0
  | NotificationClose => setShowNotification false s0
  end.

(** The state after a sequence of events, oldest first. *)
Definition run (evs : list Event) (s : State) : State :=
  fold_left (fun st e => handle e st) evs s.

(** ** Dates (date-fns)

    [startOfToday()] is local midnight of the current day.  The runtime's
    clock and time zone are the arguments [now] (the time value of the
    current instant) and [offset] (local time minus UTC, in milliseconds,
    taken as fixed). *)

Definition msPerDay : Z := 86400000.

(** The local calendar day a time value falls on, counted from the epoch. *)
Definition localDay (offset t : Z) : Z := (t + offset) / msPerDay.

Definition startOfDay (offset t : Z) : Z := t - (t + offset) mod msPerDay.

Definition startOfToday (offset now : Z) : Z := startOfDay offset now.

Definition isBefore (date dateToCompare : Z) : bool := date <? dateToCompare.

Definition isTaskOverdue (offset now : Z) (dueDate : option Z) : bool :=
  match dueDate with
  | None => false
  | Some d => isBefore d (startOfToday offset now)
  end.

(** ToBoolean of a [Date | null]. *)
Definition present (dueDate : option Z) : bool :=
  match dueDate with None => false | Some _ => true end.

Module Counts.
Record t := mk {
  total : nat;
  completed : nat;
  overdue : nat;
  highPriority : nat
}.
End Counts.

Definition getTaskCounts (offset now : Z) (s0 : State) : Counts.t :=
  {| Counts.total := length (tasks s0);
     Counts.completed :=
       length (List.filter (fun task => completed task) (tasks s0));
     Counts.overdue :=
       length (List.filter
                 (fun task => present (dueDate task)
                              && isTaskOverdue offset now (dueDate task))
                 (tasks s0));
     Counts.highPriority :=
       length (List.filter
                 (fun task => bool_decide (priority task = High)
                              && negb (completed task))
                 (tasks s0)) |}.

(** ** [Array.prototype.sort]

    ECMAScript fixes the result of [sort] only for a consistent comparator
    (then it is the stable sort by it); the algorithm, and which of two
    elements is handed to [comparefn] first, are the engine's.  The model is
    the insertion sort that walks back from the end of the sorted prefix,
    with the argument order as a parameter:
    - [EarlierFirst] asks [comparefn(y, x)] for [y] placed before [x] and
      moves [x] in front of [y] when the answer is positive;
    - [LaterFirst] asks [comparefn(x, y)] and moves [x] in front of [y] when
      the answer is negative. *)

Inductive ArgOrder := EarlierFirst | LaterFirst.

Section Sort.
Context {A : Type} (order : ArgOrder) (comparefn : A -> A -> Z).

(** Does [y], already placed, stay in front of the later element [x]? *)
Definition staysBefore (y x : A) : bool :=
  match order with
  | EarlierFirst => comparefn y x <=? 0
  | LaterFirst => negb (comparefn x y <? 0)
  end.

(** The sorted prefix is held last element first. *)
Fixpoint insertFromEnd (x : A) (placed : list A) : list A :=
  match placed with
  | [] => [x]
  | y :: rest =>
      if staysBefore y x then x :: placed else y :: insertFromEnd x rest
  end.

Definition Array_sort (l : list A) : list A :=
  rev (fold_left (fun placed x => insertFromEnd x placed) l []).
End Sort.

(** ** The derived view *)

Definition priorityOrder (p : Priority) : Z :=
  match p with High => 0 | Medium => 1 | Low => 2 end.

(** The comparator handed to [sort] in [filteredAndSortedTasks]. *)
Definition compareTasks (key : SortKey) (a b : Task) : Z :=
  match key with
  | SortPriority => priorityOrder (priority a) - priorityOrder (priority b)
  | SortDueDate =>
      match dueDate a with
      | None => 1
      | Some ta =>
          match dueDate b with
          | None => -1
          | Some tb => ta - tb
          end
      end
  end.

(** The callback handed to [filter] in [filteredAndSortedTasks]. *)
Definition matchesFilter (query selected : jsstring) (task : Task) : bool :=
  let matchesSearch := includes (toLowerCase (text task)) (toLowerCase query) in
  let matchesCategory :=
    jsstring_eqb selected (lit "All") || jsstring_eqb (category task) selected in
  matchesSearch && matchesCategory.

Definition filteredAndSortedTasks (order : ArgOrder) (s0 : State) : list Task :=
  let filtered :=
    List.filter (matchesFilter (searchQuery s0) (selectedCategory s0)) (tasks s0) in
  Array_sort order (compareTasks (sortBy s0)) filtered.

(** *** The same computation on the heap

    [tasks] is a reference to an array; [filter] allocates a new array and
    [sort] reorders the array it is called on, in place, and returns the same
    reference.  Task objects are shared between the arrays and are only read. *)

Definition loc := positive.

Definition Heap (A : Type) : Type := gmap loc (list Task) -> A * gmap loc (list Task).

Global Instance Heap_ret : MRet Heap := fun A a h => (a, h).

Global Instance Heap_bind : MBind Heap :=
  fun A B k c h => let '(a, h') := c h in k a h'.

Definition readArray (a : loc) : Heap (list Task) :=
  fun h => (default [] (h !! a), h).

Definition newArray (l : list Task) : Heap loc :=
  fun h => let a := fresh (dom h) in (a, <[a := l]> h).

Definition writeArray (a : loc) (l : list Task) : Heap unit :=
  fun h => (tt, <[a := l]> h).

Definition Array_filter_ref (callback : Task -> bool) (a : loc) : Heap loc :=
  l ← readArray a; newArray (List.filter callback l).

Definition Array_sort_ref (order : ArgOrder) (comparefn : Task -> Task -> Z)
    (a : loc) : Heap loc :=
  l ← readArray a; _ ← writeArray a (Array_sort order comparefn l); mret a.

Definition filteredAndSortedTasks_ref (order : ArgOrder) (query selected : jsstring)
    (key : SortKey) (tasksRef : loc) : Heap loc :=
  filtered ← Array_filter_ref (matchesFilter query selected) tasksRef;
  Array_sort_ref order (compareTasks key) filtered.

(** ** JSON

    The values [JSON.stringify] is given and [JSON.parse] returns.  A number
    is an exact decimal, [VInt n] or [VDec m e] for [m * 10^e] with [e < 0]
    and [m] not a multiple of ten (rounding to binary64 is not modelled); a
    [Date] object is [VDate] of its time value, and [JSON.parse] never
    builds one. *)

#[local] Set Warnings "-register-all".

Inductive value :=
| VNull
| VBool (b : bool)
| VInt (n : Z)
| VDec (m e : Z)
| VString (s : jsstring)
| VDate (t : Z)
| VArray (elements : list value)
| VObject (properties : list (jsstring * value)).

Inductive completion (A : Type) :=
| Normal (a : A)
| Throw (error : jsstring).

Arguments Normal {A} a.
Arguments Throw {A} error.

(** *** Printing numbers and dates *)

Definition digitUnit (d : Z) : N := Z.to_N (48 + d).

Fixpoint digitsOf (fuel : nat) (n : Z) (acc : jsstring) : jsstring :=
  match fuel with
  | O => acc
  | S fuel' =>
      if n <? 10 then digitUnit n :: acc
      else digitsOf fuel' (n / 10) (digitUnit (n mod 10) :: acc)
  end.

(** The decimal digits of [n >= 0]. *)
Definition decimal (n : Z) : jsstring :=
  digitsOf (S (Z.to_nat (Z.log2 n))) n [].

(** [n >= 0] on at least [width] digits. *)
Definition padStart (width : nat) (n : Z) : jsstring :=
  let ds := decimal n in
  repeat 48%N (width - length ds) ++ ds.

(** Trailing zeros of a digit string, held last digit first. *)
Fixpoint stripZeros (rds : jsstring) (e : Z) : jsstring * Z :=
  match rds with
  | c :: (_ :: _) as rds' =>
      if (c =? 48)%N then stripZeros rds' (e + 1) else (rds, e)
  | _ => (rds, e)
  end.

(** Number::toString in radix 10, of [m * 10^e]. *)
Definition numberToString (m e : Z) : jsstring :=
  if m =? 0 then lit "0"
  else
    let sign := if m <? 0 then lit "-" else [] in
    let '(rds, e') := stripZeros (rev (decimal (Z.abs m))) e in
    let ds := rev rds in
    let k := Z.of_nat (length ds) in
    let n := k + e' in
    sign ++
    (if (k <=? n) && (n <=? 21) then ds ++ repeat 48%N (Z.to_nat (n - k))
     else if (0 <? n) && (n <=? 21) then
       firstn (Z.to_nat n) ds ++ lit "." ++ skipn (Z.to_nat n) ds
     else if (-6 <? n) && (n <=? 0) then
       lit "0." ++ repeat 48%N (Z.to_nat (- n)) ++ ds
     else
       let ex := n - 1 in
       let es := (if ex <? 0 then lit "-" else lit "+") ++ decimal (Z.abs ex) in
       if k =? 1 then ds ++ lit "e" ++ es
       else firstn 1 ds ++ lit "." ++ skipn 1 ds ++ lit "e" ++ es).

(** The civil date of a day number counted from 1970-01-01. *)
Definition civilFromDays (days : Z) : Z * Z * Z :=
  let z := days + 719468 in
  let era := z / 146097 in
  let doe := z - era * 146097 in
  let yoe := (doe - doe / 1460 + doe / 36524 - doe / 146096) / 365 in
  let y := yoe + era * 400 in
  let doy := doe - (365 * yoe + yoe / 4 - yoe / 100) in
  let mp := (5 * doy + 2) / 153 in
  let d := doy - (153 * mp + 2) / 5 + 1 in
  let m := if mp <? 10 then mp + 3 else mp - 9 in
  (if m <=? 2 then y + 1 else y, m, d).

(** [Date.prototype.toISOString] of a valid time value. *)
Definition toISOString (t : Z) : jsstring :=
  let '(y, m, d) := civilFromDays (t / msPerDay) in
  let ms := t mod msPerDay in
  let year :=
    if (0 <=? y) && (y <=? 9999) then padStart 4 y
    else (if y <? 0 then lit "-" else lit "+") ++ padStart 6 (Z.abs y) in
  year ++ lit "-" ++ padStart 2 m ++ lit "-" ++ padStart 2 d ++ lit "T"
  ++ padStart 2 (ms / 3600000) ++ lit ":" ++ padStart 2 (ms / 60000 mod 60)
  ++ lit ":" ++ padStart 2 (ms / 1000 mod 60) ++ lit "."
  ++ padStart 3 (ms mod 1000) ++ lit "Z".

(** *** Printing strings *)

Definition hexUnit (d : N) : N := (if d <? 10 then 48 + d else 87 + d)%N.

Definition unicodeEscape (c : N) : jsstring :=
  lit "\u" ++ [hexUnit (c / 4096 mod 16); hexUnit (c / 256 mod 16);
               hexUnit (c / 16 mod 16); hexUnit (c mod 16)]%N.

Definition isLeadSurrogate (c : N) : bool := ((55296 <=? c) && (c <=? 56319))%N.
Definition isTrailSurrogate (c : N) : bool := ((56320 <=? c) && (c <=? 57343))%N.

Definition escapeUnit (c : N) : jsstring :=
  (if c =? 8 then lit "\b"
   else if c =? 9 then lit "\t"
   else if c =? 10 then lit "\n"
   else if c =? 12 then lit "\f"
   else if c =? 13 then lit "\r"
   else if c =? 34 then [92; 34]
   else if c =? 92 then [92; 92]
   else if c <? 32 then unicodeEscape c
   else [c])%N.

Fixpoint quoteUnits (s : jsstring) : jsstring :=
  match s with
  | [] => []
  | c :: r =>
      if isLeadSurrogate c then
        match r with
        | d :: r' =>
            if isTrailSurrogate d then c :: d :: quoteUnits r'
            else unicodeEscape c ++ quoteUnits r
        | [] => unicodeEscape c
        end
      else if isTrailSurrogate c then unicodeEscape c ++ quoteUnits r
      else escapeUnit c ++ quoteUnits r
  end.

(** QuoteJSONString. *)
Definition quote (s : jsstring) : jsstring := [34%N] ++ quoteUnits s ++ [34%N].

Fixpoint joinComma (parts : list jsstring) : jsstring :=
  match parts with
  | [] => []
  | [p] => p
  | p :: rest => p ++ lit "," ++ joinComma rest
  end.

(** [JSON.stringify(v)] without replacer or indentation; a [Date] is
    replaced by the result of its [toJSON], the ISO string. *)
Fixpoint JSON_stringify (v : value) : jsstring :=
  match v with
  | VNull => lit "null"
  | VBool true => lit "true"
  | VBool false => lit "false"
  | VInt n => numberToString n 0
  | VDec m e => numberToString m e
  | VString s => quote s
  | VDate t => quote (toISOString t)
  | VArray elements =>
      lit "[" ++ joinComma (List.map JSON_stringify elements) ++ lit "]"
  | VObject properties =>
      lit "{"
      ++ joinComma (List.map (fun kv => quote (fst kv) ++ lit ":"
                                          ++ JSON_stringify (snd kv)) properties)
      ++ lit "}"
  end.

(** *** Parsing *)

Inductive parsed (A : Type) :=
| Parsed (a : A) (rest : jsstring)
| Malformed
| OutOfFuel.

Arguments Parsed {A} a rest.
Arguments Malformed {A}.
Arguments OutOfFuel {A}.

Definition isJsonSpace (c : N) : bool :=
  ((c =? 9) || (c =? 10) || (c =? 13) || (c =? 32))%N.

Fixpoint skipSpace (s : jsstring) : jsstring :=
  match s with
  | c :: r => if isJsonSpace c then skipSpace r else s
  | [] => []
  end.

(** One of [null], [true], [false]. *)
Definition parseWord (word : jsstring) (v : value) (s : jsstring) : parsed value :=
  if startsWith s word then Parsed v (skipn (length word) s) else Malformed.

Definition hexValue (c : N) : option N :=
  (if (48 <=? c) && (c <=? 57) then Some (c - 48)
   else if (97 <=? c) && (c <=? 102) then Some (c - 87)
   else if (65 <=? c) && (c <=? 70) then Some (c - 55)
   else None)%N.

Definition hex4 (a b c d : N) : option N :=
  match hexValue a, hexValue b, hexValue c, hexValue d with
  | Some x, Some y, Some z, Some w => Some (x * 4096 + y * 256 + z * 16 + w)%N
  | _, _, _, _ => None
  end.

(** The characters of a string after its opening quote, up to the closing
    one; [acc] holds the units read so far, last first. *)
Fixpoint parseChars (s acc : jsstring) : parsed jsstring :=
  match s with
  | [] => Malformed
  | c :: r =>
      if (c =? 34)%N then Parsed (rev acc) r
      else if (c =? 92)%N then
        match r with
        | [] => Malformed
        | e :: r' =>
            (if e =? 34 then parseChars r' (34 :: acc)
             else if e =? 92 then parseChars r' (92 :: acc)
             else if e =? 47 then parseChars r' (47 :: acc)
             else if e =? 98 then parseChars r' (8 :: acc)
             else if e =? 102 then parseChars r' (12 :: acc)
             else if e =? 110 then parseChars r' (10 :: acc)
             else if e =? 114 then parseChars r' (13 :: acc)
             else if e =? 116 then parseChars r' (9 :: acc)
             else if e =? 117 then
               match r' with
               | h1 :: h2 :: h3 :: h4 :: r'' =>
                   match hex4 h1 h2 h3 h4 with
                   | Some u => parseChars r'' (u :: acc)
                   | None => Malformed
                   end
               | _ => Malformed
               end
             else Malformed)%N
        end
      else if (c <? 32)%N then Malformed
      else parseChars r (c :: acc)
  end.

Definition isDigit (c : N) : bool := ((48 <=? c) && (c <=? 57))%N.

(** The longest run of digits at the front of [s], and what follows. *)
Fixpoint takeDigits (s : jsstring) : list Z * jsstring :=
  match s with
  | c :: r =>
      if isDigit c then
        let '(ds, rest) := takeDigits r in (Z.of_N c - 48 :: ds, rest)
      else ([], s)
  | [] => ([], [])
  end.

Definition digitsValue (ds : list Z) : Z :=
  fold_left (fun acc d => acc * 10 + d) ds 0.

(** [m * 10^e] in the form of [VInt] or [VDec]; [fuel] bounds the zeros
    to strip. *)
Fixpoint normalDecimal (fuel : nat) (m e : Z) : value :=
  if 0 <=? e then VInt (m * 10 ^ e)
  else
    match fuel with
    | O => VDec m e
    | S fuel' =>
        if m mod 10 =? 0 then normalDecimal fuel' (m / 10) (e + 1)
        else VDec m e
    end.

(** An optional sign. *)
Definition takeSign (plus : bool) (s : jsstring) : bool * jsstring :=
  match s with
  | c :: r =>
      if (c =? 45)%N then (true, r)
      else if plus && (c =? 43)%N then (false, r)
      else (false, s)
  | [] => (false, [])
  end.

Definition parseExponent (s : jsstring) : option (Z * jsstring) :=
  match s with
  | c :: r =>
      if ((c =? 101) || (c =? 69))%N then
        let '(negative, r1) := takeSign true r in
        match takeDigits r1 with
        | ([], _) => None
        | (ds, rest) =>
            Some (if negative then - digitsValue ds else digitsValue ds, rest)
        end
      else Some (0, s)
  | [] => Some (0, [])
  end.

Definition parseFraction (s : jsstring) : option (list Z * jsstring) :=
  match s with
  | c :: r =>
      if (c =? 46)%N then
        match takeDigits r with
        | ([], _) => None
        | (ds, rest) => Some (ds, rest)
        end
      else Some ([], s)
  | [] => Some ([], [])
  end.

Definition parseNumber (s : jsstring) : parsed value :=
  let '(negative, s1) := takeSign false s in
  match takeDigits s1 with
  | ([], _) => Malformed
  | (d :: ds, s2) =>
      if (d =? 0) && negb (length ds =? 0)%nat then Malformed
      else
        match parseFraction s2 with
        | None => Malformed
        | Some (fs, s3) =>
            match parseExponent s3 with
            | None => Malformed
            | Some (ex, s4) =>
                let m := digitsValue (d :: ds ++ fs) in
                if m =? 0 then Parsed (VInt 0) s4
                else
                  Parsed (normalDecimal (length (d :: ds ++ fs))
                            (if negative then - m else m)
                            (ex - Z.of_nat (length fs))) s4
            end
        end
  end.

(** A property written twice keeps its first place and takes the later
    value. *)
Fixpoint setProperty (k : jsstring) (v : value)
    (props : list (jsstring * value)) : list (jsstring * value) :=
  match props with
  | [] => [(k, v)]
  | (k', v') :: rest =>
      if jsstring_eqb k' k then (k', v) :: rest
      else (k', v') :: setProperty k v rest
  end.

Section Composite.
Variable parseElement : jsstring -> parsed value.

(** The elements of an array after [[], up to the closing bracket. *)
Fixpoint parseElements (fuel : nat) (s : jsstring) (acc : list value)
    : parsed (list value) :=
  match fuel with
  | O => OutOfFuel
  | S fuel' =>
      match parseElement s with
      | Parsed v r =>
          match skipSpace r with
          | c :: r' =>
              if (c =? 44)%N then parseElements fuel' r' (v :: acc)
              else if (c =? 93)%N then Parsed (rev (v :: acc)) r'
              else Malformed
          | [] => Malformed
          end
      | Malformed => Malformed
      | OutOfFuel => OutOfFuel
      end
  end.

(** The members of an object after [{], up to the closing brace. *)
Fixpoint parseMembers (fuel : nat) (s : jsstring)
    (acc : list (jsstring * value)) : parsed (list (jsstring * value)) :=
  match fuel with
  | O => OutOfFuel
  | S fuel' =>
      match skipSpace s with
      | q :: r =>
          if negb (q =? 34)%N then Malformed
          else
            match parseChars r [] with
            | Parsed k r1 =>
                match skipSpace r1 with
                | colon :: r2 =>
                    if negb (colon =? 58)%N then Malformed
                    else
                      match parseElement r2 with
                      | Parsed v r3 =>
                          match skipSpace r3 with
                          | c :: r4 =>
                              if (c =? 44)%N then
                                parseMembers fuel' r4 (setProperty k v acc)
                              else if (c =? 125)%N then
                                Parsed (setProperty k v acc) r4
                              else Malformed
                          | [] => Malformed
                          end
                      | Malformed => Malformed
                      | OutOfFuel => OutOfFuel
                      end
                | [] => Malformed
                end
            | Malformed => Malformed
            | OutOfFuel => OutOfFuel
            end
      | [] => Malformed
      end
  end.
End Composite.

Fixpoint parseValue (fuel : nat) (s : jsstring) : parsed value :=
  match fuel with
  | O => OutOfFuel
  | S fuel' =>
      match skipSpace s with
      | [] => Malformed
      | c :: r =>
          (if c =? 110 then parseWord (lit "null") VNull (c :: r)
           else if c =? 116 then parseWord (lit "true") (VBool true) (c :: r)
           else if c =? 102 then parseWord (lit "false") (VBool false) (c :: r)
           else if c =? 34 then
             match parseChars r [] with
             | Parsed str rest => Parsed (VString str) rest
             | Malformed => Malformed
             | OutOfFuel => OutOfFuel
             end
           else if c =? 91 then
             if startsWith (skipSpace r) [93] then
               Parsed (VArray []) (skipn 1 (skipSpace r))
             else
               match parseElements (parseValue fuel') fuel' r [] with
               | Parsed l rest => Parsed (VArray l) rest
               | Malformed => Malformed
               | OutOfFuel => OutOfFuel
               end
           else if c =? 123 then
             if startsWith (skipSpace r) [125] then
               Parsed (VObject []) (skipn 1 (skipSpace r))
             else
               match parseMembers (parseValue fuel') fuel' r [] with
               | Parsed l rest => Parsed (VObject l) rest
               | Malformed => Malformed
               | OutOfFuel => OutOfFuel
               end
           else parseNumber (c :: r))%N
      end
  end.

(** [JSON.parse(text)] without reviver: one value between optional white
    space, or a SyntaxError.  A text of [n] units needs at most [n + 1]
    nested calls. *)
Definition JSON_parse (text : jsstring) : completion value :=
  match parseValue (S (length text)) text with
  | Parsed v rest =>
      match skipSpace rest with
      | [] => Normal v
      | _ :: _ => Throw (lit "SyntaxError")
      end
  | Malformed => Throw (lit "SyntaxError")
  | OutOfFuel => Throw (lit "SyntaxError")
  end.

(** ** The persistence bridge

    [localStorage] maps keys to strings; [getItem] of an absent key is
    [null]. *)

Definition STORAGE_KEY : jsstring := lit "task-manager-tasks".
Definition THEME_KEY : jsstring := lit "task-manager-theme".

Definition getItem (key : jsstring) (storage : gmap jsstring jsstring)
    : option jsstring :=
  storage !! key.

Definition setItem (key v : jsstring) (storage : gmap jsstring jsstring)
    : gmap jsstring jsstring :=
  <[key := v]> storage.

Definition priorityName (p : Priority) : jsstring :=
  match p with High => lit "High" | Medium => lit "Medium" | Low => lit "Low" end.

(** A task object as the runtime holds it, properties in the order
    [handleAddTask] writes them (the spreads of the toggles keep it). *)
Definition taskValue (task : Task) : value :=
  VObject
    [(lit "id", VInt (id task));
     (lit "text", VString (text task));
     (lit "completed", VBool (completed task));
     (lit "category", VString (category task));
     (lit "priority", VString (priorityName (priority task)));
     (lit "dueDate", match dueDate task with
                     | Some t => VDate t
                     | None => VNull
                     end);
     (lit "description", VString (description task));
     (lit "expanded", VBool (expanded task))].

Definition tasksValue (l : list Task) : value := VArray (List.map taskValue l).

(** The effect that runs after every change of [tasks]. *)
Definition saveTasks (l : list Task) (storage : gmap jsstring jsstring)
    : gmap jsstring jsstring :=
  setItem STORAGE_KEY (JSON_stringify (tasksValue l)) storage.

(** The initialiser of the [tasks] cell: what it returns becomes the
    collection as it is, an exception it throws ends the first render. *)
Definition loadTasks (storage : gmap jsstring jsstring) : completion value :=
  match getItem STORAGE_KEY storage with
  | Some savedTasks =>
      if truthy savedTasks then JSON_parse savedTasks else Normal (VArray [])
  | None => Normal (VArray [])
  end.

(** The initialiser of [isDarkMode] in [App]. *)
Definition loadTheme (storage : gmap jsstring jsstring) : completion value :=
  match getItem THEME_KEY storage with
  | Some savedTheme =>
      if truthy savedTheme then JSON_parse savedTheme else Normal (VBool false)
  | None => Normal (VBool false)
  end.

(** ** The vocabulary of the specification *)

(** A title is empty or whitespace-only. *)
Definition whitespaceOnly (s : jsstring) : Prop :=
  Forall (fun c => isWhiteSpace c = true) s.

(** The invariant of the data model: the category is one of the fixed set. *)
Definition realCategory (task : Task) : Prop := In (category task) categories.

(** The selections the drawer adds to the categories and to "All". *)
Definition pseudoCategories : list jsstring :=
  [lit "High Priority"; lit "Due Today"].

(** Overdue as the specification words it: the due date is present and its
    calendar day is strictly before the current one. *)
Definition overdueByDay (offset now : Z) (task : Task) : bool :=
  match dueDate task with
  | Some d => localDay offset d <? localDay offset now
  | None => false
  end.

Definition countIf (p : Task -> bool) (l : list Task) : nat :=
  length (List.filter p l).

(** The aggregate counts as the specification words them. *)
Definition countsBySpec (offset now : Z) (l : list Task) : Counts.t :=
  {| Counts.total := length l;
     Counts.completed := countIf (fun task => completed task) l;
     Counts.overdue := countIf (overdueByDay offset now) l;
     Counts.highPriority :=
       countIf (fun task => bool_decide (priority task = High)
                            && negb (completed task)) l |}.

(** The order of the specification, [High < Medium < Low], written out case
    by case: it is not read off the table [priorityOrder] of the code. *)
Definition priorityBefore (p q : Priority) : bool :=
  match p, q with
  | High, Medium | High, Low | Medium, Low => true
  | _, _ => false
  end.

(** Ascending by priority: equal priorities, or the first one before the
    second in the order of the specification. *)
Definition priorityLe (a b : Task) : Prop :=
  priority a = priority b \/ priorityBefore (priority a) (priority b) = true.

(** A string of Basic Latin code units (below U+0080). On these the case
    mapping of the runtime works unit by unit and is [lowerUnit]. *)
Definition basicLatin (s : jsstring) : Prop := Forall (fun c => (c < 128)%N) s.

Definition hasPriority (p : Priority) (task : Task) : bool :=
  bool_decide (priority task = p).

(** The tasks with priority High, then those with Medium, then those with
    Low, each group in the order of the list. *)
Definition byPriorityGroups (l : list Task) : list Task :=
  List.filter (hasPriority High) l
  ++ List.filter (hasPriority Medium) l
  ++ List.filter (hasPriority Low) l.

Definition dateless (task : Task) : bool := negb (present (dueDate task)).

Definition dueOn (d : Z) (task : Task) : bool :=
  bool_decide (dueDate task = Some d).

(** Ascending by due date, the tasks without one after all the others. *)
Definition dueDateOrder (a b : Task) : Prop :=
  match dueDate a, dueDate b with
  | Some ta, Some tb => ta <= tb
  | Some _, None => True
  | None, Some _ => False
  | None, None => True
  end.

(** A comparator is consistent on a pair when swapping the arguments
    swaps the sign of the answer. *)
Definition consistentOn {A : Type} (comparefn : A -> A -> Z) (a b : A) : Prop :=
  Z.sgn (comparefn a b) = - Z.sgn (comparefn b a).

(** Every id in the collection is below [now]. *)
Definition idsBelow (now : Z) (l : list Task) : Prop :=
  Forall (fun task => id task < now) l.

(** The time stamps of the events of [evs] that create a task when run
    from state [s], oldest first. *)
Fixpoint addStamps (evs : list Event) (s : State) : list Z :=
  match evs with
  | [] => []
  | e :: evs' =>
      match e with
      | AddClick now | KeyPress _ now =>
          if (length (tasks s) <? length (tasks (handle e s)))%nat
          then now :: addStamps evs' (handle e s)
          else addStamps evs' (handle e s)
      | _ => addStamps evs' (handle e s)
      end
  end.

(** Strictly increasing. *)
Definition increasing (l : list Z) : Prop := StronglySorted Z.lt l.

(** What [selectedCategory] can hold. *)
Definition selectable (v : jsstring) : Prop :=
  v = lit "All" \/ In v categories \/ In v pseudoCategories.

Definition categoriesWithin (s : State) : Prop :=
  selectable (selectedCategory s)
  /\ Forall (fun task => In (category task) (categories ++ pseudoCategories))
            (tasks s).

(** A parse of [s] came to an end within its fuel, and what it left over is
    shorter than [s]. *)
Definition consumes {A : Type} (s : jsstring) (p : parsed A) : Prop :=
  match p with
  | Parsed _ rest => (length rest < length s)%nat
  | Malformed => True
  | OutOfFuel => False
  end.

(** *** What a round trip through JSON text preserves *)

(** The dates inside a value replaced by the result of their [toJSON]:
    what [JSON.stringify] prints, and so all that [JSON.parse] can give
    back. *)
Fixpoint toJSON (v : value) : value :=
  match v with
  | VDate t => VString (toISOString t)
  | VArray elements => VArray (List.map toJSON elements)
  | VObject properties =>
      VObject (List.map (fun kv => (fst kv, toJSON (snd kv))) properties)
  | _ => v
  end.

(** Code units are 16 bits wide. *)
Definition unit16 (s : jsstring) : Prop := Forall (fun c => (c < 65536)%N) s.

(** The values the round trip is stated for: integers that print without
    exponent, strings and keys of 16-bit units, no key twice in an object. *)
Fixpoint printable (v : value) : Prop :=
  match v with
  | VNull | VBool _ | VDate _ => True
  | VInt n => Z.abs n < 10 ^ 21
  | VDec _ _ => False
  | VString s => unit16 s
  | VArray elements => fold_right (fun e P => printable e /\ P) True elements
  | VObject properties =>
      NoDup (List.map fst properties)
      /\ fold_right (fun kv P => unit16 (fst kv) /\ printable (snd kv) /\ P)
                    True properties
  end.

(** The number of nodes of a value. *)
Fixpoint size (v : value) : nat :=
  match v with
  | VArray elements => S (fold_right (fun e n => size e + n)%nat O elements)
  | VObject properties =>
      S (fold_right (fun kv n => size (snd kv) + n)%nat O properties)
  | _ => 1%nat
  end.

(** What may follow a value inside a text: nothing, a comma or a closing
    bracket or brace. *)
Definition delimited (rest : jsstring) : Prop :=
  match rest with
  | [] => True
  | c :: _ => c = 44%N \/ c = 93%N \/ c = 125%N
  end.

(** A task whose id and strings are [printable]. *)
Definition storable (task : Task) : Prop :=
  Z.abs (id task) < 10 ^ 21
  /\ unit16 (text task) /\ unit16 (category task) /\ unit16 (description task).

(** ** The rest of the component

    What the render reads off the state besides the view and the counts,
    and the state that lives outside [TaskManager]. *)

(** The badge of a category in the drawer:
    [tasks.filter((t) => t.category === category).length]. *)
Definition categoryBadge (name : jsstring) (s0 : State) : nat :=
  length (List.filter (fun t => jsstring_eqb (category t) name) (tasks s0)).

(** The line shown in place of the list when the view is empty. *)
Definition emptyListMessage (order : ArgOrder) (s0 : State) : option jsstring :=
  if (length (filteredAndSortedTasks order s0) =? 0)%nat then
    Some (if (length (tasks s0) =? 0)%nat
          then lit "No tasks yet. Add one above!"
          else lit "No tasks match your filters")
  else None.

(** The colour of a task's due-date chip; no chip without a due date. *)
Definition dueChipColor (offset now : Z) (task : Task) : option jsstring :=
  if present (dueDate task) then
    Some (if isTaskOverdue offset now (dueDate task)
          then lit "error" else lit "default")
  else None.

(** *** [App] and the write-through effect

    [App] owns [isDarkMode]; the drawer's theme button calls
    [onThemeChange(!isDarkMode)].  The effect of [TaskManager] writes the
    tasks slot after the first render and after every render that follows a
    call of [setTasks]. *)

Record AppState := mkApp {
  isDarkMode : bool;
  manager : State;
  localStorage : gmap jsstring jsstring
}.

Inductive AppEvent :=
| ThemeClick
| Manager (e : Event).

(** Does the handler of [e] call [setTasks] from the snapshot [s0]? *)
Definition setsTasks (e : Event) (s0 : State) : bool :=
  match e with
  | AddClick _ => truthy (trim (currentTask s0))
  | KeyPress key _ =>
      jsstring_eqb key (lit "Enter") && truthy (trim (currentTask s0))
  | DeleteClick _ | CompleteToggle _ | ExpandToggle _ => true
  | _ => false
  end.

Definition appHandle (e : AppEvent) (a : AppState) : AppState :=
  match e with
  | ThemeClick => mkApp (negb (isDarkMode a)) (manager a) (localStorage a)
  | Manager ev =>
      let s' := handle ev (manager a) in
      mkApp (isDarkMode a) s'
        (if setsTasks ev (manager a)
         then saveTasks (tasks s') (localStorage a)
         else localStorage a)
  end.

(** The application after its first render: the effect has run once. *)
Definition mounted (dark : bool) (s : State)
    (storage : gmap jsstring jsstring) : AppState :=
  mkApp dark s (saveTasks (tasks s) storage).

Definition appRun (evs : list AppEvent) (a : AppState) : AppState :=
  fold_left (fun st e => appHandle e st) evs a.

(** *** Vocabulary of the further properties *)

(** No leading and no trailing white space. *)
Definition trimmed (s : jsstring) : Prop := trim s = s.

(** The ids of a collection. *)
Definition idsOf (l : list Task) : list Z := List.map id l.

(** A task with the fields of [task] and the given completion flag. *)
Definition withCompleted (b : bool) (task : Task) : Task :=
  mkTask (id task) (text task) b (category task)
    (priority task) (dueDate task) (description task) (expanded task).

(** The badge next to the drawer's "Due Today" entry:
    [getTaskCounts().overdue]. *)
Definition dueTodayBadge (offset now : Z) (s0 : State) : nat :=
  Counts.overdue (getTaskCounts offset now s0).

(** A click on one of the two pseudo-category entries of the drawer. *)
Definition picksPseudoCategory (e : Event) : bool :=
  match e with
  | DrawerClick ItemHighPriority | DrawerClick ItemDueToday => true
  | _ => false
  end.

(** The three messages [showSuccessMessage] is called with. *)
Definition successMessages : list jsstring :=
  [lit "Task added successfully!"; lit "Task deleted successfully!";
   lit "Task status updated!"].

(** * Properties *)

(** ** Strings *)

Lemma jsstring_eqb_eq (a b : jsstring) : jsstring_eqb a b = true <-> a = b.
Proof. unfold jsstring_eqb. apply bool_decide_eq_true. Qed.

Lemma trimStart_nil_iff (s : jsstring) : trimStart s = [] <-> whitespaceOnly s.
Proof.
  unfold whitespaceOnly. induction s as [|c s IH]; simpl.
  - split; [constructor | reflexivity].
  - destruct (isWhiteSpace c) eqn:Hc.
    + rewrite IH. split.
      * intros H. constructor; assumption.
      * intros H. inversion H; assumption.
    + split; [discriminate|].
      intros H. inversion H; congruence.
Qed.

Lemma trimStart_head (s : jsstring) c r :
  trimStart s = c :: r -> isWhiteSpace c = false.
Proof.
  induction s as [|a s IH]; simpl; [discriminate|].
  destruct (isWhiteSpace a) eqn:Ha; [assumption|].
  intros H. inversion H; subst. assumption.
Qed.

(** The trimmed form is empty exactly for the empty and the whitespace-only
    titles. *)
Lemma trim_nil_iff (s : jsstring) : trim s = [] <-> whitespaceOnly s.
Proof.
  unfold trim, trimEnd. split.
  - intros H.
    assert (Hr : trimStart (rev (trimStart s)) = []).
    { rewrite <- (rev_involutive (trimStart (rev (trimStart s)))), H.
      reflexivity. }
    apply trimStart_nil_iff in Hr.
    destruct (trimStart s) as [|c r] eqn:Hs.
    + apply trimStart_nil_iff. assumption.
    + apply trimStart_head in Hs. unfold whitespaceOnly in Hr.
      rewrite Forall_forall in Hr.
      specialize (Hr c). rewrite Hr in Hs; [discriminate|].
      apply list_elem_of_In. apply in_rev. rewrite rev_involutive. left. reflexivity.
  - intros H. apply trimStart_nil_iff in H. rewrite H. reflexivity.
Qed.

Lemma truthy_trim_false (s : jsstring) :
  truthy (trim s) = false <-> whitespaceOnly s.
Proof.
  rewrite <- trim_nil_iff. destruct (trim s); simpl; split; congruence.
Qed.

Lemma truthy_trim_true (s : jsstring) :
  truthy (trim s) = true <-> trim s <> [].
Proof. destruct (trim s); simpl; split; congruence. Qed.

(** ** Adding a task *)

(** C8. For every title that is empty or whitespace-only, add is a silent
    no-op: no cell of the state changes, so the task collection and its count
    are the same, no task object is created and no notification is raised. *)
Theorem add_blank_title_is_noop (now : Z) (s : State) :
  whitespaceOnly (currentTask s) ->
  handleAddTask now s = s
  /\ tasks (handleAddTask now s) = tasks s
  /\ length (tasks (handleAddTask now s)) = length (tasks s)
  /\ showNotification (handleAddTask now s) = showNotification s
  /\ notificationMessage (handleAddTask now s) = notificationMessage s
  /\ handleKeyPress (lit "Enter") now s = s.
Proof.
  intros Hblank. apply truthy_trim_false in Hblank.
  assert (H : handleAddTask now s = s).
  { unfold handleAddTask. rewrite Hblank. reflexivity. }
  rewrite H. repeat split; try reflexivity.
  unfold handleKeyPress. destruct (jsstring_eqb _ _); [exact H | reflexivity].
Qed.

Lemma add_blank_title_is_noop_witness :
  let s := handle (TitleChange (lit "   ")) (handle (DrawerClick ItemHighPriority) (initialState [])) in
  whitespaceOnly (currentTask s) /\ handleAddTask 1 s = s.
Proof.
  intros s. split; [repeat constructor|].
  apply (add_blank_title_is_noop 1 s). repeat constructor.
Defined.

Lemma handleAddTask_tasks (now : Z) (s : State) :
  trim (currentTask s) <> [] ->
  tasks (handleAddTask now s) =
  tasks s ++
  [{| id := now;
      text := trim (currentTask s);
      completed := false;
      category := if jsstring_eqb (selectedCategory s) (lit "All")
                  then lit "Other" else selectedCategory s;
      priority := selectedPriority s;
      dueDate := selectedDueDate s;
      description := taskDescription s;
      expanded := false |}].
Proof.
  intros H. apply truthy_trim_true in H.
  unfold handleAddTask. rewrite H. reflexivity.
Qed.

(** C7, as the code has it. For every title whose trimmed form is non-empty,
    add increases the task count by exactly 1 and appends at the end of the
    collection a new task whose id is the time stamp of the add, with
    completed=false and expanded=false.  The id is distinct from (and above)
    every existing id when every existing id is below the time stamp; the
    code does nothing else for freshness. *)
Theorem add_appends_task_with_timestamp_id (now : Z) (s : State) :
  trim (currentTask s) <> [] ->
  exists task,
    tasks (handleAddTask now s) = tasks s ++ [task]
    /\ length (tasks (handleAddTask now s)) = S (length (tasks s))
    /\ id task = now
    /\ text task = trim (currentTask s)
    /\ completed task = false
    /\ expanded task = false
    /\ (idsBelow now (tasks s) ->
        forall other, In other (tasks s) -> id other < id task /\ id other <> id task).
Proof.
  intros Htitle. eexists. split; [apply handleAddTask_tasks; assumption|].
  rewrite handleAddTask_tasks by assumption.
  rewrite length_app. cbn [length id text completed expanded].
  do 5 (split; [first [reflexivity | lia]|]).
  intros Hbelow other Hin. unfold idsBelow in Hbelow.
  rewrite Forall_forall in Hbelow.
  apply list_elem_of_In, Hbelow in Hin. lia.
Qed.

Lemma add_appends_task_with_timestamp_id_witness :
  let s := run [TitleChange (lit "a"); AddClick 5; TitleChange (lit " b ")]
               (initialState []) in
  trim (currentTask s) <> [] /\
  exists task, tasks (handleAddTask 6 s) = tasks s ++ [task] /\ id task = 6.
Proof.
  intros s.
  assert (H : trim (currentTask s) <> []) by (vm_compute; discriminate).
  split; [exact H|].
  destruct (add_appends_task_with_timestamp_id 6 s H) as [task [H1 [_ [H2 _]]]].
  exists task. split; assumption.
Defined.

(** C7, as stated, fails: two adds of one run at the same time stamp give
    the second task the id of the first. *)
Lemma add_same_timestamp_reuses_id :
  ~ (forall (evs : list Event) (now : Z),
       let s := run evs (initialState []) in
       trim (currentTask s) <> [] ->
       exists task,
         tasks (handleAddTask now s) = tasks s ++ [task]
         /\ forall other, In other (tasks s) -> id other <> id task).
Proof.
  intros H.
  specialize (H [TitleChange (lit "a"); AddClick 5; TitleChange (lit "b")] 5).
  destruct H as [task [Happ Hfresh]]; [vm_compute; discriminate|].
  vm_compute in Happ.
  injection Happ as Htask.
  apply (Hfresh (mkTask 5 (lit "a") false (lit "Other") Medium None [] false)).
  - vm_compute. left. reflexivity.
  - rewrite <- Htask. reflexivity.
Qed.

(** With a clock that advances between the adds of a run the ids stay
    strictly increasing, whatever is deleted or toggled in between. *)
Lemma sorted_filter_prefix (f : Task -> bool) (l : list Task) (r : list Z) :
  StronglySorted Z.lt (List.map id l ++ r) ->
  StronglySorted Z.lt (List.map id (List.filter f l) ++ r).
Proof.
  induction l as [|a l IH]; simpl; [tauto|].
  intros H. inversion H as [|? ? Hs Hall]; subst.
  destruct (f a); simpl; [|apply IH; assumption].
  constructor; [apply IH; assumption|].
  rewrite Forall_forall in *. intros x Hx. apply Hall.
  rewrite elem_of_app in *. destruct Hx as [Hx|Hx]; [left|right; assumption].
  rewrite list_elem_of_In in *. rewrite in_map_iff in *.
  destruct Hx as [t [Ht Hin]]. exists t. split; [assumption|].
  apply filter_In in Hin. tauto.
Qed.

Lemma map_id_toggle (g : Task -> Task) (taskId : Z) (l : list Task) :
  (forall t, id (g t) = id t) ->
  List.map id (List.map (fun task => if id task =? taskId then g task else task) l)
  = List.map id l.
Proof.
  intros Hg. rewrite List.map_map. apply List.map_ext.
  intros t. destruct (id t =? taskId); [apply Hg | reflexivity].
Qed.

Lemma add_stamps_step (now : Z) (s : State) :
  (trim (currentTask s) <> []
   /\ tasks (handleAddTask now s) ≠ tasks s
   /\ (length (tasks s) <? length (tasks (handleAddTask now s)))%nat = true
   /\ List.map id (tasks (handleAddTask now s)) = List.map id (tasks s) ++ [now])
  \/ (handleAddTask now s = s
      /\ (length (tasks s) <? length (tasks (handleAddTask now s)))%nat = false).
Proof.
  destruct (truthy (trim (currentTask s))) eqn:Ht.
  - left. apply truthy_trim_true in Ht.
    rewrite (handleAddTask_tasks now s Ht).
    repeat split; try assumption.
    + intros H. apply (f_equal (@length Task)) in H.
      rewrite length_app in H. simpl in H. lia.
    + rewrite length_app. simpl. apply Nat.ltb_lt. lia.
    + rewrite List.map_app. reflexivity.
  - right. unfold handleAddTask. rewrite Ht. split; [reflexivity|].
    apply Nat.ltb_ge. lia.
Qed.

Lemma ids_increase_with_clock (evs : list Event) (s : State) :
  increasing (List.map id (tasks s) ++ addStamps evs s) ->
  increasing (List.map id (tasks (run evs s))).
Proof.
  unfold increasing, run. revert s.
  induction evs as [|e evs IH]; intros s; simpl.
  - rewrite app_nil_r. tauto.
  - intros H. apply IH. clear IH.
    destruct e as [item|choice|v|v|p|d|v|key|now|pressed now|taskId|taskId|taskId| |];
      simpl in *; try assumption.
    + unfold drawerClick in *. destruct item; try assumption.
      destruct (categories !! i); assumption.
    + unfold categorySelect in *. destruct choice as [i|]; try assumption.
      destruct (categories !! i); assumption.
    + destruct key; assumption.
    + destruct (add_stamps_step now s) as [(_ & _ & Hl & Hm)|(Hs & Hl)];
        rewrite Hl in H.
      * rewrite Hm, <- app_assoc. exact H.
      * rewrite Hs in *. exact H.
    + unfold handleKeyPress in *.
      destruct (jsstring_eqb pressed (lit "Enter")).
      * destruct (add_stamps_step now s) as [(_ & _ & Hl & Hm)|(Hs & Hl)];
          rewrite Hl in H.
        -- rewrite Hm, <- app_assoc. exact H.
        -- rewrite Hs in *. exact H.
      * rewrite Nat.ltb_irrefl in H. exact H.
    + apply sorted_filter_prefix. exact H.
    + rewrite map_id_toggle by reflexivity. exact H.
    + rewrite map_id_toggle by reflexivity. exact H.
Qed.

(** ** The category of a created task *)

Lemma category_lookup_selectable (i : nat) (c : jsstring) :
  categories !! i = Some c -> selectable c.
Proof.
  intros H. right. left. apply list_elem_of_In.
  apply list_elem_of_lookup. exists i. exact H.
Qed.

Lemma handle_categoriesWithin (e : Event) (s : State) :
  categoriesWithin s -> categoriesWithin (handle e s).
Proof.
  intros [Hsel Hall].
  assert (Hadd : forall now, categoriesWithin (handleAddTask now s)).
  { intros now.
    destruct (truthy (trim (currentTask s))) eqn:Ht;
      [|unfold handleAddTask; rewrite Ht; split; assumption].
    split.
    - unfold handleAddTask. rewrite Ht. exact Hsel.
    - apply truthy_trim_true in Ht. rewrite (handleAddTask_tasks now s Ht).
      apply Forall_app. split; [exact Hall|].
      constructor; [|constructor]. cbn [category].
      destruct (jsstring_eqb (selectedCategory s) (lit "All")) eqn:Heq.
      + apply in_or_app. left. do 4 right. left. reflexivity.
      + destruct Hsel as [Hs|[Hs|Hs]].
        * apply jsstring_eqb_eq in Hs. congruence.
        * apply in_or_app. left. exact Hs.
        * apply in_or_app. right. exact Hs. }
  destruct e as [item|choice|v|v|p|d|v|key|now|pressed now|taskId|taskId|taskId| |];
    simpl; try (split; assumption); try apply Hadd.
  - destruct item; simpl; try (split; [|exact Hall]).
    + left. reflexivity.
    + right. right. left. reflexivity.
    + right. right. right. left. reflexivity.
    + destruct (categories !! i) eqn:Hi; [|split; assumption].
      split; [|exact Hall]. simpl. eapply category_lookup_selectable, Hi.
  - destruct choice as [i|]; simpl.
    + destruct (categories !! i) eqn:Hi; [|split; assumption].
      split; [|exact Hall]. simpl. eapply category_lookup_selectable, Hi.
    + split; [left; reflexivity | exact Hall].
  - destruct key; split; assumption.
  - unfold handleKeyPress. destruct (jsstring_eqb _ _); [apply Hadd|split; assumption].
  - split; [exact Hsel|]. simpl.
    rewrite Forall_forall in *. intros t Ht. apply Hall.
    rewrite list_elem_of_In in *. apply filter_In in Ht. tauto.
  - split; [exact Hsel|]. simpl.
    rewrite Forall_forall in *. intros t Ht.
    rewrite list_elem_of_In in Ht. apply in_map_iff in Ht.
    destruct Ht as [u [Hu Hin]]. apply list_elem_of_In, Hall in Hin.
    destruct (id u =? taskId); subst; exact Hin.
  - split; [exact Hsel|]. simpl.
    rewrite Forall_forall in *. intros t Ht.
    rewrite list_elem_of_In in Ht. apply in_map_iff in Ht.
    destruct Ht as [u [Hu Hin]]. apply list_elem_of_In, Hall in Hin.
    destruct (id u =? taskId); subst; exact Hin.
Qed.

(** In every state reachable from the empty store the category of every
    task is a real category or one of the two pseudo-categories of the
    drawer. *)
Lemma reachable_categories (evs : list Event) :
  Forall (fun task => In (category task) (categories ++ pseudoCategories))
         (tasks (run evs (initialState []))).
Proof.
  assert (H : forall s, categoriesWithin s -> categoriesWithin (run evs s)).
  { unfold run. induction evs as [|e evs IH]; intros s Hs; simpl; [exact Hs|].
    apply IH, handle_categoriesWithin, Hs. }
  apply H. split; [left; reflexivity | constructor].
Qed.

(** C1 at the failing input. The drawer's "High Priority" button writes
    [selectedCategory], the cell [handleAddTask] takes the category from,
    and only "All" is replaced by "Other": the task added next carries the
    category "High Priority", which is not one of the fixed set. *)
Theorem add_after_high_priority_selection :
  let s := run [DrawerClick ItemHighPriority; TitleChange (lit "x"); AddClick 1]
               (initialState []) in
  tasks s = [mkTask 1 (lit "x") false (lit "High Priority") Medium None [] false]
  /\ ~ Forall realCategory (tasks s)
  /\ List.map category
       (tasks (run [DrawerClick ItemDueToday; TitleChange (lit "y"); AddClick 2]
                   (initialState [])))
     = [lit "Due Today"].
Proof.
  split; [reflexivity|]. split; [|reflexivity].
  intros H. inversion H as [|? ? Hreal _]; subst.
  unfold realCategory in Hreal. vm_compute in Hreal.
  repeat (destruct Hreal as [Hreal|Hreal]; [discriminate|]). exact Hreal.
Qed.

(** ** Aggregate counts *)

Lemma before_start_of_today_iff (offset now d : Z) :
  isBefore d (startOfToday offset now) = (localDay offset d <? localDay offset now).
Proof.
  unfold isBefore, startOfToday, startOfDay, localDay, msPerDay.
  pose proof (Z.div_mod (now + offset) 86400000 ltac:(lia)) as Hdm.
  pose proof (Z.mod_pos_bound (now + offset) 86400000 ltac:(lia)) as Hr.
  destruct (Z.ltb_spec d (now - (now + offset) mod 86400000)) as [Hlt|Hge];
    symmetry.
  - apply Z.ltb_lt. apply Z.div_lt_upper_bound; lia.
  - apply Z.ltb_ge. apply Z.div_le_lower_bound; lia.
Qed.

Lemma overdue_callback_by_day (offset now : Z) (task : Task) :
  present (dueDate task) && isTaskOverdue offset now (dueDate task)
  = overdueByDay offset now task.
Proof.
  unfold overdueByDay, isTaskOverdue.
  destruct (dueDate task) as [d|]; simpl; [|reflexivity].
  apply before_start_of_today_iff.
Qed.

Lemma overdueByDay_toggle (offset now taskId : Z) (l : list Task) :
  countIf (overdueByDay offset now)
    (List.map (fun task => if id task =? taskId then toggleCompletedOf task
                           else task) l)
  = countIf (overdueByDay offset now) l.
Proof.
  unfold countIf. induction l as [|t l IH]; simpl; [reflexivity|].
  assert (Ht : overdueByDay offset now
                 (if id t =? taskId then toggleCompletedOf t else t)
               = overdueByDay offset now t).
  { destruct (id t =? taskId); reflexivity. }
  rewrite Ht. destruct (overdueByDay offset now t); simpl; congruence.
Qed.

(** C9. The aggregate counts are: total = number of tasks; completed =
    number of tasks with completed=true; overdue = number of tasks whose
    dueDate is present and whose calendar day is strictly before the current
    one, whatever their completed status (toggling a task's completion leaves
    the count as it is); highPriority = number of tasks with priority High
    and completed=false. *)
Theorem getTaskCounts_by_spec (offset now : Z) (s : State) :
  getTaskCounts offset now s = countsBySpec offset now (tasks s)
  /\ forall taskId,
       Counts.overdue (getTaskCounts offset now (handleToggleComplete taskId s))
       = Counts.overdue (getTaskCounts offset now s).
Proof.
  assert (H : forall st, getTaskCounts offset now st
                         = countsBySpec offset now (tasks st)).
  { intros st. unfold getTaskCounts, countsBySpec, countIf. f_equal.
    f_equal. apply List.filter_ext. intros t. apply overdue_callback_by_day. }
  split; [apply H|].
  intros taskId. rewrite !H. simpl. apply overdueByDay_toggle.
Qed.

(** The two cases the specification singles out, with the clock at noon
    UTC of day 100 in a zone two hours east: a task due the day before counts
    as overdue though it is not completed, a task due the day after does
    not. *)
Example overdue_yesterday_not_tomorrow :
  let noon := 100 * msPerDay + 12 * 3600000 in
  let task d := mkTask 1 (lit "t") false (lit "Work") Low (Some d) [] false in
  Counts.overdue (getTaskCounts 7200000 noon (initialState [task (noon - msPerDay)])) = 1%nat
  /\ Counts.overdue (getTaskCounts 7200000 noon (initialState [task (noon + msPerDay)])) = 0%nat
  /\ Counts.overdue (getTaskCounts 7200000 noon (initialState [task noon])) = 0%nat.
Proof. vm_compute. repeat split. Qed.

(** ** Filtering *)

Lemma startsWith_iff (s q : jsstring) :
  startsWith s q = true <-> exists post, s = q ++ post.
Proof.
  revert s. induction q as [|a q IH]; intros s.
  - split; [intros _; exists s; reflexivity | reflexivity].
  - destruct s as [|b s]; simpl.
    + split; [discriminate | intros [post H]; discriminate].
    + rewrite andb_true_iff, N.eqb_eq, IH. split.
      * intros [-> [post ->]]. exists post. reflexivity.
      * intros [post H]. injection H as -> ->. split; [reflexivity|].
        exists post. reflexivity.
Qed.

(** [includes] is the substring test. *)
Lemma includes_iff (s q : jsstring) :
  includes s q = true <-> exists pre post, s = pre ++ q ++ post.
Proof.
  induction s as [|b s IH].
  - cbn [includes]. rewrite orb_false_r, startsWith_iff. split.
    + intros [post H]. exists [], post. exact H.
    + intros [pre [post H]]. destruct pre; [|discriminate].
      exists post. exact H.
  - cbn [includes]. rewrite orb_true_iff, startsWith_iff, IH. split.
    + intros [[post H]|[pre [post H]]].
      * exists [], post. exact H.
      * exists (b :: pre), post. simpl. congruence.
    + intros [pre [post H]]. destruct pre as [|c pre].
      * left. exists post. exact H.
      * right. injection H as -> H. exists pre, post. exact H.
Qed.

Lemma includes_empty_query (s : jsstring) : includes s [] = true.
Proof. destruct s; reflexivity. Qed.

(** What the callback of [filter] accepts: the search matches, and the
    selection is "All" or equals the task's category, whatever else the
    selection is. *)
Lemma matchesFilter_iff (query selected : jsstring) (task : Task) :
  matchesFilter query selected task = true <->
  (exists pre post, toLowerCase (text task) = pre ++ toLowerCase query ++ post)
  /\ (selected = lit "All" \/ category task = selected).
Proof.
  unfold matchesFilter. cbv zeta.
  rewrite andb_true_iff, orb_true_iff, includes_iff, !jsstring_eqb_eq.
  reflexivity.
Qed.

(** C3 at the failing input. With "High Priority" selected in the drawer
    the filter compares the selection with [task.category]: a task of
    priority High in the category Work is left out although the drawer's
    badge counts it, and the only task shown is the one whose category is the
    string "High Priority", of priority Low.  "Due Today" is treated the
    same way. *)
Theorem filter_compares_pseudo_category_with_category :
  let urgent := mkTask 1 (lit "Pay rent") false (lit "Work") High None [] false in
  let odd := mkTask 2 (lit "Buy milk") false (lit "High Priority") Low None [] false in
  let due := mkTask 3 (lit "Call home") false (lit "Due Today") Low None [] false in
  let s := setSelectedCategory (lit "High Priority") (initialState [urgent; odd; due]) in
  filteredAndSortedTasks EarlierFirst s = [odd]
  /\ filteredAndSortedTasks LaterFirst s = [odd]
  /\ matchesFilter [] (lit "High Priority") urgent = false
  /\ Counts.highPriority (getTaskCounts 0 0 s) = 1%nat
  /\ (forall task, matchesFilter [] (lit "High Priority") task = true <->
                   category task = lit "High Priority")
  /\ filteredAndSortedTasks EarlierFirst
       (setSelectedCategory (lit "Due Today") s) = [due].
Proof.
  repeat split; try reflexivity.
  - intros H. apply matchesFilter_iff in H. destruct H as [_ [H|H]].
    + discriminate.
    + exact H.
  - intros H. apply matchesFilter_iff. split; [|right; exact H].
    exists [], (toLowerCase (text task)). reflexivity.
Qed.

(** ** Sorting *)

Section InsertionSort.
Context {A : Type} (order : ArgOrder) (comparefn : A -> A -> Z).

Abbreviation stays := (staysBefore order comparefn).
Abbreviation ins := (insertFromEnd order comparefn).

Lemma insertFromEnd_perm (x : A) (placed : list A) :
  Permutation (ins x placed) (x :: placed).
Proof using Type.
  induction placed as [|y rest IH]; simpl; [reflexivity|].
  destruct (stays y x); [reflexivity|].
  rewrite IH. apply perm_swap.
Qed.

Lemma fold_insert_perm (l placed : list A) :
  Permutation (fold_left (fun p x => ins x p) l placed) (rev l ++ placed).
Proof using Type.
  revert placed. induction l as [|x l IH]; intros placed; simpl; [reflexivity|].
  rewrite IH, insertFromEnd_perm, <- app_assoc. reflexivity.
Qed.

Lemma Array_sort_perm (l : list A) : Permutation (Array_sort order comparefn l) l.
Proof using Type.
  unfold Array_sort. rewrite <- Permutation_rev, fold_insert_perm, app_nil_r.
  symmetry. apply Permutation_rev.
Qed.

(** Elements of a class that never overtake one another keep their
    order. *)
Section Class.
Variable c : A -> bool.
Hypothesis stays_in_class :
  forall y x, c y = true -> c x = true -> stays y x = true.

Lemma insertFromEnd_class (x : A) (placed : list A) :
  List.filter c (ins x placed) = List.filter c (x :: placed).
Proof using stays_in_class.
  induction placed as [|y rest IH]; [reflexivity|].
  cbn [insertFromEnd]. destruct (stays y x) eqn:Hs; [reflexivity|].
  cbn [List.filter] in *. rewrite IH.
  destruct (c y) eqn:Hy; destruct (c x) eqn:Hx; try reflexivity.
  rewrite stays_in_class in Hs by assumption. discriminate.
Qed.

Lemma fold_insert_class (l placed : list A) :
  List.filter c (fold_left (fun p x => ins x p) l placed)
  = rev (List.filter c l) ++ List.filter c placed.
Proof using stays_in_class.
  revert placed. induction l as [|x l IH]; intros placed; [reflexivity|].
  cbn [fold_left]. rewrite IH, insertFromEnd_class.
  cbn [List.filter]. destruct (c x); [|reflexivity].
  cbn [rev]. rewrite <- app_assoc. reflexivity.
Qed.

Lemma filter_rev (l : list A) : List.filter c (rev l) = rev (List.filter c l).
Proof using Type.
  induction l as [|x l IH]; [reflexivity|].
  cbn [rev List.filter]. rewrite List.filter_app, IH. cbn [List.filter].
  destruct (c x); [reflexivity | apply app_nil_r].
Qed.

Lemma Array_sort_class (l : list A) :
  List.filter c (Array_sort order comparefn l) = List.filter c l.
Proof using stays_in_class.
  unfold Array_sort. rewrite filter_rev, fold_insert_class.
  cbn [List.filter]. rewrite app_nil_r. apply rev_involutive.
Qed.
End Class.

(** The result is sorted by every relation [R] that [stays] decides and
    that composes with it. *)
Section Sorted.
Variable R : A -> A -> Prop.
Hypothesis stays_R : forall y x, stays y x = true -> R y x.
Hypothesis overtakes_R : forall y x, stays y x = false -> R x y.
Hypothesis R_stays_trans :
  forall z y x, R z y -> stays y x = true -> R z x.

(** The placed elements, last first, are in order. *)
Abbreviation placedSorted := (StronglySorted (fun later earlier => R earlier later)).

Lemma insertFromEnd_sorted (x : A) (placed : list A) :
  placedSorted placed -> placedSorted (ins x placed).
Proof using stays_R overtakes_R R_stays_trans.
  induction placed as [|y rest IH]; intros Hs; cbn [insertFromEnd].
  - constructor; constructor.
  - inversion Hs as [|? ? Hrest Hall]; subst.
    destruct (stays y x) eqn:Hyx.
    + constructor; [exact Hs|].
      constructor; [apply stays_R; exact Hyx|].
      rewrite Forall_forall in *. intros z Hz.
      eapply R_stays_trans; [apply Hall, Hz | exact Hyx].
    + constructor; [apply IH; exact Hrest|].
      rewrite Forall_forall in *. intros z Hz.
      apply list_elem_of_In in Hz.
      apply (Permutation_in _ (insertFromEnd_perm x rest)) in Hz.
      destruct Hz as [<-|Hz].
      * apply overtakes_R. exact Hyx.
      * apply Hall. apply list_elem_of_In. exact Hz.
Qed.

Lemma fold_insert_sorted (l placed : list A) :
  placedSorted placed ->
  placedSorted (fold_left (fun p x => ins x p) l placed).
Proof using stays_R overtakes_R R_stays_trans.
  revert placed. induction l as [|x l IH]; intros placed Hs; [exact Hs|].
  cbn [fold_left]. apply IH, insertFromEnd_sorted, Hs.
Qed.

Lemma sorted_rev (l : list A) :
  StronglySorted (fun b a => R a b) l -> StronglySorted R (rev l).
Proof using Type.
  induction l as [|x l IH]; intros Hs; [constructor|].
  inversion Hs as [|? ? Hl Hall]; subst. cbn [rev].
  specialize (IH Hl). clear Hs Hl.
  assert (Hall' : Forall (fun a => R a x) (rev l)).
  { rewrite Forall_forall in *. intros a Ha. apply Hall.
    rewrite list_elem_of_In in *. apply in_rev. exact Ha. }
  clear Hall. induction (rev l) as [|a r IHr]; cbn [app].
  - constructor; constructor.
  - inversion IH as [|? ? Hr Har]; subst.
    inversion Hall' as [|? ? Hax Hrx]; subst.
    constructor; [apply IHr; assumption|].
    apply Forall_app. split; [exact Har|]. constructor; [exact Hax|constructor].
Qed.

Lemma Array_sort_sorted (l : list A) :
  StronglySorted R (Array_sort order comparefn l).
Proof using stays_R overtakes_R R_stays_trans.
  unfold Array_sort. apply sorted_rev.
  apply (fold_insert_sorted l []). constructor.
Qed.
End Sorted.
End InsertionSort.

(** *** The argument order matters only for an inconsistent comparator *)

Lemma stays_consistent {A : Type} (comparefn : A -> A -> Z) (y x : A) :
  consistentOn comparefn x y ->
  staysBefore EarlierFirst comparefn y x = staysBefore LaterFirst comparefn y x.
Proof.
  unfold consistentOn, staysBefore. intros H.
  destruct (Z.leb_spec (comparefn y x) 0) as [Hle|Hgt];
    destruct (Z.ltb_spec (comparefn x y) 0) as [Hlt|Hge]; try reflexivity;
    exfalso.
  - rewrite (proj2 (Z.sgn_neg_iff _) Hlt) in H.
    pose proof (Z.sgn_nonpos (comparefn y x)) as Hs. lia.
  - rewrite (proj2 (Z.sgn_pos_iff _) Hgt) in H.
    pose proof (Z.sgn_nonneg (comparefn x y)) as Hs. lia.
Qed.

Lemma Array_sort_order_irrelevant {A : Type} (comparefn : A -> A -> Z) (l : list A) :
  (forall a b, consistentOn comparefn a b) ->
  Array_sort EarlierFirst comparefn l = Array_sort LaterFirst comparefn l.
Proof.
  intros Hc. unfold Array_sort. f_equal.
  assert (Hins : forall x placed,
            insertFromEnd EarlierFirst comparefn x placed
            = insertFromEnd LaterFirst comparefn x placed).
  { intros x placed. induction placed as [|y rest IH]; [reflexivity|].
    cbn [insertFromEnd]. rewrite IH, (stays_consistent comparefn y x (Hc x y)).
    reflexivity. }
  generalize (@nil A) as placed.
  induction l as [|x l IH]; intros placed; [reflexivity|].
  cbn [fold_left]. rewrite Hins. apply IH.
Qed.

Lemma priority_comparator_consistent (a b : Task) :
  consistentOn (compareTasks SortPriority) a b.
Proof.
  unfold consistentOn, compareTasks.
  replace (priorityOrder (priority b) - priorityOrder (priority a))
    with (- (priorityOrder (priority a) - priorityOrder (priority b))) by lia.
  rewrite Z.sgn_opp. lia.
Qed.

(** *** Sorting by priority *)

Lemma stays_priority (order : ArgOrder) (y x : Task) :
  staysBefore order (compareTasks SortPriority) y x
  = (priorityOrder (priority y) <=? priorityOrder (priority x)).
Proof.
  unfold staysBefore, compareTasks.
  destruct order;
    destruct (Z.leb_spec (priorityOrder (priority y)) (priorityOrder (priority x)));
    [apply Z.leb_le | apply Z.leb_gt
    | apply negb_true_iff, Z.ltb_ge | apply negb_false_iff, Z.ltb_lt]; lia.
Qed.

Lemma filter_all (query : jsstring) (l : list Task) :
  query = [] ->
  List.filter (matchesFilter query (lit "All")) l = l.
Proof.
  intros ->. induction l as [|t l IH]; [reflexivity|].
  cbn [List.filter]. unfold matchesFilter at 1.
  cbn [toLowerCase List.map]. rewrite includes_empty_query, IH. reflexivity.
Qed.

(** The table of the comparator agrees with the order of the
    specification. *)
Lemma priorityOrder_le (p q : Priority) :
  priorityOrder p <= priorityOrder q <-> p = q \/ priorityBefore p q = true.
Proof.
  destruct p, q; cbn [priorityOrder priorityBefore]; split;
    first [ intros _; (left; reflexivity) || (right; reflexivity)
          | intros H; exfalso; lia
          | intros [H|H]; discriminate H
          | intros _; lia ].
Qed.

Lemma priorityLe_order (a b : Task) :
  priorityLe a b <-> priorityOrder (priority a) <= priorityOrder (priority b).
Proof. unfold priorityLe. symmetry. apply priorityOrder_le. Qed.

(** A list in ascending order of priority is its High tasks, then its
    Medium tasks, then its Low tasks. *)
Lemma sorted_byPriorityGroups (l : list Task) :
  StronglySorted priorityLe l -> l = byPriorityGroups l.
Proof.
  unfold byPriorityGroups.
  induction l as [|x l IH]; intros Hs; [reflexivity|].
  inversion Hs as [|? ? Hl Hall]; subst. specialize (IH Hl).
  assert (Hnone : forall p,
            priorityBefore p (priority x) = true ->
            List.filter (hasPriority p) l = []).
  { intros p Hp. clear IH Hs Hl.
    induction Hall as [|y r Hxy _ IHr]; [reflexivity|].
    cbn [List.filter]. rewrite IHr. unfold hasPriority.
    destruct (bool_decide (priority y = p)) eqn:Hy; [|reflexivity].
    apply bool_decide_eq_true in Hy. subst p. exfalso.
    destruct Hxy as [Hxy|Hxy]; revert Hp Hxy;
      destruct (priority x), (priority y); cbn [priorityBefore]; discriminate. }
  assert (Hh : forall p, hasPriority p x = bool_decide (priority x = p))
    by reflexivity.
  cbn [List.filter]. rewrite !Hh. clear Hh.
  destruct (priority x) eqn:Hx;
    repeat match goal with
    | |- context [bool_decide (?p = ?q)] =>
        first [ rewrite (bool_decide_eq_true_2 (p = q)) by reflexivity
              | rewrite (bool_decide_eq_false_2 (p = q)) by discriminate ]
    end.
  - cbn [app]. f_equal. exact IH.
  - rewrite (Hnone High eq_refl) in *. cbn [app] in *. f_equal. exact IH.
  - rewrite (Hnone High eq_refl), (Hnone Medium eq_refl) in *.
    cbn [app] in *. f_equal. exact IH.
Qed.

(** C6. For every task collection, sorting by priority gives the shown
    tasks (all of them under "All" with an empty search) in ascending order
    High < Medium < Low, and is stable: the tasks of each priority come in
    their original relative order. So the result is the shown High tasks,
    then the shown Medium tasks, then the shown Low tasks, each group in the
    order of the collection. *)
Theorem priority_sort_is_stable (order : ArgOrder) (s : State) :
  sortBy s = SortPriority ->
  let shown :=
    List.filter (matchesFilter (searchQuery s) (selectedCategory s)) (tasks s) in
  let sorted := filteredAndSortedTasks order s in
  Permutation sorted shown
  /\ StronglySorted priorityLe sorted
  /\ (forall p, List.filter (hasPriority p) sorted = List.filter (hasPriority p) shown)
  /\ sorted = byPriorityGroups shown
  /\ (selectedCategory s = lit "All" -> searchQuery s = [] -> shown = tasks s).
Proof.
  intros Hkey shown sorted.
  assert (Hsorted : StronglySorted priorityLe sorted).
  { subst shown sorted. unfold filteredAndSortedTasks. rewrite Hkey.
    apply Array_sort_sorted.
    - intros y x. rewrite stays_priority, priorityLe_order. apply Z.leb_le.
    - intros y x. rewrite stays_priority, priorityLe_order.
      intros H. apply Z.leb_gt in H. lia.
    - intros z y x Hzy. rewrite stays_priority. intros H.
      apply priorityLe_order in Hzy. apply priorityLe_order.
      apply Z.leb_le in H. lia. }
  assert (Hclass : forall p,
            List.filter (hasPriority p) sorted = List.filter (hasPriority p) shown).
  { subst shown sorted. unfold filteredAndSortedTasks. rewrite Hkey.
    intros p. apply Array_sort_class.
    intros y x Hy Hx. rewrite stays_priority.
    unfold hasPriority in *. apply bool_decide_eq_true in Hy, Hx.
    rewrite Hy, Hx. apply Z.leb_refl. }
  split; [|split; [exact Hsorted|split; [exact Hclass|split]]].
  - subst shown sorted. unfold filteredAndSortedTasks. rewrite Hkey.
    apply Array_sort_perm.
  - rewrite (sorted_byPriorityGroups sorted Hsorted) at 1.
    unfold byPriorityGroups.
    rewrite <- (Hclass High), <- (Hclass Medium), <- (Hclass Low). reflexivity.
  - subst shown. intros -> ->. apply filter_all. reflexivity.
Qed.

Lemma priority_sort_is_stable_witness :
  let a := mkTask 1 (lit "A") false (lit "Work") High None [] false in
  let b := mkTask 2 (lit "B") false (lit "Work") Low None [] false in
  let c := mkTask 3 (lit "C") false (lit "Home") High None [] false in
  let d := mkTask 4 (lit "D") false (lit "Home") Medium None [] false in
  let s := initialState [a; b; c; d] in
  sortBy s = SortPriority
  /\ filteredAndSortedTasks EarlierFirst s = [a; c; d; b].
Proof.
  intros a b c d s. split; [reflexivity|].
  destruct (priority_sort_is_stable EarlierFirst s eq_refl)
    as (_ & _ & _ & H & Hall).
  rewrite H, (Hall eq_refl eq_refl). reflexivity.
Defined.

(** The example of the specification: for insertion order
    [A(High), B(Low), C(High)] the result is [A, C, B], whichever way the
    engine hands the pairs to the comparator. *)
Example priority_sort_A_before_C :
  let a := mkTask 1 (lit "A") false (lit "Work") High None [] false in
  let b := mkTask 2 (lit "B") false (lit "Work") Low None [] false in
  let c := mkTask 3 (lit "C") false (lit "Work") High None [] false in
  filteredAndSortedTasks EarlierFirst (initialState [a; b; c]) = [a; c; b]
  /\ filteredAndSortedTasks LaterFirst (initialState [a; b; c]) = [a; c; b].
Proof. split; reflexivity. Qed.

(** *** Sorting by due date *)

Lemma stays_due_later_first (y x : Task) :
  staysBefore LaterFirst (compareTasks SortDueDate) y x =
  match dueDate x, dueDate y with
  | None, _ => true
  | Some _, None => false
  | Some tx, Some ty => ty <=? tx
  end.
Proof.
  unfold staysBefore, compareTasks.
  destruct (dueDate x) as [tx|], (dueDate y) as [ty|]; try reflexivity.
  destruct (Z.leb_spec ty tx);
    [apply negb_true_iff, Z.ltb_ge | apply negb_false_iff, Z.ltb_lt]; lia.
Qed.

Lemma stays_due_earlier_first (y x : Task) :
  staysBefore EarlierFirst (compareTasks SortDueDate) y x =
  match dueDate y, dueDate x with
  | None, _ => false
  | Some _, None => true
  | Some ty, Some tx => ty <=? tx
  end.
Proof.
  unfold staysBefore, compareTasks.
  destruct (dueDate y) as [ty|], (dueDate x) as [tx|]; try reflexivity.
  destruct (Z.leb_spec ty tx); [apply Z.leb_le | apply Z.leb_gt]; lia.
Qed.

Lemma stays_due_cases (order : ArgOrder) (y x : Task) :
  staysBefore order (compareTasks SortDueDate) y x =
  match dueDate y, dueDate x with
  | Some ty, Some tx => ty <=? tx
  | Some _, None => true
  | None, Some _ => false
  | None, None => match order with LaterFirst => true | EarlierFirst => false end
  end.
Proof.
  destruct order; [rewrite stays_due_earlier_first | rewrite stays_due_later_first];
    destruct (dueDate y), (dueDate x); reflexivity.
Qed.

(** Both argument orders put the dated tasks first, in ascending order, and
    keep tasks of one date in their original order. *)
Lemma due_date_sort_dated_part (order : ArgOrder) (l : list Task) :
  let sorted := Array_sort order (compareTasks SortDueDate) l in
  Permutation sorted l
  /\ StronglySorted dueDateOrder sorted
  /\ forall d, List.filter (dueOn d) sorted = List.filter (dueOn d) l.
Proof.
  cbv zeta. split; [apply Array_sort_perm|]. split.
  - apply Array_sort_sorted; unfold dueDateOrder.
    + intros y x. rewrite stays_due_cases.
      destruct (dueDate y), (dueDate x), order; try tauto; try discriminate;
        apply Z.leb_le.
    + intros y x. rewrite stays_due_cases.
      destruct (dueDate y), (dueDate x), order; try tauto; try discriminate;
        intros H; apply Z.leb_gt in H; lia.
    + intros z y x. rewrite stays_due_cases.
      destruct (dueDate z), (dueDate y), (dueDate x), order;
        try tauto; try discriminate; intros Hzy H; apply Z.leb_le in H; lia.
  - intros d. apply Array_sort_class.
    intros y x Hy Hx. rewrite stays_due_cases.
    unfold dueOn in *. apply bool_decide_eq_true in Hy, Hx.
    rewrite Hy, Hx. apply Z.leb_refl.
Qed.

(** An engine that hands the later element first keeps the tasks without a
    due date in their original order. *)
Lemma due_date_sort_dateless_later_first (l : list Task) :
  List.filter dateless (Array_sort LaterFirst (compareTasks SortDueDate) l)
  = List.filter dateless l.
Proof.
  apply Array_sort_class. intros y x Hy Hx. rewrite stays_due_cases.
  unfold dateless in *. destruct (dueDate y), (dueDate x); try discriminate.
  reflexivity.
Qed.

Lemma insert_dateless_earlier_first (x : Task) (placed : list Task) :
  StronglySorted (fun later earlier => dueDateOrder earlier later) placed ->
  List.filter dateless (insertFromEnd EarlierFirst (compareTasks SortDueDate) x placed)
  = if dateless x then List.filter dateless placed ++ [x]
    else List.filter dateless placed.
Proof.
  assert (Hd : forall t, dateless t = match dueDate t with Some _ => false | None => true end).
  { intros t. unfold dateless. destruct (dueDate t); reflexivity. }
  induction placed as [|y rest IH]; intros Hs.
  - cbn. destruct (dateless x); reflexivity.
  - inversion Hs as [|? ? Hrest Hall]; subst. specialize (IH Hrest).
    cbn [insertFromEnd]. rewrite stays_due_cases.
    pose proof (Hd y) as Hy'. pose proof (Hd x) as Hx'.
    destruct (dueDate y) as [ty|] eqn:Hy.
    + assert (Hnone : List.filter dateless rest = []).
      { clear IH Hs Hrest. induction rest as [|z rest IHr]; [reflexivity|].
        inversion Hall as [|? ? Hz Hr]; subst. cbn [List.filter].
        unfold dueDateOrder in Hz. rewrite Hy in Hz.
        rewrite (Hd z). destruct (dueDate z); [|contradiction].
        apply IHr, Hr. }
      destruct (dueDate x) as [tx|] eqn:Hx.
      * destruct (ty <=? tx); cbn [List.filter];
          rewrite ?Hx', ?Hy', ?IH, ?Hx', ?Hnone; reflexivity.
      * cbn [List.filter]. rewrite Hx', Hy', Hnone. reflexivity.
    + assert (Hcase : (match dueDate x with Some _ => false | None => false end) = false)
        by (destruct (dueDate x); reflexivity).
      rewrite Hcase. cbn [List.filter]. rewrite Hy', IH.
      destruct (dateless x); reflexivity.
Qed.

(** An engine that hands the earlier element first reverses them. *)
Lemma due_date_sort_dateless_earlier_first (l : list Task) :
  List.filter dateless (Array_sort EarlierFirst (compareTasks SortDueDate) l)
  = rev (List.filter dateless l).
Proof.
  unfold Array_sort. rewrite filter_rev. f_equal.
  assert (H : forall placed,
    StronglySorted (fun later earlier => dueDateOrder earlier later) placed ->
    List.filter dateless
      (fold_left (fun p x => insertFromEnd EarlierFirst (compareTasks SortDueDate) x p)
                 l placed)
    = List.filter dateless placed ++ List.filter dateless l).
  { induction l as [|x l IH]; intros placed Hs.
    - cbn. rewrite app_nil_r. reflexivity.
    - cbn [fold_left]. rewrite IH.
      + rewrite insert_dateless_earlier_first by exact Hs.
        cbn [List.filter]. destruct (dateless x); [|reflexivity].
        rewrite <- app_assoc. reflexivity.
      + apply insertFromEnd_sorted; [| | |exact Hs]; unfold dueDateOrder.
        * intros y z. rewrite stays_due_cases.
          destruct (dueDate y), (dueDate z); try tauto; try discriminate.
          apply Z.leb_le.
        * intros y z. rewrite stays_due_cases.
          destruct (dueDate y), (dueDate z); try tauto; try discriminate.
          intros H; apply Z.leb_gt in H; lia.
        * intros w y z. rewrite stays_due_cases.
          destruct (dueDate w), (dueDate y), (dueDate z);
            try tauto; try discriminate; intros Hzy H; apply Z.leb_le in H; lia. }
  rewrite H by constructor. reflexivity.
Qed.

(** C5 at the failing input. For two tasks without a due date the
    comparator answers 1 whichever comes first, so it is not a consistent
    comparator and the place of such tasks is left to the engine: one that
    hands the earlier element first shows them in reverse collection order. *)
Theorem due_date_sort_reverses_dateless_tasks :
  let a := mkTask 1 (lit "A") false (lit "Work") Low None [] false in
  let b := mkTask 2 (lit "B") false (lit "Work") Low None [] false in
  let c := mkTask 3 (lit "C") false (lit "Work") Low (Some 5) [] false in
  let s := setSortBy SortDueDate (initialState [a; b; c]) in
  compareTasks SortDueDate a b = 1
  /\ compareTasks SortDueDate b a = 1
  /\ ~ consistentOn (compareTasks SortDueDate) a b
  /\ filteredAndSortedTasks EarlierFirst s = [c; b; a]
  /\ filteredAndSortedTasks LaterFirst s = [c; a; b].
Proof.
  repeat split; try reflexivity.
  unfold consistentOn. cbn. discriminate.
Qed.

(** ** The derived view and the store *)

Lemma filteredAndSortedTasks_ref_run (order : ArgOrder) (query selected : jsstring)
    (key : SortKey) (tasksRef : loc) (h : gmap loc (list Task)) :
  filteredAndSortedTasks_ref order query selected key tasksRef h =
  let view := fresh (dom h) in
  (view,
   <[view := Array_sort order (compareTasks key)
               (List.filter (matchesFilter query selected)
                            (default [] (h !! tasksRef)))]>
     (<[view := List.filter (matchesFilter query selected)
                            (default [] (h !! tasksRef))]> h)).
Proof.
  unfold filteredAndSortedTasks_ref, Array_filter_ref, Array_sort_ref,
    readArray, newArray, writeArray, mbind, mret, Heap_bind, Heap_ret.
  cbv zeta. rewrite lookup_insert_eq. reflexivity.
Qed.

(** C10. Computing the derived view, with either sort key, has no side
    effect on the task store: the array [tasks] refers to holds the same
    tasks in the same order afterwards, as does every other array that was
    there; the view is a new array. *)
Theorem derived_view_leaves_store (order : ArgOrder) (s : State)
    (tasksRef : loc) (h : gmap loc (list Task)) :
  h !! tasksRef = Some (tasks s) ->
  let result :=
    filteredAndSortedTasks_ref order (searchQuery s) (selectedCategory s)
      (sortBy s) tasksRef h in
  snd result !! tasksRef = Some (tasks s)
  /\ (forall a, a ∈ dom h -> snd result !! a = h !! a)
  /\ fst result <> tasksRef
  /\ snd result !! fst result = Some (filteredAndSortedTasks order s).
Proof.
  intros Hstore result. subst result.
  rewrite filteredAndSortedTasks_ref_run. cbv zeta. cbn [fst snd].
  rewrite Hstore. cbn [default].
  pose proof (is_fresh (dom h)) as Hfresh.
  assert (Hne : forall a, a ∈ dom h -> fresh (dom h) <> a).
  { intros a Ha Heq. rewrite Heq in Hfresh. contradiction. }
  assert (Hin : tasksRef ∈ dom h).
  { apply elem_of_dom. rewrite Hstore. eexists. reflexivity. }
  repeat split.
  - rewrite !lookup_insert_ne by (apply Hne, Hin). exact Hstore.
  - intros a Ha. rewrite !lookup_insert_ne by (apply Hne, Ha). reflexivity.
  - apply Hne, Hin.
  - rewrite lookup_insert_eq. reflexivity.
Qed.

Lemma derived_view_leaves_store_witness :
  let a := mkTask 1 (lit "A") false (lit "Work") Low None [] false in
  let b := mkTask 2 (lit "B") false (lit "Work") High (Some 3) [] false in
  let s := initialState [a; b] in
  let h : gmap loc (list Task) := {[ 1%positive := tasks s ]} in
  h !! 1%positive = Some (tasks s)
  /\ snd (filteredAndSortedTasks_ref LaterFirst (searchQuery s)
            (selectedCategory s) (sortBy s) 1%positive h) !! 1%positive
     = Some [a; b].
Proof.
  intros a b s h.
  assert (H : h !! 1%positive = Some (tasks s)) by reflexivity.
  split; [exact H|].
  exact (proj1 (derived_view_leaves_store LaterFirst s 1%positive h H)).
Defined.

(** Sorting the store's own array instead would reorder the store: the
    model does tell the two apart. *)
Example sort_in_place_reorders :
  let a := mkTask 1 (lit "A") false (lit "Work") Low None [] false in
  let b := mkTask 2 (lit "B") false (lit "Work") High None [] false in
  let h : gmap loc (list Task) := {[ 1%positive := [a; b] ]} in
  snd (Array_sort_ref LaterFirst (compareTasks SortPriority) 1%positive h) !! 1%positive
  = Some [b; a].
Proof. reflexivity. Qed.

(** ** The parser never runs out of fuel *)

Lemma consumes_longer {A : Type} (s s' : jsstring) (p : parsed A) :
  (length s <= length s')%nat -> consumes s p -> consumes s' p.
Proof. destruct p; simpl; [lia | tauto | tauto]. Qed.

Lemma skipSpace_length (s : jsstring) : (length (skipSpace s) <= length s)%nat.
Proof.
  induction s as [|c s IH]; simpl; [lia|].
  destruct (isJsonSpace c); simpl; lia.
Qed.

Lemma parseChars_consumes (s acc : jsstring) : consumes s (parseChars s acc).
Proof.
  remember (length s) as n eqn:Hn.
  assert (Hle : (length s <= n)%nat) by lia. clear Hn.
  revert s acc Hle. induction n as [|n IH]; intros s acc Hle.
  - destruct s; [exact I | simpl in Hle; lia].
  - destruct s as [|c s]; [exact I|]. cbn [parseChars]. simpl in Hle.
    destruct (c =? 34)%N; [simpl; lia|].
    destruct (c =? 92)%N.
    + destruct s as [|e r]; [exact I|]. simpl in Hle.
      assert (Hstep : forall acc', consumes (c :: e :: r) (parseChars r acc')).
      { intros acc'. apply (consumes_longer r); [simpl; lia|]. apply IH. lia. }
      repeat (match goal with
              | |- context [if ?b then _ else _] => destruct b
              end; [apply Hstep|]); try exact I.
      destruct (e =? 117)%N; [|exact I].
      destruct r as [|h1 [|h2 [|h3 [|h4 r]]]]; try exact I.
      destruct (hex4 h1 h2 h3 h4); [|exact I].
      apply (consumes_longer r); [simpl; lia|]. apply IH. simpl in Hle. lia.
    + destruct (c <? 32)%N; [exact I|].
      apply (consumes_longer s); [simpl; lia|]. apply IH. lia.
Qed.

Lemma takeDigits_length (s : jsstring) :
  (length (snd (takeDigits s)) + length (fst (takeDigits s)) = length s)%nat.
Proof.
  induction s as [|c s IH]; [reflexivity|]. cbn [takeDigits].
  destruct (isDigit c); [|simpl; lia].
  destruct (takeDigits s) as [ds rest]. simpl in *. lia.
Qed.

Lemma takeSign_length (plus : bool) (s : jsstring) :
  (length (snd (takeSign plus s)) <= length s)%nat.
Proof.
  destruct s as [|c s]; [simpl; lia|]. unfold takeSign.
  destruct (c =? 45)%N; [simpl; lia|].
  destruct (plus && (c =? 43)%N); simpl; lia.
Qed.

Lemma parseFraction_length (s : jsstring) (fs : list Z) (rest : jsstring) :
  parseFraction s = Some (fs, rest) -> (length rest <= length s)%nat.
Proof.
  destruct s as [|c s]; cbn [parseFraction].
  - intros H. injection H as _ <-. simpl. lia.
  - destruct (c =? 46)%N.
    + pose proof (takeDigits_length s) as Hl.
      destruct (takeDigits s) as [[|d ds] r]; [discriminate|].
      intros H. injection H as _ <-. simpl in *. lia.
    + intros H. injection H as _ <-. lia.
Qed.

Lemma parseExponent_length (s : jsstring) (ex : Z) (rest : jsstring) :
  parseExponent s = Some (ex, rest) -> (length rest <= length s)%nat.
Proof.
  destruct s as [|c s]; cbn [parseExponent].
  - intros H. injection H as _ <-. simpl. lia.
  - destruct ((c =? 101) || (c =? 69))%N.
    + pose proof (takeSign_length true s) as Hsg.
      destruct (takeSign true s) as [negative r1].
      pose proof (takeDigits_length r1) as Hl.
      destruct (takeDigits r1) as [[|d ds] r]; [discriminate|].
      intros H. injection H as _ <-. simpl in *. lia.
    + intros H. injection H as _ <-. lia.
Qed.

Lemma parseNumber_consumes (s : jsstring) : consumes s (parseNumber s).
Proof.
  unfold parseNumber.
  pose proof (takeSign_length false s) as Hsg.
  destruct (takeSign false s) as [negative s1].
  pose proof (takeDigits_length s1) as Hl.
  destruct (takeDigits s1) as [[|d ds] s2]; [exact I|].
  destruct ((d =? 0) && negb (length ds =? 0)%nat); [exact I|].
  destruct (parseFraction s2) as [[fs s3]|] eqn:Hf; [|exact I].
  apply parseFraction_length in Hf.
  destruct (parseExponent s3) as [[ex s4]|] eqn:He; [|exact I].
  apply parseExponent_length in He.
  destruct (digitsValue (d :: ds ++ fs) =? 0); simpl in *; lia.
Qed.

Lemma parseWord_consumes (word : jsstring) (v : value) (s : jsstring) :
  s <> [] -> word <> [] -> consumes s (parseWord word v s).
Proof.
  intros Hs Hw. unfold parseWord.
  destruct (startsWith s word); [|exact I]. simpl.
  rewrite length_skipn. destruct s; [congruence|]. destruct word; [congruence|].
  simpl. lia.
Qed.

Section CompositeFuel.
Variable parseElement : jsstring -> parsed value.

Lemma parseElements_consumes (fuel : nat) (s : jsstring) (acc : list value) :
  (forall s', (length s' <= length s)%nat -> consumes s' (parseElement s')) ->
  (length s < fuel)%nat ->
  consumes s (parseElements parseElement fuel s acc).
Proof using Type.
  revert s acc. induction fuel as [|fuel IH]; intros s acc Hpe Hfuel; [lia|].
  cbn [parseElements].
  pose proof (Hpe s (Nat.le_refl _)) as Hv.
  destruct (parseElement s) as [v r| |]; simpl in Hv; [|exact I|contradiction].
  pose proof (skipSpace_length r) as Hsp.
  destruct (skipSpace r) as [|c r']; [exact I|]. simpl in Hsp.
  destruct (c =? 44)%N.
  - apply (consumes_longer r'); [lia|]. apply IH; [|lia].
    intros s' Hs'. apply Hpe. lia.
  - destruct (c =? 93)%N; [simpl; lia | exact I].
Qed.

Lemma parseMembers_consumes (fuel : nat) (s : jsstring)
    (acc : list (jsstring * value)) :
  (forall s', (length s' <= length s)%nat -> consumes s' (parseElement s')) ->
  (length s < fuel)%nat ->
  consumes s (parseMembers parseElement fuel s acc).
Proof using Type.
  revert s acc. induction fuel as [|fuel IH]; intros s acc Hpe Hfuel; [lia|].
  cbn [parseMembers].
  pose proof (skipSpace_length s) as Hs0.
  destruct (skipSpace s) as [|q r]; [exact I|]. simpl in Hs0.
  destruct (negb (q =? 34)%N); [exact I|].
  pose proof (parseChars_consumes r []) as Hk.
  destruct (parseChars r []) as [k r1| |]; simpl in Hk; [|exact I|contradiction].
  pose proof (skipSpace_length r1) as Hs1.
  destruct (skipSpace r1) as [|colon r2]; [exact I|]. simpl in Hs1.
  destruct (negb (colon =? 58)%N); [exact I|].
  pose proof (Hpe r2 ltac:(lia)) as Hv.
  destruct (parseElement r2) as [v r3| |]; simpl in Hv; [|exact I|contradiction].
  pose proof (skipSpace_length r3) as Hs3.
  destruct (skipSpace r3) as [|c r4]; [exact I|]. simpl in Hs3.
  destruct (c =? 44)%N.
  - apply (consumes_longer r4); [lia|]. apply IH; [|lia].
    intros s' Hs'. apply Hpe. lia.
  - destruct (c =? 125)%N; [simpl; lia | exact I].
Qed.
End CompositeFuel.

Lemma parseValue_consumes (fuel : nat) (s : jsstring) :
  (length s < fuel)%nat -> consumes s (parseValue fuel s).
Proof.
  revert s. induction fuel as [|fuel IH]; intros s Hfuel; [lia|].
  cbn [parseValue].
  pose proof (skipSpace_length s) as Hs0.
  destruct (skipSpace s) as [|c r]; [exact I|]. simpl in Hs0.
  assert (Hword : forall word v, word <> [] ->
            consumes s (parseWord word v (c :: r))).
  { intros word v Hw. apply (consumes_longer (c :: r)); [simpl; lia|].
    apply parseWord_consumes; [discriminate | exact Hw]. }
  destruct (c =? 110)%N; [apply Hword; discriminate|].
  destruct (c =? 116)%N; [apply Hword; discriminate|].
  destruct (c =? 102)%N; [apply Hword; discriminate|].
  destruct (c =? 34)%N.
  { pose proof (parseChars_consumes r []) as Hk.
    destruct (parseChars r []); simpl in *; [lia | exact I | contradiction]. }
  pose proof (skipSpace_length r) as Hs1.
  destruct (c =? 91)%N.
  { destruct (startsWith (skipSpace r) [93%N]).
    - simpl. rewrite length_skipn. lia.
    - pose proof (parseElements_consumes (parseValue fuel) fuel r []) as He.
      destruct (parseElements (parseValue fuel) fuel r []);
        [simpl in *; specialize (He ltac:(intros; apply IH; lia) ltac:(lia)); lia
        | exact I
        | apply He; [intros; apply IH; lia | lia]]. }
  destruct (c =? 123)%N.
  { destruct (startsWith (skipSpace r) [125%N]).
    - simpl. rewrite length_skipn. lia.
    - pose proof (parseMembers_consumes (parseValue fuel) fuel r []) as He.
      destruct (parseMembers (parseValue fuel) fuel r []);
        [simpl in *; specialize (He ltac:(intros; apply IH; lia) ltac:(lia)); lia
        | exact I
        | apply He; [intros; apply IH; lia | lia]]. }
  apply (consumes_longer (c :: r)); [simpl; lia|]. apply parseNumber_consumes.
Qed.

(** [JSON.parse] returns a value or throws on a text the grammar rejects:
    the fuel of the model is never what ends it. *)
Lemma JSON_parse_total (text : jsstring) :
  parseValue (S (length text)) text <> OutOfFuel.
Proof.
  intros H. pose proof (parseValue_consumes (S (length text)) text ltac:(lia)) as Hc.
  rewrite H in Hc. exact Hc.
Qed.

(** ** Printing and parsing agree *)

(** *** Strings *)

Lemma hexValue_hexUnit (d : N) : (d < 16)%N -> hexValue (hexUnit d) = Some d.
Proof.
  intros H. unfold hexValue, hexUnit.
  destruct (N.ltb_spec d 10).
  - replace ((48 <=? 48 + d) && (48 + d <=? 57))%N with true
      by (symmetry; apply andb_true_iff; split; apply N.leb_le; lia).
    f_equal. lia.
  - replace ((48 <=? 87 + d) && (87 + d <=? 57))%N with false
      by (symmetry; apply andb_false_iff; right; apply N.leb_gt; lia).
    replace ((97 <=? 87 + d) && (87 + d <=? 102))%N with true
      by (symmetry; apply andb_true_iff; split; apply N.leb_le; lia).
    f_equal. lia.
Qed.

Lemma parseChars_unicodeEscape (c : N) (rest acc : jsstring) :
  (c < 65536)%N ->
  parseChars (unicodeEscape c ++ rest) acc = parseChars rest (c :: acc).
Proof.
  intros Hc. unfold unicodeEscape. cbn [lit list_ascii_of_string List.map app].
  change (N_of_ascii "\") with 92%N. change (N_of_ascii "u") with 117%N.
  cbn [parseChars]. cbn [N.eqb Pos.eqb]. unfold hex4.
  rewrite !hexValue_hexUnit by (apply N.mod_lt; discriminate).
  f_equal. f_equal.
  zify. Z.to_euclidean_division_equations. lia.
Qed.

Lemma parseChars_raw (c : N) (rest acc : jsstring) :
  (32 <= c)%N -> c <> 34%N -> c <> 92%N ->
  parseChars (c :: rest) acc = parseChars rest (c :: acc).
Proof.
  intros H32 H34 H92. cbn [parseChars].
  rewrite (proj2 (N.eqb_neq c 34) H34), (proj2 (N.eqb_neq c 92) H92).
  rewrite (proj2 (N.ltb_ge c 32) H32). reflexivity.
Qed.

Lemma parseChars_escapeUnit (c : N) (rest acc : jsstring) :
  (c < 65536)%N ->
  parseChars (escapeUnit c ++ rest) acc = parseChars rest (c :: acc).
Proof.
  intros Hc. unfold escapeUnit.
  repeat match goal with
         | |- context [if (c =? ?k)%N then _ else _] =>
             destruct (N.eqb_spec c k) as [->|?]; [reflexivity|]
         end.
  destruct (N.ltb_spec c 32).
  - apply parseChars_unicodeEscape. exact Hc.
  - apply parseChars_raw; assumption.
Qed.

Lemma surrogate_raw (c : N) :
  isLeadSurrogate c = true \/ isTrailSurrogate c = true ->
  (32 <= c)%N /\ c <> 34%N /\ c <> 92%N.
Proof.
  unfold isLeadSurrogate, isTrailSurrogate.
  rewrite !andb_true_iff, !N.leb_le. lia.
Qed.

Lemma parseChars_quoteUnits (s rest acc : jsstring) :
  unit16 s ->
  parseChars (quoteUnits s ++ 34%N :: rest) acc = Parsed (rev acc ++ s) rest.
Proof.
  unfold unit16.
  remember (length s) as n eqn:Hn.
  assert (Hle : (length s <= n)%nat) by lia. clear Hn.
  revert s acc Hle. induction n as [|n IH]; intros s acc Hle H16.
  - destruct s; [|simpl in Hle; lia]. cbn. rewrite app_nil_r. reflexivity.
  - destruct s as [|c s].
    { cbn. rewrite app_nil_r. reflexivity. }
    simpl in Hle. inversion H16 as [|? ? Hc Hs]; subst.
    assert (Hnext : forall acc',
              parseChars (quoteUnits s ++ 34%N :: rest) (c :: acc')
              = Parsed (rev acc' ++ c :: s) rest).
    { intros acc'. rewrite IH by (try lia; assumption).
      cbn [rev]. rewrite <- app_assoc. reflexivity. }
    cbn [quoteUnits].
    destruct (isLeadSurrogate c) eqn:Hlead.
    + destruct s as [|d s].
      * rewrite parseChars_unicodeEscape by exact Hc. apply Hnext.
      * destruct (isTrailSurrogate d) eqn:Htrail.
        -- destruct (surrogate_raw c (or_introl Hlead)) as (? & ? & ?).
           destruct (surrogate_raw d (or_intror Htrail)) as (? & ? & ?).
           cbn [app]. rewrite !parseChars_raw by assumption.
           inversion Hs; subst. simpl in Hle.
           rewrite IH by (try lia; assumption).
           cbn [rev]. rewrite <- !app_assoc. reflexivity.
        -- rewrite <- app_assoc, parseChars_unicodeEscape by exact Hc.
           apply Hnext.
    + destruct (isTrailSurrogate c).
      * rewrite <- app_assoc, parseChars_unicodeEscape by exact Hc. apply Hnext.
      * rewrite <- app_assoc, parseChars_escapeUnit by exact Hc. apply Hnext.
Qed.

(** A quoted string parses back to the string. *)
Lemma parseChars_quote (s rest : jsstring) :
  unit16 s ->
  exists tail, quote s ++ rest = 34%N :: tail
               /\ parseChars tail [] = Parsed s rest.
Proof.
  intros H. exists (quoteUnits s ++ 34%N :: rest). split.
  - unfold quote. cbn [app]. rewrite <- app_assoc. reflexivity.
  - apply (parseChars_quoteUnits s rest [] H).
Qed.

(** *** Integers *)

Lemma digitsValue_app (ds : list Z) (d : Z) :
  digitsValue (ds ++ [d]) = digitsValue ds * 10 + d.
Proof. unfold digitsValue. rewrite fold_left_app. reflexivity. Qed.

(** The digits [digitsOf] writes in front of [acc]. *)
Lemma digitsOf_digits (fuel : nat) (n : Z) (acc : jsstring) :
  0 <= n < 10 ^ Z.of_nat (S fuel) ->
  exists d ds,
    digitsOf (S fuel) n acc = List.map digitUnit (d :: ds) ++ acc
    /\ Forall (fun x => 0 <= x <= 9) (d :: ds)
    /\ digitsValue (d :: ds) = n
    /\ (0 < n -> 0 < d)
    /\ (length ds <= fuel)%nat.
Proof.
  revert n acc. induction fuel as [|fuel IH]; intros n acc Hn.
  - change (10 ^ Z.of_nat 1) with 10 in Hn.
    exists n, []. cbn [digitsOf]. rewrite (proj2 (Z.ltb_lt n 10)) by lia.
    split; [reflexivity|]. split; [constructor; [lia | constructor]|].
    split; [unfold digitsValue; simpl; lia|]. split; [lia | simpl; lia].
  - cbn [digitsOf]. destruct (Z.ltb_spec n 10) as [Hlt|Hge].
    + exists n, [].
      split; [reflexivity|]. split; [constructor; [lia | constructor]|].
      split; [unfold digitsValue; simpl; lia|]. split; [lia | simpl; lia].
    + assert (Hq : 0 <= n / 10 < 10 ^ Z.of_nat (S fuel)).
      { split; [apply Z.div_pos; lia|].
        apply Z.div_lt_upper_bound; [lia|].
        rewrite <- Z.pow_succ_r by lia. rewrite <- Nat2Z.inj_succ. lia. }
      destruct (IH (n / 10) (digitUnit (n mod 10) :: acc) Hq)
        as (d & ds & Heq & Hall & Hval & Hpos & Hlen).
      exists d, (ds ++ [n mod 10]). split; [|split; [|split; [|split]]].
      * change (digitsOf (S fuel) (n / 10) (digitUnit (n mod 10) :: acc)
                = List.map digitUnit (d :: ds ++ [n mod 10]) ++ acc).
        rewrite Heq. cbn [List.map app]. rewrite List.map_app, <- app_assoc.
        reflexivity.
      * rewrite app_comm_cons. apply Forall_app. split; [exact Hall|].
        constructor; [|constructor].
        pose proof (Z.mod_pos_bound n 10 ltac:(lia)). lia.
      * rewrite app_comm_cons, digitsValue_app, Hval.
        pose proof (Z.div_mod n 10 ltac:(lia)). lia.
      * intros _. apply Hpos. apply Z.div_str_pos. lia.
      * rewrite length_app. simpl. lia.
Qed.

Lemma decimal_digits (n : Z) :
  0 <= n ->
  exists d ds,
    decimal n = List.map digitUnit (d :: ds)
    /\ Forall (fun x => 0 <= x <= 9) (d :: ds)
    /\ digitsValue (d :: ds) = n
    /\ (0 < n -> 0 < d).
Proof.
  intros Hn. unfold decimal.
  assert (Hb : 0 <= n < 10 ^ Z.of_nat (S (Z.to_nat (Z.log2 n)))).
  { split; [exact Hn|].
    destruct (Z.eq_dec n 0) as [->|Hne].
    - apply Z.pow_pos_nonneg; lia.
    - pose proof (Z.log2_spec n ltac:(lia)) as [_ Hup].
      pose proof (Z.log2_nonneg n) as Hl.
      rewrite Nat2Z.inj_succ, Z2Nat.id by exact Hl.
      eapply Z.lt_le_trans; [exact Hup|].
      apply Z.pow_le_mono_l. lia. }
  destruct (digitsOf_digits _ n [] Hb) as (d & ds & Heq & Hall & Hval & Hpos & _).
  exists d, ds. rewrite Heq, app_nil_r. repeat split; assumption.
Qed.

Lemma digitUnit_digit (d : Z) :
  0 <= d <= 9 -> isDigit (digitUnit d) = true /\ Z.of_N (digitUnit d) - 48 = d.
Proof.
  intros Hd. unfold isDigit, digitUnit.
  rewrite andb_true_iff, !N.leb_le. lia.
Qed.

Lemma delimited_head (c : N) (rest : jsstring) :
  delimited (c :: rest) ->
  isDigit c = false /\ (c =? 46)%N = false /\ ((c =? 101) || (c =? 69))%N = false
  /\ isJsonSpace c = false.
Proof.
  intros [-> | [-> | ->]]; repeat split; reflexivity.
Qed.

Lemma takeDigits_digits (ds : list Z) (rest : jsstring) :
  Forall (fun x => 0 <= x <= 9) ds -> delimited rest ->
  takeDigits (List.map digitUnit ds ++ rest) = (ds, rest).
Proof.
  intros Hall Hrest. induction Hall as [|d ds Hd Hall IH].
  - cbn [List.map app]. destruct rest as [|c rest]; [reflexivity|].
    cbn [takeDigits]. destruct (delimited_head c rest Hrest) as (-> & _).
    reflexivity.
  - cbn [List.map app takeDigits].
    destruct (digitUnit_digit d Hd) as (-> & ->). rewrite IH. reflexivity.
Qed.

Lemma stripZeros_zeros (rds : jsstring) (e : Z) :
  exists k : nat,
    stripZeros rds e = (skipn k rds, e + Z.of_nat k)
    /\ firstn k rds = repeat 48%N k
    /\ (k <= length rds)%nat.
Proof.
  revert e. induction rds as [|c rds IH]; intros e.
  - exists O. cbn. rewrite Z.add_0_r. repeat split. lia.
  - cbn [stripZeros]. destruct rds as [|c' rds].
    + exists O. cbn. rewrite Z.add_0_r. repeat split. lia.
    + destruct (N.eqb_spec c 48) as [->|Hc].
      * destruct (IH (e + 1)) as (k & Heq & Hz & Hk).
        exists (S k). rewrite Heq. cbn [skipn firstn repeat length] in *.
        rewrite Hz. repeat split; [f_equal; lia | lia].
      * exists O. cbn. rewrite Z.add_0_r. repeat split. lia.
Qed.

Lemma digitsValue_lower (d : Z) (ds : list Z) :
  Forall (fun x => 0 <= x <= 9) ds -> 0 <= d ->
  d * 10 ^ Z.of_nat (length ds) <= digitsValue (d :: ds).
Proof.
  intros Hall Hd. induction ds as [|x ds IH] using rev_ind.
  - unfold digitsValue. simpl. lia.
  - apply Forall_app in Hall. destruct Hall as [Hds Hx].
    inversion Hx as [|? ? Hx9 _]; subst. specialize (IH Hds).
    rewrite app_comm_cons, digitsValue_app, length_app. cbn [length].
    rewrite Nat2Z.inj_add. change (Z.of_nat 1) with 1.
    rewrite Z.pow_add_r by lia. change (10 ^ 1) with 10. lia.
Qed.

Lemma decimal_length (n : Z) :
  0 < n < 10 ^ 21 -> (length (decimal n) <= 21)%nat.
Proof.
  intros Hn. destruct (decimal_digits n ltac:(lia)) as (d & ds & -> & Hall & Hval & Hpos).
  rewrite length_map. cbn [length].
  inversion Hall as [|? ? Hd Hds]; subst.
  pose proof (digitsValue_lower d ds Hds ltac:(lia)) as Hlow.
  specialize (Hpos ltac:(lia)).
  assert (Hp : 10 ^ Z.of_nat (length ds) < 10 ^ 21).
  { eapply Z.le_lt_trans; [|exact (proj2 Hn)].
    eapply Z.le_trans; [|exact Hlow].
    pose proof (Z.pow_pos_nonneg 10 (Z.of_nat (length ds)) ltac:(lia) ltac:(lia)).
    nia. }
  apply Z.pow_lt_mono_r_iff in Hp; lia.
Qed.

(** An integer below 10^21 in magnitude prints as its sign and digits. *)
Lemma numberToString_integer (n : Z) :
  n <> 0 -> Z.abs n < 10 ^ 21 ->
  numberToString n 0 = (if n <? 0 then [45%N] else []) ++ decimal (Z.abs n).
Proof.
  intros Hne Hb. unfold numberToString.
  rewrite (proj2 (Z.eqb_neq n 0) Hne).
  change (lit "-") with [45%N]. f_equal.
  pose proof (decimal_length (Z.abs n) ltac:(lia)) as Hlen.
  destruct (stripZeros_zeros (rev (decimal (Z.abs n))) 0) as (k & -> & Hz & Hk).
  rewrite length_rev in Hk.
  assert (Hds : decimal (Z.abs n)
                = rev (skipn k (rev (decimal (Z.abs n)))) ++ repeat 48%N k).
  { rewrite <- (rev_involutive (decimal (Z.abs n))) at 1.
    rewrite <- (firstn_skipn k (rev (decimal (Z.abs n)))) at 1.
    rewrite rev_app_distr, Hz. f_equal.
    clear. induction k as [|k IH]; [reflexivity|].
    cbn [repeat rev]. rewrite IH. clear IH.
    induction k as [|k IH]; [reflexivity|]. cbn [repeat app]. rewrite IH.
    reflexivity. }
  set (ds := rev (skipn k (rev (decimal (Z.abs n))))) in *.
  assert (Hl : length (decimal (Z.abs n)) = (length ds + k)%nat).
  { rewrite Hds at 1. rewrite length_app, repeat_length. reflexivity. }
  replace ((Z.of_nat (length ds) <=? Z.of_nat (length ds) + (0 + Z.of_nat k))
           && (Z.of_nat (length ds) + (0 + Z.of_nat k) <=? 21)) with true
    by (symmetry; apply andb_true_iff; split; apply Z.leb_le; lia).
  f_equal. rewrite Hds at 1. f_equal. f_equal. lia.
Qed.

Lemma parseNumber_integer (n : Z) (rest : jsstring) :
  Z.abs n < 10 ^ 21 -> delimited rest ->
  parseNumber (numberToString n 0 ++ rest) = Parsed (VInt n) rest.
Proof.
  intros Hb Hrest.
  assert (Hfrac : parseFraction rest = Some ([], rest)).
  { destruct rest as [|c rest]; [reflexivity|]. cbn [parseFraction].
    destruct (delimited_head c rest Hrest) as (_ & -> & _). reflexivity. }
  assert (Hexp : parseExponent rest = Some (0, rest)).
  { destruct rest as [|c rest]; [reflexivity|]. cbn [parseExponent].
    destruct (delimited_head c rest Hrest) as (_ & _ & -> & _). reflexivity. }
  destruct (Z.eq_dec n 0) as [->|Hne].
  - change (numberToString 0 0) with [48%N]. unfold parseNumber.
    cbn [app takeSign N.eqb Pos.eqb andb].
    change [48%N] with (List.map digitUnit [0]).
    change (48%N :: rest) with (List.map digitUnit [0] ++ rest).
    rewrite takeDigits_digits by (try assumption; repeat constructor; lia).
    cbn [Z.eqb length Nat.eqb negb andb]. rewrite Hfrac, Hexp. reflexivity.
  - rewrite numberToString_integer by assumption.
    destruct (decimal_digits (Z.abs n) ltac:(lia)) as (d & ds & -> & Hall & Hval & Hpos).
    specialize (Hpos ltac:(lia)).
    inversion Hall as [|? ? Hd Hds]; subst.
    assert (Hhead : (digitUnit d =? 45)%N = false).
    { apply N.eqb_neq. unfold digitUnit. lia. }
    unfold parseNumber.
    assert (Hsign : takeSign false
                      (((if n <? 0 then [45%N] else [])
                        ++ List.map digitUnit (d :: ds)) ++ rest)
                    = (n <? 0, List.map digitUnit (d :: ds) ++ rest)).
    { destruct (n <? 0); [reflexivity|].
      cbn [app List.map takeSign]. rewrite Hhead. reflexivity. }
    rewrite Hsign, takeDigits_digits by assumption.
    rewrite (proj2 (Z.eqb_neq d 0)) by lia. cbn [andb].
    rewrite Hfrac, Hexp, app_nil_r.
    rewrite (proj2 (Z.eqb_neq (digitsValue (d :: ds)) 0)) by lia.
    f_equal. cbn [normalDecimal length Z.of_nat Z.sub Z.leb Z.compare Z.opp].
    change (0 <=? 0 - 0) with true. cbv iota.
    rewrite Hval. f_equal.
    destruct (Z.ltb_spec n 0); lia.
Qed.

(** *** Values *)

Lemma printable_array (l : list value) :
  printable (VArray l) <-> Forall printable l.
Proof.
  cbn [printable]. induction l as [|e l IH]; cbn [fold_right].
  - split; [constructor | exact (fun _ => I)].
  - rewrite IH. split.
    + intros [He Hl]. constructor; assumption.
    + intros H. inversion H; subst. split; assumption.
Qed.

Lemma printable_object (props : list (jsstring * value)) :
  printable (VObject props) <->
  NoDup (List.map fst props)
  /\ Forall (fun kv => unit16 (fst kv) /\ printable (snd kv)) props.
Proof.
  cbn [printable]. apply and_iff_compat_l.
  induction props as [|kv props IH]; cbn [fold_right].
  - split; [constructor | exact (fun _ => I)].
  - rewrite IH. split.
    + intros (Hk & Hv & Hl). constructor; [split|]; assumption.
    + intros H. inversion H as [|? ? [Hk Hv] Hl]; subst. repeat split; assumption.
Qed.

Lemma size_pos (v : value) : (1 <= size v)%nat.
Proof. destruct v; cbn [size]; lia. Qed.

Lemma size_elements (l : list value) :
  (length l <= fold_right (fun e n => size e + n)%nat O l)%nat
  /\ Forall (fun e => (size e <= fold_right (fun e n => size e + n)%nat O l)%nat) l.
Proof.
  induction l as [|e l [IHlen IHall]]; cbn [fold_right length].
  - split; [lia | constructor].
  - pose proof (size_pos e). split; [lia|].
    constructor; [lia|]. eapply Forall_impl; [exact IHall|].
    intros x Hx. cbn beta in *. lia.
Qed.

Lemma size_properties (props : list (jsstring * value)) :
  (length props <= fold_right (fun kv n => size (snd kv) + n)%nat O props)%nat
  /\ Forall (fun kv => (size (snd kv)
                        <= fold_right (fun kv n => size (snd kv) + n)%nat O props)%nat)
            props.
Proof.
  induction props as [|kv props [IHlen IHall]]; cbn [fold_right length].
  - split; [lia | constructor].
  - pose proof (size_pos (snd kv)). split; [lia|].
    constructor; [lia|]. eapply Forall_impl; [exact IHall|].
    intros x Hx. cbn beta in *. lia.
Qed.

Lemma digitsOf_unit16 (fuel : nat) (n : Z) (acc : jsstring) :
  unit16 acc -> unit16 (digitsOf fuel n acc).
Proof.
  unfold unit16. revert n acc. induction fuel as [|fuel IH]; intros n acc Hacc.
  - exact Hacc.
  - cbn [digitsOf]. destruct (Z.ltb_spec n 10).
    + constructor; [unfold digitUnit; lia | exact Hacc].
    + apply IH. constructor; [|exact Hacc].
      pose proof (Z.mod_pos_bound n 10 ltac:(lia)). unfold digitUnit. lia.
Qed.

Lemma padStart_unit16 (width : nat) (n : Z) : unit16 (padStart width n).
Proof.
  unfold padStart, unit16. apply Forall_app. split.
  - apply Forall_forall. intros c Hc. apply list_elem_of_In, repeat_spec in Hc.
    subst. reflexivity.
  - apply digitsOf_unit16. constructor.
Qed.

Lemma toISOString_unit16 (t : Z) : unit16 (toISOString t).
Proof.
  unfold toISOString. destruct (civilFromDays (t / msPerDay)) as [[y m] d].
  assert (Hlit : forall c, unit16 [c] -> forall s, unit16 s -> unit16 ([c] ++ s)).
  { intros c Hc s Hs. apply Forall_app. split; assumption. }
  assert (Hsign : unit16 (if y <? 0 then lit "-" else lit "+")).
  { destruct (y <? 0); repeat constructor. }
  assert (Hyear : unit16 (if (0 <=? y) && (y <=? 9999) then padStart 4 y
                          else (if y <? 0 then lit "-" else lit "+")
                               ++ padStart 6 (Z.abs y))).
  { destruct ((0 <=? y) && (y <=? 9999)); [apply padStart_unit16|].
    apply Forall_app. split; [exact Hsign | apply padStart_unit16]. }
  repeat first [ exact Hyear
               | apply padStart_unit16
               | solve [repeat constructor]
               | apply Forall_app; split ].
Qed.

Lemma number_head (n : Z) :
  Z.abs n < 10 ^ 21 ->
  exists c tail, numberToString n 0 = c :: tail
                 /\ (c = 45%N \/ (48 <= c <= 57)%N).
Proof.
  intros Hb. destruct (Z.eq_dec n 0) as [->|Hne].
  - exists 48%N, []. split; [reflexivity | right; lia].
  - rewrite numberToString_integer by assumption.
    destruct (decimal_digits (Z.abs n) ltac:(lia)) as (d & ds & -> & Hall & _).
    inversion Hall as [|? ? Hd _]; subst.
    destruct (n <? 0).
    + eexists _, _. split; [reflexivity | left; reflexivity].
    + eexists _, _. split; [reflexivity | right; unfold digitUnit; lia].
Qed.

Lemma parseValue_number (fuel : nat) (c : N) (tail : jsstring) :
  c = 45%N \/ (48 <= c <= 57)%N ->
  parseValue (S fuel) (c :: tail) = parseNumber (c :: tail).
Proof.
  intros Hc. cbn [parseValue skipSpace].
  assert (Hsp : isJsonSpace c = false).
  { unfold isJsonSpace. rewrite !orb_false_iff, !N.eqb_neq. lia. }
  rewrite Hsp.
  repeat match goal with
         | |- context [(c =? ?k)%N] =>
             rewrite (proj2 (N.eqb_neq c k)) by lia
         end.
  reflexivity.
Qed.

(** The first unit of a printed value is not white space and not a closing
    bracket. *)
Lemma stringify_head (v : value) :
  printable v ->
  exists c tail, JSON_stringify v = c :: tail
                 /\ isJsonSpace c = false /\ (c =? 93)%N = false.
Proof.
  destruct v as [|[|]|n|m e|s|t|l|props]; cbn [printable JSON_stringify];
    intros Hp; try contradiction;
    try (eexists _, _; split; [reflexivity | split; reflexivity]).
  destruct (number_head n Hp) as (c & tail & -> & Hc).
  exists c, tail. split; [reflexivity|].
  unfold isJsonSpace. rewrite !orb_false_iff, !N.eqb_neq. lia.
Qed.

Lemma skipSpace_head (c : N) (tail : jsstring) :
  isJsonSpace c = false -> skipSpace (c :: tail) = c :: tail.
Proof. intros H. cbn [skipSpace]. rewrite H. reflexivity. Qed.

Lemma setProperty_fresh (k : jsstring) (v : value) (acc : list (jsstring * value)) :
  ~ In k (List.map fst acc) -> setProperty k v acc = acc ++ [(k, v)].
Proof.
  induction acc as [|[k' v'] acc IH]; intros Hk; [reflexivity|].
  cbn [setProperty]. cbn [List.map fst In] in Hk.
  destruct (jsstring_eqb k' k) eqn:Heq.
  - apply jsstring_eqb_eq in Heq. tauto.
  - rewrite IH by tauto. reflexivity.
Qed.

Lemma fold_setProperty (props acc : list (jsstring * value)) :
  NoDup (List.map fst acc ++ List.map fst props) ->
  fold_left (fun a kv => setProperty (fst kv) (toJSON (snd kv)) a) props acc
  = acc ++ List.map (fun kv => (fst kv, toJSON (snd kv))) props.
Proof.
  revert acc. induction props as [|[k v] props IH]; intros acc Hnd.
  - cbn. rewrite app_nil_r. reflexivity.
  - cbn [fold_left List.map fst snd] in *.
    rewrite setProperty_fresh.
    + rewrite IH.
      * rewrite <- app_assoc. reflexivity.
      * rewrite List.map_app. cbn [List.map fst]. rewrite <- app_assoc. exact Hnd.
    + apply NoDup_app in Hnd. destruct Hnd as (_ & Hnd & _).
      intros Hin. apply list_elem_of_In in Hin.
      apply (Hnd k Hin). left.
Qed.

Section CompositeRoundTrip.
Variable parseElement : jsstring -> parsed value.

Lemma parseElements_stringify (l : list value) (acc : list value) (fuel : nat)
    (rest : jsstring) :
  l <> [] ->
  Forall (fun e => forall rest', delimited rest' ->
            parseElement (JSON_stringify e ++ rest') = Parsed (toJSON e) rest') l ->
  (length l <= fuel)%nat ->
  parseElements parseElement fuel
    (joinComma (List.map JSON_stringify l) ++ 93%N :: rest) acc
  = Parsed (rev acc ++ List.map toJSON l) rest.
Proof using Type.
  revert acc fuel. induction l as [|e l IH]; intros acc fuel Hne Hall Hfuel;
    [congruence|].
  inversion Hall as [|? ? He Hl]; subst.
  destruct fuel as [|fuel]; [simpl in Hfuel; lia|]. simpl in Hfuel.
  destruct l as [|e' l].
  - cbn [List.map joinComma parseElements].
    rewrite He by (right; left; reflexivity).
    cbn. reflexivity.
  - change (joinComma (List.map JSON_stringify (e :: e' :: l)))
      with (JSON_stringify e ++ lit "," ++ joinComma (List.map JSON_stringify (e' :: l))).
    rewrite <- !app_assoc. cbn [parseElements].
    change (lit "," ++ ?x) with (44%N :: x).
    rewrite He by (left; reflexivity).
    cbn [skipSpace isJsonSpace N.eqb Pos.eqb orb].
    rewrite IH by (try discriminate; try assumption; simpl in *; lia).
    cbn [rev List.map]. rewrite <- app_assoc. reflexivity.
Qed.

Lemma parseMembers_stringify (props acc : list (jsstring * value)) (fuel : nat)
    (rest : jsstring) :
  props <> [] ->
  Forall (fun kv => unit16 (fst kv) /\
            forall rest', delimited rest' ->
              parseElement (JSON_stringify (snd kv) ++ rest')
              = Parsed (toJSON (snd kv)) rest') props ->
  (length props <= fuel)%nat ->
  parseMembers parseElement fuel
    (joinComma (List.map (fun kv => quote (fst kv) ++ lit ":"
                                    ++ JSON_stringify (snd kv)) props)
     ++ 125%N :: rest) acc
  = Parsed (fold_left (fun a kv => setProperty (fst kv) (toJSON (snd kv)) a)
                      props acc) rest.
Proof using Type.
  revert acc fuel. induction props as [|[k v] props IH];
    intros acc fuel Hne Hall Hfuel; [congruence|].
  inversion Hall as [|? ? [Hk Hv] Hl]; subst. cbn [fst snd] in *.
  destruct fuel as [|fuel]; [simpl in Hfuel; lia|]. simpl in Hfuel.
  assert (Hmember : forall tail,
    parseMembers parseElement (S fuel)
      ((quote k ++ lit ":" ++ JSON_stringify v) ++ tail) acc
    = match parseElement (JSON_stringify v ++ tail) with
      | Parsed v' r3 =>
          match skipSpace r3 with
          | c :: r4 =>
              if (c =? 44)%N then parseMembers parseElement fuel r4 (setProperty k v' acc)
              else if (c =? 125)%N then Parsed (setProperty k v' acc) r4
              else Malformed
          | [] => Malformed
          end
      | Malformed => Malformed
      | OutOfFuel => OutOfFuel
      end).
  { intros tail. rewrite <- !app_assoc.
    destruct (parseChars_quote k (lit ":" ++ JSON_stringify v ++ tail) Hk)
      as (body & -> & Hbody).
    cbn [parseMembers skipSpace isJsonSpace N.eqb Pos.eqb orb negb].
    rewrite Hbody. reflexivity. }
  destruct props as [|kv' props].
  - cbn [List.map joinComma fst snd fold_left].
    rewrite Hmember, Hv by (right; right; reflexivity).
    reflexivity.
  - change (joinComma (List.map (fun kv => quote (fst kv) ++ lit ":"
                                    ++ JSON_stringify (snd kv)) ((k, v) :: kv' :: props)))
      with ((quote k ++ lit ":" ++ JSON_stringify v) ++ lit ","
            ++ joinComma (List.map (fun kv => quote (fst kv) ++ lit ":"
                                    ++ JSON_stringify (snd kv)) (kv' :: props))).
    rewrite <- (app_assoc (quote k ++ lit ":" ++ JSON_stringify v)).
    rewrite Hmember. rewrite <- app_assoc.
    change (lit "," ++ ?x) with (44%N :: x).
    rewrite Hv by (left; reflexivity).
    cbn [skipSpace isJsonSpace N.eqb Pos.eqb orb].
    rewrite IH by (try discriminate; try assumption; simpl in *; lia).
    reflexivity.
Qed.
End CompositeRoundTrip.

Lemma parseValue_stringify (v : value) (fuel : nat) (rest : jsstring) :
  printable v -> (size v < fuel)%nat -> delimited rest ->
  parseValue fuel (JSON_stringify v ++ rest) = Parsed (toJSON v) rest.
Proof.
  remember (size v) as n eqn:Hn.
  assert (Hle : (size v <= n)%nat) by lia. clear Hn.
  revert v fuel rest Hle.
  induction n as [|n IH]; intros v fuel rest Hle Hp Hfuel Hrest.
  { pose proof (size_pos v). lia. }
  destruct fuel as [|fuel]; [lia|].
  assert (Hstring : forall s, unit16 s ->
            parseValue (S fuel) (quote s ++ rest) = Parsed (VString s) rest).
  { intros s Hs. destruct (parseChars_quote s rest Hs) as (body & -> & Hbody).
    cbn [parseValue skipSpace isJsonSpace N.eqb Pos.eqb orb].
    rewrite Hbody. reflexivity. }
  destruct v as [|[|]|i|m e|s|t|l|props]; cbn [printable] in Hp;
    try contradiction.
  1-3: vm_compute; reflexivity.
  - (* VInt *)
    cbn [JSON_stringify toJSON].
    destruct (number_head i Hp) as (c & tail & Heq & Hc).
    pose proof (parseNumber_integer i rest Hp Hrest) as Hnum.
    rewrite Heq in *. cbn [app] in *.
    rewrite parseValue_number by exact Hc. exact Hnum.
  - (* VString *)
    apply Hstring. exact Hp.
  - (* VDate *)
    apply Hstring. apply toISOString_unit16.
  - (* VArray *)
    apply printable_array in Hp. cbn [size] in Hle, Hfuel.
    destruct (size_elements l) as [Hlen Hsizes].
    destruct l as [|e l]; [reflexivity|].
    cbn [JSON_stringify toJSON].
    change (lit "[" ++ ?x) with (91%N :: x).
    rewrite <- app_comm_cons, <- app_assoc.
    change (lit "]" ++ rest) with (93%N :: rest).
    cbn [parseValue skipSpace isJsonSpace N.eqb Pos.eqb orb].
    inversion Hp as [|? ? Hpe Hpl]; subst.
    destruct (stringify_head e Hpe) as (c & tail & Hhead & Hsp & H93).
    assert (Hstart : startsWith
              (skipSpace (joinComma (List.map JSON_stringify (e :: l)) ++ 93%N :: rest))
              [93%N] = false).
    { destruct l as [|e' l]; cbn [List.map joinComma]; rewrite Hhead;
        cbn [app]; rewrite skipSpace_head by exact Hsp;
        cbn [startsWith]; rewrite N.eqb_sym, H93; reflexivity. }
    rewrite Hstart.
    rewrite (parseElements_stringify (parseValue fuel) (e :: l) [] fuel rest).
    + reflexivity.
    + discriminate.
    + rewrite Forall_forall in *. intros x Hx rest' Hrest'.
      specialize (Hsizes x Hx). cbn beta in Hsizes.
      apply IH; [lia | apply Hp, Hx | lia | exact Hrest'].
    + lia.
  - (* VObject *)
    apply printable_object in Hp. destruct Hp as [Hnd Hp].
    cbn [size] in Hle, Hfuel.
    destruct (size_properties props) as [Hlen Hsizes].
    destruct props as [|kv props]; [reflexivity|].
    cbn [JSON_stringify toJSON].
    change (lit "{" ++ ?x) with (123%N :: x).
    rewrite <- app_comm_cons, <- app_assoc.
    change (lit "}" ++ rest) with (125%N :: rest).
    cbn [parseValue skipSpace isJsonSpace N.eqb Pos.eqb orb].
    assert (Hstart : startsWith
              (skipSpace
                 (joinComma (List.map (fun kv => quote (fst kv) ++ lit ":"
                                          ++ JSON_stringify (snd kv)) (kv :: props))
                  ++ 125%N :: rest))
              [125%N] = false).
    { destruct props as [|kv' props]; reflexivity. }
    rewrite Hstart.
    rewrite (parseMembers_stringify (parseValue fuel) (kv :: props) [] fuel rest).
    + rewrite fold_setProperty by exact Hnd. reflexivity.
    + discriminate.
    + rewrite Forall_forall in *. intros x Hx.
      destruct (Hp x Hx) as [Hk Hv]. split; [exact Hk|].
      intros rest' Hrest'. specialize (Hsizes x Hx). cbn beta in Hsizes.
      apply IH; [lia | exact Hv | lia | exact Hrest'].
    + lia.
Qed.

Lemma joinComma_length {A : Type} (f : A -> jsstring) (g : A -> nat) (l : list A) :
  Forall (fun x => (g x <= length (f x))%nat) l ->
  (fold_right (fun x n => g x + n)%nat O l <= length (joinComma (List.map f l)))%nat.
Proof.
  induction l as [|x l IH]; intros Hall; [simpl; lia|].
  inversion Hall as [|? ? Hx Hl]; subst. specialize (IH Hl).
  destruct l as [|y l].
  - cbn [List.map joinComma fold_right]. lia.
  - change (joinComma (List.map f (x :: y :: l)))
      with (f x ++ lit "," ++ joinComma (List.map f (y :: l))).
    rewrite !length_app. cbn [fold_right] in *. lia.
Qed.

Lemma stringify_length (v : value) :
  printable v -> (size v <= length (JSON_stringify v))%nat.
Proof.
  remember (size v) as n eqn:Hn.
  assert (Hle : (size v <= n)%nat) by lia. rewrite Hn. clear Hn.
  revert v Hle. induction n as [|n IH]; intros v Hle Hp.
  { pose proof (size_pos v). lia. }
  destruct v as [|[|]|i|m e|s|t|l|props]; cbn [printable] in Hp;
    try contradiction.
  1-3: cbn; lia.
  - cbn [JSON_stringify size].
    destruct (number_head i Hp) as (c & tail & -> & _). simpl. lia.
  - cbn [JSON_stringify size]. unfold quote. rewrite !length_app. simpl. lia.
  - cbn [JSON_stringify size]. unfold quote. rewrite !length_app. simpl. lia.
  - apply printable_array in Hp. cbn [size] in *.
    destruct (size_elements l) as [_ Hsizes].
    cbn [JSON_stringify]. rewrite !length_app.
    pose proof (joinComma_length JSON_stringify size l) as Hj.
    cbn [lit list_ascii_of_string List.map length].
    enough (fold_right (fun x n => size x + n)%nat O l
            <= length (joinComma (List.map JSON_stringify l)))%nat by lia.
    apply Hj. rewrite Forall_forall in *. intros x Hx.
    specialize (Hsizes x Hx). cbn beta in Hsizes.
    apply IH; [lia | apply Hp, Hx].
  - apply printable_object in Hp. destruct Hp as [_ Hp]. cbn [size] in *.
    destruct (size_properties props) as [_ Hsizes].
    cbn [JSON_stringify]. rewrite !length_app.
    pose proof (joinComma_length
                  (fun kv => quote (fst kv) ++ lit ":" ++ JSON_stringify (snd kv))
                  (fun kv => size (snd kv)) props) as Hj.
    change (length (lit "{")) with 1%nat. change (length (lit "}")) with 1%nat.
    enough (fold_right (fun kv n => size (snd kv) + n)%nat O props
            <= length (joinComma
                 (List.map (fun kv => quote (fst kv) ++ lit ":"
                                      ++ JSON_stringify (snd kv)) props)))%nat by lia.
    apply Hj. rewrite Forall_forall in *. intros x Hx.
    specialize (Hsizes x Hx). cbn beta in Hsizes.
    rewrite !length_app.
    enough (size (snd x) <= length (JSON_stringify (snd x)))%nat by lia.
    apply IH; [lia | apply (Hp x Hx)].
Qed.

(** Parsing the text printed for a value gives the value back, its dates
    as ISO strings. *)
Lemma JSON_parse_stringify (v : value) :
  printable v -> JSON_parse (JSON_stringify v) = Normal (toJSON v).
Proof.
  intros Hp. unfold JSON_parse.
  pose proof (stringify_length v Hp) as Hlen.
  pose proof (parseValue_stringify v (S (length (JSON_stringify v))) [] Hp
                ltac:(lia) I) as Hparse.
  rewrite app_nil_r in Hparse. rewrite Hparse. reflexivity.
Qed.

(** *** Task collections *)

Lemma priorityName_unit16 (p : Priority) : unit16 (priorityName p).
Proof. destruct p; repeat constructor. Qed.

Lemma taskValue_printable (task : Task) : storable task -> printable (taskValue task).
Proof.
  intros (Hid & Htext & Hcat & Hdesc). unfold taskValue.
  apply printable_object. split.
  - cbn [List.map fst]. apply (bool_decide_unpack _). vm_compute. exact I.
  - repeat (apply List.Forall_cons; [cbn [fst snd]; split|]);
      try apply List.Forall_nil;
      try (solve [repeat constructor]); cbn [printable];
      try assumption; try exact I; try apply priorityName_unit16.
    destruct (dueDate task); exact I.
Qed.

Lemma tasksValue_printable (l : list Task) :
  Forall storable l -> printable (tasksValue l).
Proof.
  intros Hall. unfold tasksValue. apply printable_array.
  rewrite Forall_forall in Hall. apply Forall_forall. intros v Hv.
  apply list_elem_of_In, in_map_iff in Hv. destruct Hv as (t & <- & Ht).
  apply taskValue_printable, Hall, list_elem_of_In, Ht.
Qed.

Lemma toJSON_taskValue (task : Task) :
  toJSON (taskValue task) =
  VObject
    [(lit "id", VInt (id task));
     (lit "text", VString (text task));
     (lit "completed", VBool (completed task));
     (lit "category", VString (category task));
     (lit "priority", VString (priorityName (priority task)));
     (lit "dueDate", match dueDate task with
                     | Some t => VString (toISOString t)
                     | None => VNull
                     end);
     (lit "description", VString (description task));
     (lit "expanded", VBool (expanded task))].
Proof. unfold taskValue. cbn [toJSON List.map fst snd]. destruct (dueDate task); reflexivity. Qed.

(** For every collection of tasks, what is loaded after a save is the
    collection that was saved, in the same order, with every id and field as
    it was, except that a due date comes back as its ISO string. *)
Lemma load_after_save (l : list Task) (storage : gmap jsstring jsstring) :
  Forall storable l ->
  loadTasks (saveTasks l storage) = Normal (toJSON (tasksValue l)).
Proof.
  intros Hall. unfold loadTasks, saveTasks, getItem, setItem.
  rewrite lookup_insert_eq.
  rewrite JSON_parse_stringify by (apply tasksValue_printable, Hall).
  unfold tasksValue. cbn [JSON_stringify]. reflexivity.
Qed.

Lemma toJSON_taskValue_same_iff (task : Task) :
  toJSON (taskValue task) = taskValue task <-> dueDate task = None.
Proof.
  rewrite toJSON_taskValue. unfold taskValue.
  destruct (dueDate task); split; intros H; try reflexivity; discriminate.
Qed.

(** The round trip gives the saved collection back exactly when no task
    has a due date. *)
Lemma load_after_save_same_iff (l : list Task) (storage : gmap jsstring jsstring) :
  Forall storable l ->
  loadTasks (saveTasks l storage) = Normal (tasksValue l)
  <-> Forall (fun task => dueDate task = None) l.
Proof.
  intros Hall. rewrite load_after_save by exact Hall. clear Hall.
  unfold tasksValue. cbn [toJSON]. split.
  - intros H. injection H as H.
    induction l as [|t l IH]; [constructor|].
    cbn [List.map] in H. apply (f_equal (fun x => (hd VNull x, tl x))) in H.
    cbn [hd tl] in H. injection H as Ht Hl.
    constructor; [|apply IH, Hl].
    destruct (dueDate t); [discriminate Ht | reflexivity].
  - intros Hnone. f_equal. f_equal.
    induction Hnone as [|t l Ht _ IH]; [reflexivity|].
    cbn [List.map]. rewrite IH. f_equal.
    apply toJSON_taskValue_same_iff, Ht.
Qed.

(** ** Persistence *)

(** C2 at the failing input. A task with a due date, saved and loaded
    again, comes back with the same id and the same other fields, but its
    dueDate is the ISO string [JSON.stringify] wrote for the date, not a
    date: the loaded collection is not the saved one, nor the representation
    of any collection of tasks.  A task without a due date comes back as it
    was. *)
Theorem load_after_save_turns_due_date_into_string :
  let dated := mkTask 1 (lit "a") false (lit "Work") High (Some 0) [] false in
  let plain := mkTask 2 (lit "b") true (lit "Other") Low None (lit "c") false in
  loadTasks (saveTasks [dated] ∅)
  = Normal (VArray
      [VObject
         [(lit "id", VInt 1);
          (lit "text", VString (lit "a"));
          (lit "completed", VBool false);
          (lit "category", VString (lit "Work"));
          (lit "priority", VString (lit "High"));
          (lit "dueDate", VString (lit "1970-01-01T00:00:00.000Z"));
          (lit "description", VString []);
          (lit "expanded", VBool false)]])
  /\ loadTasks (saveTasks [dated] ∅) <> Normal (tasksValue [dated])
  /\ (forall l, loadTasks (saveTasks [dated] ∅) <> Normal (tasksValue l))
  /\ loadTasks (saveTasks [plain] ∅) = Normal (tasksValue [plain]).
Proof.
  cbv zeta.
  assert (Hload : loadTasks (saveTasks
                    [mkTask 1 (lit "a") false (lit "Work") High (Some 0) [] false] ∅)
                  = Normal (VArray
      [VObject
         [(lit "id", VInt 1);
          (lit "text", VString (lit "a"));
          (lit "completed", VBool false);
          (lit "category", VString (lit "Work"));
          (lit "priority", VString (lit "High"));
          (lit "dueDate", VString (lit "1970-01-01T00:00:00.000Z"));
          (lit "description", VString []);
          (lit "expanded", VBool false)]])) by (vm_compute; reflexivity).
  split; [exact Hload|].
  assert (Hnone : forall l,
            loadTasks (saveTasks
              [mkTask 1 (lit "a") false (lit "Work") High (Some 0) [] false] ∅)
            <> Normal (tasksValue l)).
  { intros l. rewrite Hload. unfold tasksValue. intros H.
    injection H as H. destruct l as [|t l]; [discriminate|].
    cbn [List.map] in H. unfold taskValue in H. revert H.
    destruct (dueDate t); discriminate. }
  split; [apply Hnone|]. split; [exact Hnone|].
  vm_compute. reflexivity.
Qed.

(** C4, as stated, fails: a stored text that is not JSON makes the
    initialiser throw, for the tasks and for the theme; and a stored text
    that is JSON but no task collection is taken as it is. *)
Lemma load_malformed_throws :
  ~ (forall storage text error,
       getItem STORAGE_KEY storage = Some text ->
       JSON_parse text = Throw error ->
       loadTasks storage = Normal (VArray []))
  /\ ~ (forall storage text error,
          getItem THEME_KEY storage = Some text ->
          JSON_parse text = Throw error ->
          loadTheme storage = Normal (VBool false))
  /\ loadTasks {[ STORAGE_KEY := lit "{" ]} = Throw (lit "SyntaxError")
  /\ loadTheme {[ THEME_KEY := lit "dark" ]} = Throw (lit "SyntaxError")
  /\ loadTasks {[ STORAGE_KEY := lit "5" ]} = Normal (VInt 5).
Proof.
  split; [|split; [|repeat split]].
  - intros H.
    specialize (H {[ STORAGE_KEY := lit "{" ]} (lit "{") (lit "SyntaxError")
                  eq_refl eq_refl).
    vm_compute in H. discriminate.
  - intros H.
    specialize (H {[ THEME_KEY := lit "dark" ]} (lit "dark") (lit "SyntaxError")
                  eq_refl eq_refl).
    vm_compute in H. discriminate.
Qed.

(** C4, as the code has it. The load falls back to the empty collection
    (the theme to light) when the slot is absent or holds the empty string;
    any other stored text goes to [JSON.parse], whose value is taken as it is
    and whose SyntaxError, for a malformed text, leaves the initialiser
    uncaught. *)
Theorem load_falls_back_only_when_absent_or_empty
    (storage : gmap jsstring jsstring) :
  (getItem STORAGE_KEY storage = None \/ getItem STORAGE_KEY storage = Some [] ->
   loadTasks storage = Normal (VArray []))
  /\ (getItem THEME_KEY storage = None \/ getItem THEME_KEY storage = Some [] ->
      loadTheme storage = Normal (VBool false))
  /\ (forall text, getItem STORAGE_KEY storage = Some text -> text <> [] ->
        loadTasks storage = JSON_parse text
        /\ forall error, JSON_parse text = Throw error ->
                         loadTasks storage = Throw error)
  /\ (forall text, getItem THEME_KEY storage = Some text -> text <> [] ->
        loadTheme storage = JSON_parse text
        /\ forall error, JSON_parse text = Throw error ->
                         loadTheme storage = Throw error).
Proof.
  unfold loadTasks, loadTheme.
  split; [intros [-> | ->]; reflexivity|].
  split; [intros [-> | ->]; reflexivity|].
  split; intros text -> Hne; (destruct text as [|c text]; [congruence|]);
    cbn [truthy]; (split; [reflexivity | intros error H; exact H]).
Qed.

Lemma load_falls_back_only_when_absent_or_empty_witness :
  let storage : gmap jsstring jsstring := {[ STORAGE_KEY := lit "{" ]} in
  getItem STORAGE_KEY storage = Some (lit "{")
  /\ lit "{" <> []
  /\ JSON_parse (lit "{") = Throw (lit "SyntaxError")
  /\ loadTasks storage = Throw (lit "SyntaxError")
  /\ loadTheme storage = Normal (VBool false).
Proof.
  intros storage.
  assert (Hget : getItem STORAGE_KEY storage = Some (lit "{")) by reflexivity.
  assert (Hne : lit "{" <> []) by discriminate.
  assert (Hparse : JSON_parse (lit "{") = Throw (lit "SyntaxError")) by reflexivity.
  destruct (load_falls_back_only_when_absent_or_empty storage)
    as (_ & Htheme & Htasks & _).
  split; [exact Hget|]. split; [exact Hne|]. split; [exact Hparse|]. split.
  - exact (proj2 (Htasks (lit "{") Hget Hne) (lit "SyntaxError") Hparse).
  - apply Htheme. left. reflexivity.
Defined.

(** * Further properties of the component *)

(** ** Deleting and toggling *)

Lemma filter_sublist (f : Task -> bool) (l : list Task) :
  sublist (List.filter f l) l.
Proof.
  induction l as [|t l IH]; cbn [List.filter]; [constructor|].
  destruct (f t); [apply sublist_skip | apply sublist_cons]; exact IH.
Qed.

Lemma filter_length_split (f : Task -> bool) (l : list Task) :
  length l = (length (List.filter (fun t => negb (f t)) l)
              + length (List.filter f l))%nat.
Proof.
  induction l as [|t l IH]; [reflexivity|].
  cbn [List.filter length]. destruct (f t); cbn [negb length]; lia.
Qed.

(** X1. After [handleDeleteTask taskId] the collection holds exactly the
    tasks whose id differs from [taskId], in their former order: no task
    with that id is left (a lookup by the id finds nothing), every task with
    that id is gone, however many there were, and the count drops by their
    number. *)
Theorem delete_removes_every_task_with_id (taskId : Z) (s : State) :
  let after := tasks (handleDeleteTask taskId s) in
  (forall t, In t after <-> In t (tasks s) /\ id t <> taskId)
  /\ sublist after (tasks s)
  /\ List.find (fun t => id t =? taskId) after = None
  /\ length (tasks s)
     = (length after + countIf (fun t => (id t =? taskId)%Z) (tasks s))%nat.
Proof.
  cbv zeta. cbn [handleDeleteTask showSuccessMessage setShowNotification
                 setNotificationMessage setTasks tasks].
  split; [|split; [|split]].
  - intros t. rewrite filter_In, negb_true_iff, Z.eqb_neq. reflexivity.
  - apply filter_sublist.
  - destruct (List.find _ _) as [t|] eqn:Hfind; [|reflexivity].
    apply find_some in Hfind. destruct Hfind as [Hin Heq].
    apply filter_In in Hin. destruct Hin as [_ Hne].
    rewrite Heq in Hne. discriminate.
  - unfold countIf. apply filter_length_split.
Qed.

Lemma map_unchanged (g : Task -> Task) (taskId : Z) (l : list Task) :
  ~ In taskId (idsOf l) ->
  List.map (fun task => if id task =? taskId then g task else task) l = l.
Proof.
  unfold idsOf. induction l as [|t l IH]; intros Hnot; [reflexivity|].
  cbn [List.map In] in *. rewrite IH by tauto.
  destruct (Z.eqb_spec (id t) taskId) as [Heq|_]; [tauto | reflexivity].
Qed.

Lemma filter_unchanged (taskId : Z) (l : list Task) :
  ~ In taskId (idsOf l) ->
  List.filter (fun task => negb (id task =? taskId)) l = l.
Proof.
  unfold idsOf. induction l as [|t l IH]; intros Hnot; [reflexivity|].
  cbn [List.map List.filter In] in *. rewrite IH by tauto.
  destruct (Z.eqb_spec (id t) taskId) as [Heq|_]; [tauto | reflexivity].
Qed.

(** X2. Deleting or toggling an id that no task has leaves the collection
    as it is; the expand toggle then leaves the whole state as it is, while
    delete and the completion toggle still raise their success message. *)
Theorem absent_id_leaves_collection (taskId : Z) (s : State) :
  ~ In taskId (idsOf (tasks s)) ->
  tasks (handleDeleteTask taskId s) = tasks s
  /\ tasks (handleToggleComplete taskId s) = tasks s
  /\ handleToggleExpand taskId s = s
  /\ showNotification (handleDeleteTask taskId s) = true
  /\ notificationMessage (handleDeleteTask taskId s)
     = lit "Task deleted successfully!"
  /\ showNotification (handleToggleComplete taskId s) = true
  /\ notificationMessage (handleToggleComplete taskId s)
     = lit "Task status updated!".
Proof.
  intros Habsent.
  split; [apply filter_unchanged, Habsent|].
  split; [apply (map_unchanged toggleCompletedOf), Habsent|].
  split; [|repeat split].
  unfold handleToggleExpand. rewrite (map_unchanged toggleExpandedOf) by exact Habsent.
  destruct s; reflexivity.
Qed.

Lemma absent_id_leaves_collection_witness :
  let s := initialState [mkTask 1 (lit "a") false (lit "Work") Low None [] false] in
  ~ In 7 (idsOf (tasks s))
  /\ tasks (handleDeleteTask 7 s) = tasks s
  /\ showNotification (handleDeleteTask 7 s) = true.
Proof.
  intros s.
  assert (H : ~ In 7 (idsOf (tasks s))).
  { cbn. intros [H|[]]. discriminate. }
  destruct (absent_id_leaves_collection 7 s H) as (Hd & _ & _ & Hn & _).
  split; [exact H|]. split; [exact Hd | exact Hn].
Defined.

(** X3. When the ids of the collection are pairwise distinct, deleting an
    id that is present removes exactly one task and keeps the ids distinct. *)
Theorem delete_present_unique_id (taskId : Z) (s : State) :
  NoDup (idsOf (tasks s)) ->
  In taskId (idsOf (tasks s)) ->
  S (length (tasks (handleDeleteTask taskId s))) = length (tasks s)
  /\ NoDup (idsOf (tasks (handleDeleteTask taskId s))).
Proof.
  cbn [handleDeleteTask showSuccessMessage setShowNotification
       setNotificationMessage setTasks tasks].
  unfold idsOf. induction (tasks s) as [|t l IH]; intros Hnd Hin; [destruct Hin|].
  cbn [List.map] in Hnd. apply NoDup_cons in Hnd. destruct Hnd as [Hfresh Hnd].
  cbn [List.filter List.map In] in *.
  destruct (Z.eqb_spec (id t) taskId) as [Heq|Hne]; cbn [negb].
  - subst taskId. rewrite list_elem_of_In in Hfresh.
    rewrite (filter_unchanged (id t) l Hfresh). split; [reflexivity | exact Hnd].
  - destruct Hin as [Heq|Hin]; [contradiction|].
    destruct (IH Hnd Hin) as [Hlen Hnd']. cbn [length List.map].
    split; [lia|]. apply NoDup_cons. split; [|exact Hnd'].
    rewrite list_elem_of_In in *. intros Hx. apply Hfresh.
    apply in_map_iff in Hx. destruct Hx as (u & Hu & Huin).
    apply in_map_iff. exists u. split; [exact Hu|].
    apply filter_In in Huin. tauto.
Qed.

Lemma delete_present_unique_id_witness :
  let s := initialState [mkTask 1 (lit "a") false (lit "Work") Low None [] false;
                         mkTask 2 (lit "b") true (lit "Work") Low None [] false] in
  NoDup (idsOf (tasks s)) /\ In 2 (idsOf (tasks s))
  /\ S (length (tasks (handleDeleteTask 2 s))) = length (tasks s).
Proof.
  intros s.
  assert (Hnd : NoDup (idsOf (tasks s))).
  { apply (bool_decide_unpack _). vm_compute. exact I. }
  assert (Hin : In 2 (idsOf (tasks s))) by (cbn; tauto).
  split; [exact Hnd|]. split; [exact Hin|].
  exact (proj1 (delete_present_unique_id 2 s Hnd Hin)).
Defined.

(** X4. The completion toggle keeps the number and order of the tasks and
    every field but [completed]; it flips [completed] on the tasks whose id
    is [taskId] and on no other; toggling the same id twice gives the
    collection back. *)
Theorem toggle_complete_flips_only_matching (taskId : Z) (s : State) :
  let after := tasks (handleToggleComplete taskId s) in
  Forall2 (fun before t =>
             t = withCompleted (xorb (completed before) (id before =? taskId))
                   before)
          (tasks s) after
  /\ length after = length (tasks s)
  /\ idsOf after = idsOf (tasks s)
  /\ tasks (handleToggleComplete taskId (handleToggleComplete taskId s)) = tasks s.
Proof.
  cbv zeta. cbn [handleToggleComplete showSuccessMessage setShowNotification
                 setNotificationMessage setTasks tasks].
  split; [|split; [|split]].
  - induction (tasks s) as [|t l IH]; [constructor|].
    cbn [List.map]. constructor; [|exact IH].
    destruct (id t =? taskId), t as [i x c g p d ds e]; destruct c; reflexivity.
  - apply length_map.
  - apply (map_id_toggle toggleCompletedOf). reflexivity.
  - rewrite List.map_map. rewrite <- (List.map_id (tasks s)) at 2.
    apply List.map_ext. intros t.
    destruct (Z.eqb_spec (id t) taskId) as [Heq|Hne].
    + cbn [toggleCompletedOf id]. rewrite (proj2 (Z.eqb_eq _ _) Heq).
      destruct t as [i x c g p d ds e]; destruct c; reflexivity.
    + rewrite (proj2 (Z.eqb_neq _ _) Hne). reflexivity.
Qed.

(** X5. The expand toggle raises no notification and changes nothing but
    the [expanded] flag of the tasks with the given id; applied twice it
    gives the whole state back. *)
Theorem toggle_expand_is_silent_involution (taskId : Z) (s : State) :
  handleToggleExpand taskId (handleToggleExpand taskId s) = s
  /\ showNotification (handleToggleExpand taskId s) = showNotification s
  /\ notificationMessage (handleToggleExpand taskId s) = notificationMessage s
  /\ Forall2 (fun before t =>
                t = mkTask (id before) (text before) (completed before)
                      (category before) (priority before) (dueDate before)
                      (description before)
                      (xorb (expanded before) (id before =? taskId)))
             (tasks s) (tasks (handleToggleExpand taskId s)).
Proof.
  split; [|split; [reflexivity|split; [reflexivity|]]].
  - unfold handleToggleExpand. cbn [setTasks tasks].
    rewrite List.map_map.
    assert (Hmap : List.map
              (fun x => if id (if id x =? taskId then toggleExpandedOf x else x)
                           =? taskId
                        then toggleExpandedOf
                               (if id x =? taskId then toggleExpandedOf x else x)
                        else if id x =? taskId then toggleExpandedOf x else x)
              (tasks s) = tasks s).
    { rewrite <- (List.map_id (tasks s)) at 2. apply List.map_ext. intros t.
      destruct (Z.eqb_spec (id t) taskId) as [Heq|Hne].
      - cbn [toggleExpandedOf id]. rewrite (proj2 (Z.eqb_eq _ _) Heq).
        destruct t as [i x c g p d ds e]; destruct e; reflexivity.
      - rewrite (proj2 (Z.eqb_neq _ _) Hne). reflexivity. }
    rewrite Hmap. destruct s; reflexivity.
  - cbn [handleToggleExpand setTasks tasks].
    induction (tasks s) as [|t l IH]; [constructor|].
    cbn [List.map]. constructor; [|exact IH].
    destruct (id t =? taskId), t as [i x c g p d ds e]; destruct e; reflexivity.
Qed.

(** X6. A second add right after an add does nothing: a successful add
    empties the title, an unsuccessful one leaves it blank, so pressing Add
    (or Enter) twice never duplicates a task. *)
Theorem add_twice_adds_once (now later : Z) (s : State) :
  handleAddTask later (handleAddTask now s) = handleAddTask now s
  /\ handleKeyPress (lit "Enter") later (handleAddTask now s) = handleAddTask now s.
Proof.
  assert (H : handleAddTask later (handleAddTask now s) = handleAddTask now s).
  { unfold handleAddTask at 2 3.
    destruct (truthy (trim (currentTask s))) eqn:Ht.
    - reflexivity.
    - unfold handleAddTask. rewrite Ht. reflexivity. }
  split; [exact H|]. unfold handleKeyPress.
  destruct (jsstring_eqb _ _); [exact H | reflexivity].
Qed.

(** ** Invariants of the collection *)

Lemma increasing_NoDup (l : list Z) : increasing l -> NoDup l.
Proof.
  unfold increasing. induction 1 as [|x l Hs IH Hall]; [constructor|].
  apply NoDup_cons. split; [|exact IH].
  intros Hin. rewrite Forall_forall in Hall. specialize (Hall x Hin). lia.
Qed.

(** X7. Along a run from the empty store in which the clock has advanced
    between the adds that create a task, the ids of the collection are
    strictly increasing in collection order, hence pairwise distinct,
    whatever was deleted or toggled in between. *)
Theorem ids_distinct_with_advancing_clock (evs : list Event) :
  increasing (addStamps evs (initialState [])) ->
  increasing (idsOf (tasks (run evs (initialState []))))
  /\ NoDup (idsOf (tasks (run evs (initialState [])))).
Proof.
  intros Hclock.
  assert (H : increasing (idsOf (tasks (run evs (initialState []))))).
  { apply ids_increase_with_clock. exact Hclock. }
  split; [exact H | apply increasing_NoDup, H].
Qed.

Lemma ids_distinct_with_advancing_clock_witness :
  let evs := [TitleChange (lit "a"); AddClick 5; TitleChange (lit "b");
              KeyPress (lit "Enter") 6; DeleteClick 5; TitleChange (lit "c");
              AddClick 9] in
  increasing (addStamps evs (initialState []))
  /\ NoDup (idsOf (tasks (run evs (initialState [])))).
Proof.
  intros evs.
  assert (H : increasing (addStamps evs (initialState []))).
  { vm_compute. repeat (constructor; [|repeat (constructor; [reflexivity|]); constructor]).
    constructor. }
  split; [exact H|].
  exact (proj2 (ids_distinct_with_advancing_clock evs H)).
Defined.

Lemma trimStart_fixed (s : jsstring) :
  match s with [] => True | c :: _ => isWhiteSpace c = false end ->
  trimStart s = s.
Proof. destruct s as [|c s]; [reflexivity|]. cbn. intros ->. reflexivity. Qed.

Lemma trimStart_split (s : jsstring) :
  exists w, s = w ++ trimStart s.
Proof.
  induction s as [|a s [w Hs]]; cbn [trimStart].
  - exists []. reflexivity.
  - destruct (isWhiteSpace a).
    + exists (a :: w). cbn [app]. congruence.
    + exists []. reflexivity.
Qed.

Lemma trimStart_starts (s : jsstring) :
  match trimStart s with [] => True | c :: _ => isWhiteSpace c = false end.
Proof.
  destruct (trimStart s) as [|c r] eqn:H; [exact I|].
  exact (trimStart_head s c r H).
Qed.

(** [trim] leaves nothing for a second [trim] to strip. *)
Lemma trim_trimmed (s : jsstring) : trimmed (trim s).
Proof.
  unfold trimmed, trim, trimEnd.
  set (u := trimStart s).
  set (v := trimStart (rev u)).
  assert (Hv : trimStart v = v) by (apply trimStart_fixed, trimStart_starts).
  assert (Hrv : trimStart (rev v) = rev v).
  { apply trimStart_fixed.
    destruct (trimStart_split (rev u)) as [w Hw]. fold v in Hw.
    apply (f_equal (@rev N)) in Hw. rewrite rev_involutive, rev_app_distr in Hw.
    pose proof (trimStart_starts s) as Hu. fold u in Hu.
    destruct (rev v) as [|c r]; [exact I|].
    rewrite Hw in Hu. exact Hu. }
  rewrite Hrv, rev_involutive, Hv. reflexivity.
Qed.

Lemma handle_keeps_texts (e : Event) (s : State) :
  Forall (fun t => text t <> [] /\ trimmed (text t)) (tasks s) ->
  Forall (fun t => text t <> [] /\ trimmed (text t)) (tasks (handle e s)).
Proof.
  intros Hall.
  assert (Hadd : forall now,
            Forall (fun t => text t <> [] /\ trimmed (text t))
                   (tasks (handleAddTask now s))).
  { intros now. destruct (truthy (trim (currentTask s))) eqn:Ht;
      [|unfold handleAddTask; rewrite Ht; exact Hall].
    apply truthy_trim_true in Ht. rewrite (handleAddTask_tasks now s Ht).
    apply Forall_app. split; [exact Hall|].
    constructor; [|constructor]. cbn [text].
    split; [exact Ht | apply trim_trimmed]. }
  destruct e as [item|choice|v|v|p|d|v|key|now|pressed now|taskId|taskId|taskId| |];
    cbn [handle]; try exact Hall; try apply Hadd.
  - unfold drawerClick. destruct item; try exact Hall.
    destruct (categories !! i); exact Hall.
  - unfold categorySelect. destruct choice as [i|]; [|exact Hall].
    destruct (categories !! i); exact Hall.
  - destruct key; exact Hall.
  - unfold handleKeyPress. destruct (jsstring_eqb _ _); [apply Hadd | exact Hall].
  - cbn [handleDeleteTask showSuccessMessage setShowNotification
         setNotificationMessage setTasks tasks].
    rewrite Forall_forall in *. intros t Ht. apply Hall.
    rewrite list_elem_of_In in *. apply filter_In in Ht. tauto.
  - cbn [handleToggleComplete showSuccessMessage setShowNotification
         setNotificationMessage setTasks tasks].
    rewrite Forall_forall in *. intros t Ht.
    rewrite list_elem_of_In in Ht. apply in_map_iff in Ht.
    destruct Ht as (u & <- & Hu). apply list_elem_of_In, Hall in Hu.
    destruct (id u =? taskId); exact Hu.
  - cbn [handleToggleExpand setTasks tasks].
    rewrite Forall_forall in *. intros t Ht.
    rewrite list_elem_of_In in Ht. apply in_map_iff in Ht.
    destruct Ht as (u & <- & Hu). apply list_elem_of_In, Hall in Hu.
    destruct (id u =? taskId); exact Hu.
Qed.

(** X8. In every state reachable from the empty store the title of every
    task is non-empty and carries no leading or trailing white space: add
    stores the trimmed title and no handler rewrites it. *)
Theorem reachable_titles_trimmed (evs : list Event) :
  Forall (fun t => text t <> [] /\ trimmed (text t))
         (tasks (run evs (initialState []))).
Proof.
  assert (H : forall s,
            Forall (fun t => text t <> [] /\ trimmed (text t)) (tasks s) ->
            Forall (fun t => text t <> [] /\ trimmed (text t)) (tasks (run evs s))).
  { unfold run. induction evs as [|e evs IH]; intros s Hs; [exact Hs|].
    cbn [fold_left]. apply IH, handle_keeps_texts, Hs. }
  apply H. constructor.
Qed.

(** ** Counts and badges *)

Lemma countIf_le (p : Task -> bool) (l : list Task) : (countIf p l <= length l)%nat.
Proof.
  unfold countIf. induction l as [|t l IH]; [reflexivity|].
  cbn [List.filter length]. destruct (p t); cbn [length]; lia.
Qed.

Lemma countIf_disjoint (p q : Task -> bool) (l : list Task) :
  (forall t, p t = true -> q t = false) ->
  (countIf p l + countIf q l <= length l)%nat.
Proof.
  intros Hpq. unfold countIf. induction l as [|t l IH]; [reflexivity|].
  cbn [List.filter length]. specialize (Hpq t).
  destruct (p t); [rewrite Hpq by reflexivity|destruct (q t)]; cbn [length]; lia.
Qed.

(** X9. The counts are bounded by the total: a task is counted as
    completed or as high-priority-and-incomplete, never as both, so
    completed + highPriority <= total; and overdue <= total. *)
Theorem counts_within_total (offset now : Z) (s : State) :
  (Counts.completed (getTaskCounts offset now s)
   + Counts.highPriority (getTaskCounts offset now s)
   <= Counts.total (getTaskCounts offset now s))%nat
  /\ (Counts.overdue (getTaskCounts offset now s)
      <= Counts.total (getTaskCounts offset now s))%nat.
Proof.
  cbn [getTaskCounts Counts.completed Counts.highPriority Counts.total
       Counts.overdue].
  split.
  - apply (countIf_disjoint (fun task => completed task)
             (fun task => bool_decide (priority task = High)
                          && negb (completed task))).
    intros t ->. apply andb_false_r.
  - apply (countIf_le (fun task => present (dueDate task)
                                   && isTaskOverdue offset now (dueDate task))).
Qed.

(** X10. A successful add raises the total by one and leaves the
    completed count as it is; the high-priority count rises by one exactly
    when the draft priority is High, the overdue count exactly when the
    draft due date is before today. *)
Theorem counts_after_add (offset clock now : Z) (s : State) :
  trim (currentTask s) <> [] ->
  let before := getTaskCounts offset clock s in
  let after := getTaskCounts offset clock (handleAddTask now s) in
  Counts.total after = S (Counts.total before)
  /\ Counts.completed after = Counts.completed before
  /\ Counts.highPriority after
     = (Counts.highPriority before
        + if bool_decide (selectedPriority s = High) then 1 else 0)%nat
  /\ Counts.overdue after
     = (Counts.overdue before
        + if isTaskOverdue offset clock (selectedDueDate s) then 1 else 0)%nat.
Proof.
  intros Htitle. cbv zeta.
  cbn [getTaskCounts Counts.completed Counts.highPriority Counts.total
       Counts.overdue].
  rewrite (handleAddTask_tasks now s Htitle).
  rewrite !List.filter_app, !length_app. cbn [List.filter].
  cbn [completed priority dueDate negb andb length].
  rewrite andb_true_r.
  repeat split; try lia.
  - destruct (bool_decide (selectedPriority s = High)); reflexivity.
  - destruct (selectedDueDate s) as [d|]; cbn [present isTaskOverdue andb];
      [destruct (isBefore d (startOfToday offset clock))|]; reflexivity.
Qed.

Lemma counts_after_add_witness :
  let s := handle (PriorityChange High)
             (handle (CategorySelect (Some 2%nat))
                (handle (TitleChange (lit "Buy milk")) (initialState []))) in
  trim (currentTask s) <> []
  /\ getTaskCounts 0 0 (handleAddTask 1 s)
     = {| Counts.total := 1; Counts.completed := 0; Counts.overdue := 0;
          Counts.highPriority := 1 |}.
Proof.
  intros s.
  assert (H : trim (currentTask s) <> []) by (vm_compute; discriminate).
  split; [exact H|].
  destruct (counts_after_add 0 0 1 s H) as (Ht & Hc & Hh & Ho).
  destruct (getTaskCounts 0 0 (handleAddTask 1 s)) as [t c o h].
  cbn [Counts.total Counts.completed Counts.overdue Counts.highPriority] in *.
  rewrite Ht, Hc, Hh, Ho. reflexivity.
Defined.

Lemma category_hits (name : jsstring) :
  ((if jsstring_eqb name (lit "Personal") then 1 else 0)
   + ((if jsstring_eqb name (lit "Work") then 1 else 0)
      + ((if jsstring_eqb name (lit "Shopping") then 1 else 0)
         + ((if jsstring_eqb name (lit "Health") then 1 else 0)
            + ((if jsstring_eqb name (lit "Other") then 1 else 0) + 0)))))%nat
  = if bool_decide (In name categories) then 1%nat else 0%nat.
Proof.
  destruct (bool_decide (In name categories)) eqn:Hin.
  - apply bool_decide_eq_true in Hin. unfold categories in Hin. cbn [In] in Hin.
    destruct Hin as [<-|[<-|[<-|[<-|[<-|[]]]]]]; reflexivity.
  - apply bool_decide_eq_false in Hin. unfold categories in Hin. cbn [In] in Hin.
    repeat match goal with
           | |- context [jsstring_eqb name ?c] =>
               let E := fresh "E" in
               destruct (jsstring_eqb name c) eqn:E;
               [apply jsstring_eqb_eq in E; exfalso; apply Hin; subst name; tauto|]
           end.
    reflexivity.
Qed.

Lemma badges_count_real (l : list Task) :
  fold_right (fun name n => (categoryBadge name (initialState l) + n)%nat)
             O categories
  = countIf (fun t => bool_decide (In (category t) categories)) l.
Proof.
  unfold categoryBadge, countIf. cbn [initialState tasks].
  induction l as [|t l IH]; [reflexivity|].
  pose proof (category_hits (category t)) as Hh.
  cbn [List.filter]. unfold categories in *. cbn [fold_right] in *.
  revert Hh IH.
  repeat match goal with
         | |- context [jsstring_eqb (category t) ?c] =>
             destruct (jsstring_eqb (category t) c)
         end;
    destruct (bool_decide _); cbn [length]; intros; lia.
Qed.

Lemma countIf_all (p : Task -> bool) (l : list Task) :
  countIf p l = length l <-> Forall (fun t => p t = true) l.
Proof.
  unfold countIf. induction l as [|t l IH]; cbn [List.filter length].
  - split; [constructor | reflexivity].
  - pose proof (countIf_le p l) as Hle. unfold countIf in Hle.
    destruct (p t) eqn:Hp; cbn [length].
    + split.
      * intros H. constructor; [exact Hp | apply IH; lia].
      * intros H. inversion H; subst. f_equal. apply IH. assumption.
    + split; [lia|]. intros H. inversion H; subst. congruence.
Qed.

(** X11. The category badges of the drawer add up to the number of tasks
    whose category is one of the five: never more than the total, and the
    total exactly when every task has a real category.  A task that carries
    a pseudo-category is counted by no badge. *)
Theorem category_badges_count_real_categories (s : State) :
  let badges :=
    fold_right (fun name n => (categoryBadge name s + n)%nat) O categories in
  badges = countIf (fun t => bool_decide (In (category t) categories)) (tasks s)
  /\ (badges <= length (tasks s))%nat
  /\ (badges = length (tasks s) <-> Forall realCategory (tasks s)).
Proof.
  cbv zeta.
  assert (H : fold_right (fun name n => (categoryBadge name s + n)%nat) O categories
              = countIf (fun t => bool_decide (In (category t) categories)) (tasks s)).
  { exact (badges_count_real (tasks s)). }
  rewrite H. split; [reflexivity|]. split; [apply countIf_le|].
  rewrite countIf_all. unfold realCategory.
  split; intros Hall; (eapply Forall_impl; [exact Hall|]); intros t Ht;
    cbn beta in *.
  - apply bool_decide_eq_true in Ht. exact Ht.
  - apply bool_decide_eq_true. exact Ht.
Qed.

(** ** The derived view *)

Lemma Array_sort_nil {A : Type} (order : ArgOrder) (comparefn : A -> A -> Z) :
  Array_sort order comparefn [] = [].
Proof. reflexivity. Qed.

(** X12. Whatever the sort key and the engine's argument order, the view
    is a rearrangement of the tasks the filter accepts: a task is shown
    exactly when it is stored, its lower-cased title contains the
    lower-cased query and the selection is "All" or equals its category;
    nothing is shown twice or invented, and at most all tasks are shown. *)
Theorem view_shows_the_matching_tasks (order : ArgOrder) (s : State) :
  Permutation (filteredAndSortedTasks order s)
    (List.filter (matchesFilter (searchQuery s) (selectedCategory s)) (tasks s))
  /\ (forall t,
        In t (filteredAndSortedTasks order s) <->
        In t (tasks s)
        /\ (exists pre post,
              toLowerCase (text t) = pre ++ toLowerCase (searchQuery s) ++ post)
        /\ (selectedCategory s = lit "All" \/ category t = selectedCategory s))
  /\ (length (filteredAndSortedTasks order s) <= length (tasks s))%nat.
Proof.
  assert (Hperm : Permutation (filteredAndSortedTasks order s)
            (List.filter (matchesFilter (searchQuery s) (selectedCategory s))
                         (tasks s))).
  { apply Array_sort_perm. }
  split; [exact Hperm|]. split.
  - intros t. rewrite <- matchesFilter_iff, <- filter_In. split; intros H.
    + eapply Permutation_in; [exact Hperm | exact H].
    + eapply Permutation_in; [symmetry; exact Hperm | exact H].
  - rewrite (Permutation_length Hperm).
    apply (countIf_le (matchesFilter (searchQuery s) (selectedCategory s))).
Qed.

(** On Basic Latin strings the case mapping works unit by unit. *)
Lemma toLowerCase_app (a b : jsstring) :
  basicLatin (a ++ b) ->
  toLowerCase (a ++ b) = toLowerCase a ++ toLowerCase b.
Proof. intros _. apply List.map_app. Qed.

(** X13. For a search text of Basic Latin characters, typing more into the
    search box never brings a task into the view: every task shown for the
    text is shown for each part of it. The case mapping of such a text
    works character by character, so the lowered part is a part of the
    lowered text; the title of the task is any string. *)
Theorem longer_query_shows_fewer (order : ArgOrder) (s : State)
    (before query after : jsstring) (t : Task) :
  basicLatin (before ++ query ++ after) ->
  In t (filteredAndSortedTasks order
          (setSearchQuery (before ++ query ++ after) s)) ->
  In t (filteredAndSortedTasks order (setSearchQuery query s)).
Proof.
  intros Hq H.
  assert (Hview : forall st u,
            In u (filteredAndSortedTasks order st) <->
            In u (tasks st)
            /\ matchesFilter (searchQuery st) (selectedCategory st) u = true).
  { intros st u. rewrite <- filter_In. split; intros Hin.
    - eapply Permutation_in; [apply Array_sort_perm | exact Hin].
    - eapply Permutation_in; [symmetry; apply Array_sort_perm | exact Hin]. }
  apply Hview in H. apply Hview.
  cbn [setSearchQuery tasks searchQuery selectedCategory] in *.
  destruct H as [Hin Hm]. split; [exact Hin|].
  apply matchesFilter_iff in Hm. apply matchesFilter_iff.
  destruct Hm as [(pre & post & Heq) Hsel]. split; [|exact Hsel].
  rewrite (toLowerCase_app before (query ++ after) Hq) in Heq.
  apply Forall_app in Hq. destruct Hq as [_ Hq].
  rewrite (toLowerCase_app query after Hq) in Heq.
  exists (pre ++ toLowerCase before), (toLowerCase after ++ post).
  rewrite Heq, <- !app_assoc. reflexivity.
Qed.

Lemma longer_query_shows_fewer_witness :
  let t := mkTask 1 (lit "Buy Milk") false (lit "Work") Low None [] false in
  let s := initialState [t] in
  basicLatin (lit "y " ++ lit "MI" ++ lit "lk")
  /\ In t (filteredAndSortedTasks LaterFirst
            (setSearchQuery (lit "y " ++ lit "MI" ++ lit "lk") s))
  /\ In t (filteredAndSortedTasks LaterFirst (setSearchQuery (lit "MI") s)).
Proof.
  intros t s.
  assert (Hq : basicLatin (lit "y " ++ lit "MI" ++ lit "lk")).
  { unfold basicLatin. vm_compute. repeat constructor. }
  assert (H : In t (filteredAndSortedTasks LaterFirst
                      (setSearchQuery (lit "y " ++ lit "MI" ++ lit "lk") s))).
  { vm_compute. left. reflexivity. }
  split; [exact Hq|]. split; [exact H|].
  exact (longer_query_shows_fewer LaterFirst s (lit "y ") (lit "MI") (lit "lk")
           t Hq H).
Defined.

(** X14. The list shows a message exactly when the view is empty: "No
    tasks yet. Add one above!" exactly when the store itself is empty, and
    "No tasks match your filters" exactly when tasks are stored and the
    filter accepts none of them. *)
Theorem empty_list_message (order : ArgOrder) (s : State) :
  (emptyListMessage order s = None <-> filteredAndSortedTasks order s <> [])
  /\ (emptyListMessage order s = Some (lit "No tasks yet. Add one above!")
      <-> tasks s = [])
  /\ (emptyListMessage order s = Some (lit "No tasks match your filters")
      <-> tasks s <> []
          /\ forall t, In t (tasks s) ->
               matchesFilter (searchQuery s) (selectedCategory s) t = false).
Proof.
  assert (Hview : filteredAndSortedTasks order s = [] <->
                  forall t, In t (tasks s) ->
                    matchesFilter (searchQuery s) (selectedCategory s) t = false).
  { split.
    - intros Hnil t Hin.
      destruct (matchesFilter (searchQuery s) (selectedCategory s) t) eqn:Hm;
        [|reflexivity].
      assert (Hshown : In t (filteredAndSortedTasks order s)).
      { eapply Permutation_in; [symmetry; apply Array_sort_perm|].
        apply filter_In. split; assumption. }
      rewrite Hnil in Hshown. destruct Hshown.
    - intros Hnone.
      destruct (filteredAndSortedTasks order s) as [|t r] eqn:Hv; [reflexivity|].
      assert (Hshown : In t (filteredAndSortedTasks order s))
        by (rewrite Hv; left; reflexivity).
      apply (Permutation_in _ (Array_sort_perm order _ _)) in Hshown.
      apply filter_In in Hshown. destruct Hshown as [Hin Hm].
      rewrite (Hnone t Hin) in Hm. discriminate. }
  unfold emptyListMessage.
  destruct (filteredAndSortedTasks order s) as [|v vs] eqn:Hv; cbn [length Nat.eqb].
  - destruct (tasks s) as [|t ts] eqn:Ht; cbn [length Nat.eqb].
    + split; [split; [discriminate | congruence]|].
      split; [split; reflexivity|].
      split; [discriminate | intros [H _]; congruence].
    + split; [split; [discriminate | congruence]|].
      split; [split; discriminate|].
      split; [|reflexivity]. intros _. split; [discriminate|].
      apply Hview. reflexivity.
  - split; [split; [discriminate | reflexivity]|].
    split.
    + split; [discriminate|]. intros Ht.
      unfold filteredAndSortedTasks in Hv. rewrite Ht in Hv. discriminate.
    + split; [discriminate|]. intros [_ Hnone].
      apply Hview in Hnone. discriminate.
Qed.

(** X15. Sorted by due date, the view has the tasks with a due date first,
    in ascending order of their date, tasks of one date in collection order,
    and the tasks without a due date last; those keep their collection order
    on an engine that hands the later element to the comparator first, and
    come reversed on one that hands the earlier first. *)
Theorem due_date_view_order (order : ArgOrder) (s : State) :
  sortBy s = SortDueDate ->
  let shown :=
    List.filter (matchesFilter (searchQuery s) (selectedCategory s)) (tasks s) in
  let view := filteredAndSortedTasks order s in
  StronglySorted dueDateOrder view
  /\ (forall d, List.filter (dueOn d) view = List.filter (dueOn d) shown)
  /\ List.filter dateless view
     = match order with
       | LaterFirst => List.filter dateless shown
       | EarlierFirst => rev (List.filter dateless shown)
       end.
Proof.
  intros Hkey. cbv zeta. unfold filteredAndSortedTasks. rewrite Hkey.
  destruct (due_date_sort_dated_part order
              (List.filter (matchesFilter (searchQuery s) (selectedCategory s))
                           (tasks s))) as (_ & Hsorted & Hdates).
  split; [exact Hsorted|]. split; [exact Hdates|].
  destruct order.
  - apply due_date_sort_dateless_earlier_first.
  - apply due_date_sort_dateless_later_first.
Qed.

Lemma due_date_view_order_witness :
  let a := mkTask 1 (lit "A") false (lit "Work") Low None [] false in
  let b := mkTask 2 (lit "B") false (lit "Work") Low (Some 9) [] false in
  let c := mkTask 3 (lit "C") false (lit "Work") Low (Some 4) [] false in
  let s := setSortBy SortDueDate (initialState [a; b; c]) in
  sortBy s = SortDueDate
  /\ StronglySorted dueDateOrder (filteredAndSortedTasks EarlierFirst s).
Proof.
  intros a b c s. split; [reflexivity|].
  exact (proj1 (due_date_view_order EarlierFirst s eq_refl)).
Defined.

Lemma countIf_perm (p : Task -> bool) (l l' : list Task) :
  Permutation l l' -> countIf p l = countIf p l'.
Proof.
  unfold countIf. induction 1 as [|x l l' _ IH|x y l|l l' l'' _ IH1 _ IH2];
    cbn [List.filter].
  - reflexivity.
  - destruct (p x); cbn [length]; congruence.
  - destruct (p x), (p y); reflexivity.
  - congruence.
Qed.

Lemma insert_same_for_both (x : Task) (placed : list Task) :
  (dateless x = true -> countIf dateless placed = O) ->
  insertFromEnd EarlierFirst (compareTasks SortDueDate) x placed
  = insertFromEnd LaterFirst (compareTasks SortDueDate) x placed.
Proof.
  induction placed as [|y rest IH]; intros Hone; [reflexivity|].
  cbn [insertFromEnd]. rewrite !stays_due_cases.
  assert (Hrest : dateless x = true -> countIf dateless rest = O).
  { intros Hx. specialize (Hone Hx). unfold countIf in *.
    cbn [List.filter] in Hone. destruct (dateless y); [discriminate | exact Hone]. }
  rewrite (IH Hrest).
  destruct (dueDate y) as [ty|] eqn:Ey; destruct (dueDate x) as [tx|] eqn:Ex;
    try reflexivity.
  exfalso.
  assert (Hx : dateless x = true) by (unfold dateless; rewrite Ex; reflexivity).
  specialize (Hone Hx). unfold countIf in Hone. cbn [List.filter] in Hone.
  unfold dateless in Hone at 1. rewrite Ey in Hone. discriminate.
Qed.

Lemma fold_same_for_both (l placed : list Task) :
  (countIf dateless placed + countIf dateless l <= 1)%nat ->
  fold_left (fun p x => insertFromEnd EarlierFirst (compareTasks SortDueDate) x p)
            l placed
  = fold_left (fun p x => insertFromEnd LaterFirst (compareTasks SortDueDate) x p)
              l placed.
Proof.
  revert placed. induction l as [|x l IH]; intros placed Hone; [reflexivity|].
  cbn [fold_left].
  assert (Hcount : countIf dateless (x :: l)
                   = ((if dateless x then 1 else 0) + countIf dateless l)%nat).
  { unfold countIf. cbn [List.filter]. destruct (dateless x); reflexivity. }
  rewrite Hcount in Hone.
  rewrite insert_same_for_both
    by (intros Hx; rewrite Hx in Hone; lia).
  apply IH.
  rewrite (countIf_perm dateless _ _
             (insertFromEnd_perm LaterFirst (compareTasks SortDueDate) x placed)).
  unfold countIf in *. cbn [List.filter].
  destruct (dateless x); cbn [length]; lia.
Qed.

(** X16. The engine's argument order makes no difference to the view when
    it is sorted by priority, nor when it is sorted by due date and at most
    one of the shown tasks lacks a due date. *)
Theorem view_same_for_both_argument_orders (s : State) :
  sortBy s = SortPriority
  \/ (countIf dateless
        (List.filter (matchesFilter (searchQuery s) (selectedCategory s))
                     (tasks s)) <= 1)%nat ->
  filteredAndSortedTasks EarlierFirst s = filteredAndSortedTasks LaterFirst s.
Proof.
  unfold filteredAndSortedTasks. intros [Hkey|Hone].
  - rewrite Hkey. apply Array_sort_order_irrelevant.
    apply priority_comparator_consistent.
  - destruct (sortBy s).
    + apply Array_sort_order_irrelevant. apply priority_comparator_consistent.
    + unfold Array_sort. f_equal. apply fold_same_for_both.
      unfold countIf at 1. cbn [List.filter length]. lia.
Qed.

Lemma view_same_for_both_argument_orders_witness :
  let a := mkTask 1 (lit "A") false (lit "Work") Low None [] false in
  let b := mkTask 2 (lit "B") false (lit "Work") Low (Some 9) [] false in
  let s := setSortBy SortDueDate (initialState [a; b]) in
  (sortBy s = SortPriority
   \/ (countIf dateless
         (List.filter (matchesFilter (searchQuery s) (selectedCategory s))
                      (tasks s)) <= 1)%nat)
  /\ filteredAndSortedTasks EarlierFirst s = filteredAndSortedTasks LaterFirst s.
Proof.
  intros a b s.
  assert (H : sortBy s = SortPriority
              \/ (countIf dateless
                    (List.filter (matchesFilter (searchQuery s) (selectedCategory s))
                                 (tasks s)) <= 1)%nat).
  { right. vm_compute. lia. }
  split; [exact H | exact (view_same_for_both_argument_orders s H)].
Defined.

(** ** Overdue and the clock *)

Lemma startOfDay_mono (offset a b : Z) :
  a <= b -> startOfDay offset a <= startOfDay offset b.
Proof.
  intros Hab. unfold startOfDay, msPerDay.
  pose proof (Z.div_mod (a + offset) 86400000 ltac:(lia)) as Ha.
  pose proof (Z.div_mod (b + offset) 86400000 ltac:(lia)) as Hb.
  pose proof (Z.div_le_mono (a + offset) (b + offset) 86400000 ltac:(lia) ltac:(lia)).
  lia.
Qed.

Lemma countIf_mono (p q : Task -> bool) (l : list Task) :
  (forall t, p t = true -> q t = true) -> (countIf p l <= countIf q l)%nat.
Proof.
  intros Hpq. unfold countIf. induction l as [|t l IH]; [reflexivity|].
  cbn [List.filter]. specialize (Hpq t).
  destruct (p t); [rewrite Hpq by reflexivity|destruct (q t)]; cbn [length]; lia.
Qed.

(** X17. Overdue only grows with time: a due date that is overdue at one
    instant is overdue at every later instant, so for an unchanged
    collection the overdue count never goes down and a red due-date chip
    stays red; and no due date is overdue at its own instant. *)
Theorem overdue_only_grows_with_time (offset now later : Z) (s : State) :
  now <= later ->
  (forall d, isTaskOverdue offset now d = true ->
             isTaskOverdue offset later d = true)
  /\ (Counts.overdue (getTaskCounts offset now s)
      <= Counts.overdue (getTaskCounts offset later s))%nat
  /\ (forall t, dueChipColor offset now t = Some (lit "error") ->
                dueChipColor offset later t = Some (lit "error"))
  /\ (forall d, isTaskOverdue offset d (Some d) = false).
Proof.
  intros Hle.
  assert (Hmono : forall d, isTaskOverdue offset now d = true ->
                            isTaskOverdue offset later d = true).
  { intros [d|]; cbn [isTaskOverdue]; [|discriminate].
    unfold isBefore, startOfToday. rewrite !Z.ltb_lt.
    pose proof (startOfDay_mono offset now later Hle). lia. }
  split; [exact Hmono|]. split; [|split].
  - cbn [getTaskCounts Counts.overdue].
    apply (countIf_mono
             (fun task => present (dueDate task)
                          && isTaskOverdue offset now (dueDate task))
             (fun task => present (dueDate task)
                          && isTaskOverdue offset later (dueDate task))).
    intros t. rewrite !andb_true_iff. intros [Hp Ho]. split; [exact Hp|].
    apply Hmono, Ho.
  - intros t. unfold dueChipColor. destruct (present (dueDate t)); [|discriminate].
    destruct (isTaskOverdue offset now (dueDate t)) eqn:Ho; [|discriminate].
    rewrite (Hmono _ Ho). reflexivity.
  - intros d. cbn [isTaskOverdue]. unfold isBefore, startOfToday, startOfDay, msPerDay.
    apply Z.ltb_ge.
    pose proof (Z.mod_pos_bound (d + offset) 86400000 ltac:(lia)). lia.
Qed.

Lemma overdue_only_grows_with_time_witness :
  let t := mkTask 1 (lit "a") false (lit "Work") Low (Some 0) [] false in
  86400000 <= 90000000
  /\ (Counts.overdue (getTaskCounts 0 86400000 (initialState [t]))
      <= Counts.overdue (getTaskCounts 0 90000000 (initialState [t])))%nat.
Proof.
  intros t.
  assert (H : 86400000 <= 90000000) by lia.
  split; [exact H|].
  exact (proj1 (proj2 (overdue_only_grows_with_time 0 86400000 90000000
                         (initialState [t]) H))).
Defined.

(** ** The write-through effect *)

Lemma keys_differ : THEME_KEY <> STORAGE_KEY.
Proof. discriminate. Qed.

Lemma handle_without_setTasks (e : Event) (s : State) :
  setsTasks e s = false -> tasks (handle e s) = tasks s.
Proof.
  destruct e as [item|choice|v|v|p|d|v|key|now|pressed now|taskId|taskId|taskId| |];
    cbn [setsTasks handle]; try discriminate; try reflexivity.
  - intros _. unfold drawerClick. destruct item; try reflexivity.
    destruct (categories !! i); reflexivity.
  - intros _. unfold categorySelect. destruct choice as [i|]; [|reflexivity].
    destruct (categories !! i); reflexivity.
  - intros _. destruct key; reflexivity.
  - intros Ht. unfold handleAddTask. rewrite Ht. reflexivity.
  - intros Ht. unfold handleKeyPress, handleAddTask.
    destruct (jsstring_eqb pressed (lit "Enter")); [|reflexivity].
    cbn [andb] in Ht. rewrite Ht. reflexivity.
Qed.

(** After the first render, and after every event, the tasks slot holds
    the text of the current collection and every other slot what it held at
    the start. *)
Lemma storage_invariant (evs : list AppEvent) (dark : bool) (s : State)
    (storage : gmap jsstring jsstring) :
  let a := appRun evs (mounted dark s storage) in
  getItem STORAGE_KEY (localStorage a)
  = Some (JSON_stringify (tasksValue (tasks (manager a))))
  /\ forall key, key <> STORAGE_KEY ->
       getItem key (localStorage a) = getItem key storage.
Proof.
  cbv zeta.
  assert (Hinv : forall a,
    (getItem STORAGE_KEY (localStorage a)
     = Some (JSON_stringify (tasksValue (tasks (manager a))))
     /\ forall key, key <> STORAGE_KEY ->
          getItem key (localStorage a) = getItem key storage) ->
    getItem STORAGE_KEY (localStorage (appRun evs a))
    = Some (JSON_stringify (tasksValue (tasks (manager (appRun evs a)))))
    /\ forall key, key <> STORAGE_KEY ->
         getItem key (localStorage (appRun evs a)) = getItem key storage).
  { unfold appRun. induction evs as [|e evs IH]; intros a Ha; [exact Ha|].
    cbn [fold_left]. apply IH. destruct Ha as [Hslot Hother].
    destruct e as [|ev]; cbn [appHandle localStorage manager].
    - split; assumption.
    - destruct (setsTasks ev (manager a)) eqn:Hset.
      + unfold saveTasks, setItem, getItem in *. split.
        * apply lookup_insert_eq.
        * intros key Hkey. rewrite lookup_insert_ne by congruence.
          apply Hother, Hkey.
      + rewrite (handle_without_setTasks ev (manager a) Hset).
        split; assumption. }
  apply Hinv. unfold mounted. cbn [localStorage manager].
  unfold saveTasks, setItem, getItem. split.
  - apply lookup_insert_eq.
  - intros key Hkey. apply lookup_insert_ne. congruence.
Qed.

(** X18. Write-through: after the first render and after any sequence of
    events the tasks slot of the storage holds the text of the collection
    as it is now, expand flags included.  No event writes any other slot:
    the theme button changes [isDarkMode] only, so the stored theme, and with
    it the theme loaded at the next start, stays what it was. *)
Theorem storage_follows_collection (evs : list AppEvent) (dark : bool)
    (s : State) (storage : gmap jsstring jsstring) :
  let a := appRun evs (mounted dark s storage) in
  getItem STORAGE_KEY (localStorage a)
  = Some (JSON_stringify (tasksValue (tasks (manager a))))
  /\ (forall key, key <> STORAGE_KEY ->
        getItem key (localStorage a) = getItem key storage)
  /\ loadTheme (localStorage a) = loadTheme storage.
Proof.
  cbv zeta.
  destruct (storage_invariant evs dark s storage) as [Hslot Hother].
  split; [exact Hslot|].
  assert (Htheme : getItem THEME_KEY (localStorage (appRun evs (mounted dark s storage)))
                   = getItem THEME_KEY storage).
  { apply Hother, keys_differ. }
  split; [exact Hother|].
  unfold loadTheme. rewrite Htheme. reflexivity.
Qed.

Lemma loaded_from_slot (l : list Task) (storage : gmap jsstring jsstring) :
  Forall storable l ->
  getItem STORAGE_KEY storage = Some (JSON_stringify (tasksValue l)) ->
  loadTasks storage = Normal (toJSON (tasksValue l)).
Proof.
  intros Hall Hslot. unfold loadTasks. rewrite Hslot.
  rewrite JSON_parse_stringify by (apply tasksValue_printable, Hall).
  unfold tasksValue. cbn [JSON_stringify]. reflexivity.
Qed.

Lemma toJSON_tasksValue (l : list Task) :
  toJSON (tasksValue l) =
  VArray
    (List.map
       (fun task =>
          VObject
            [(lit "id", VInt (id task));
             (lit "text", VString (text task));
             (lit "completed", VBool (completed task));
             (lit "category", VString (category task));
             (lit "priority", VString (priorityName (priority task)));
             (lit "dueDate", match dueDate task with
                             | Some t => VString (toISOString t)
                             | None => VNull
                             end);
             (lit "description", VString (description task));
             (lit "expanded", VBool (expanded task))]) l).
Proof.
  unfold tasksValue. cbn [toJSON]. rewrite List.map_map. f_equal.
  apply List.map_ext. intros t. apply toJSON_taskValue.
Qed.

(** X19. For every collection whose ids print without exponent and whose
    strings are of 16-bit units, loading after saving gives one object per
    task, in collection order, with the id and every field as saved except
    that a due date is its ISO string; the loaded collection is the saved one
    exactly when no task has a due date. *)
Theorem save_then_load_keeps_all_but_due_dates (l : list Task)
    (storage : gmap jsstring jsstring) :
  Forall storable l ->
  loadTasks (saveTasks l storage)
  = Normal
      (VArray
         (List.map
            (fun task =>
               VObject
                 [(lit "id", VInt (id task));
                  (lit "text", VString (text task));
                  (lit "completed", VBool (completed task));
                  (lit "category", VString (category task));
                  (lit "priority", VString (priorityName (priority task)));
                  (lit "dueDate", match dueDate task with
                                  | Some t => VString (toISOString t)
                                  | None => VNull
                                  end);
                  (lit "description", VString (description task));
                  (lit "expanded", VBool (expanded task))]) l))
  /\ (loadTasks (saveTasks l storage) = Normal (tasksValue l)
      <-> Forall (fun task => dueDate task = None) l).
Proof.
  intros Hall. split.
  - rewrite <- toJSON_tasksValue. apply load_after_save, Hall.
  - apply load_after_save_same_iff, Hall.
Qed.

Lemma save_then_load_keeps_all_but_due_dates_witness :
  let l := [mkTask 1700000000000 (lit "Buy milk") false (lit "Shopping") High
              (Some 86400000) (lit "2 l") true] in
  Forall storable l
  /\ loadTasks (saveTasks l ∅) <> Normal (tasksValue l).
Proof.
  intros l.
  assert (H : Forall storable l).
  { repeat constructor; cbn; lia. }
  split; [exact H|].
  intros Hsame.
  apply (proj2 (save_then_load_keeps_all_but_due_dates l ∅ H)) in Hsame.
  inversion Hsame as [|? ? Hd _]. discriminate Hd.
Defined.

(** X20. At every moment of a session the storage holds what the next
    start will load as the current collection: a reload after any sequence
    of events returns the tasks as they are now, in order, due dates as ISO
    strings. *)
Theorem reload_returns_current_collection (evs : list AppEvent) (dark : bool)
    (s : State) (storage : gmap jsstring jsstring) :
  let a := appRun evs (mounted dark s storage) in
  Forall storable (tasks (manager a)) ->
  loadTasks (localStorage a) = Normal (toJSON (tasksValue (tasks (manager a)))).
Proof.
  cbv zeta. intros Hall.
  apply loaded_from_slot; [exact Hall|].
  apply (storage_invariant evs dark s storage).
Qed.

Lemma reload_returns_current_collection_witness :
  let evs := [Manager (TitleChange (lit "a")); Manager (AddClick 5); ThemeClick;
              Manager (CompleteToggle 5); Manager (SearchChange (lit "x"))] in
  let a := appRun evs (mounted false (initialState []) ∅) in
  Forall storable (tasks (manager a))
  /\ loadTasks (localStorage a)
     = Normal (tasksValue [mkTask 5 (lit "a") true (lit "Other") Medium None [] false]).
Proof.
  intros evs a.
  assert (H : Forall storable (tasks (manager a))).
  { repeat constructor; cbn; lia. }
  split; [exact H|].
  etransitivity;
    [exact (reload_returns_current_collection evs false (initialState []) ∅ H)|].
  vm_compute. reflexivity.
Defined.

(** ** Completion and the counts *)

(** X21. With pairwise distinct ids, toggling a stored task moves the
    completed count by exactly one, up when the task was open and down when
    it was completed, and leaves the total as it is. *)
Theorem toggle_complete_moves_count_by_one (offset now : Z) (t : Task) (s : State) :
  NoDup (idsOf (tasks s)) ->
  In t (tasks s) ->
  let before := getTaskCounts offset now s in
  let after := getTaskCounts offset now (handleToggleComplete (id t) s) in
  Counts.total after = Counts.total before
  /\ (Counts.completed after + (if completed t then 1 else 0)
      = Counts.completed before + (if completed t then 0 else 1))%nat.
Proof.
  intros Hnd Hin. cbv zeta.
  cbn [getTaskCounts Counts.total Counts.completed handleToggleComplete
       showSuccessMessage setShowNotification setNotificationMessage
       setTasks tasks].
  split; [apply length_map|].
  unfold idsOf in Hnd. induction (tasks s) as [|u l IH]; [destruct Hin|].
  cbn [List.map] in Hnd. apply NoDup_cons in Hnd. destruct Hnd as [Hfresh Hnd].
  rewrite list_elem_of_In in Hfresh.
  destruct Hin as [->|Hin].
  - cbn [List.map List.filter]. rewrite Z.eqb_refl.
    rewrite (map_unchanged toggleCompletedOf (id t) l Hfresh).
    cbn [toggleCompletedOf completed].
    destruct (completed t); cbn [negb length]; lia.
  - specialize (IH Hnd Hin).
    assert (Hne : id u <> id t).
    { intros Heq. apply Hfresh. rewrite Heq. apply in_map. exact Hin. }
    cbn [List.map List.filter]. rewrite (proj2 (Z.eqb_neq _ _) Hne).
    destruct (completed u); cbn [length]; lia.
Qed.

Lemma toggle_complete_moves_count_by_one_witness :
  let t := mkTask 2 (lit "b") true (lit "Work") Low None [] false in
  let s := initialState [mkTask 1 (lit "a") false (lit "Work") Low None [] false; t] in
  NoDup (idsOf (tasks s)) /\ In t (tasks s)
  /\ Counts.completed (getTaskCounts 0 0 (handleToggleComplete 2 s)) = 0%nat.
Proof.
  intros t s.
  assert (Hnd : NoDup (idsOf (tasks s))).
  { apply (bool_decide_unpack _). vm_compute. exact I. }
  assert (Hin : In t (tasks s)) by (right; left; reflexivity).
  split; [exact Hnd|]. split; [exact Hin|].
  pose proof (proj2 (toggle_complete_moves_count_by_one 0 0 t s Hnd Hin)) as H.
  cbn [completed t] in H. change (id t) with 2 in H.
  change (Counts.completed (getTaskCounts 0 0 s)) with 1%nat in H. lia.
Defined.

(** ** Categories, badges and notifications along a run *)

Lemma handle_keeps_real_categories (e : Event) (s : State) :
  picksPseudoCategory e = false ->
  (selectedCategory s = lit "All" \/ In (selectedCategory s) categories)
  /\ Forall realCategory (tasks s) ->
  (selectedCategory (handle e s) = lit "All"
   \/ In (selectedCategory (handle e s)) categories)
  /\ Forall realCategory (tasks (handle e s)).
Proof.
  intros Hpick [Hsel Hall].
  assert (Hlookup : forall i c, categories !! i = Some c -> In c categories).
  { intros i c Hi. apply list_elem_of_In, list_elem_of_lookup. exists i. exact Hi. }
  assert (Hadd : forall now,
            (selectedCategory (handleAddTask now s) = lit "All"
             \/ In (selectedCategory (handleAddTask now s)) categories)
            /\ Forall realCategory (tasks (handleAddTask now s))).
  { intros now. destruct (truthy (trim (currentTask s))) eqn:Ht;
      [|unfold handleAddTask; rewrite Ht; split; assumption].
    split.
    - unfold handleAddTask. rewrite Ht. exact Hsel.
    - apply truthy_trim_true in Ht. rewrite (handleAddTask_tasks now s Ht).
      apply Forall_app. split; [exact Hall|].
      constructor; [|constructor]. unfold realCategory. cbn [category].
      destruct (jsstring_eqb (selectedCategory s) (lit "All")) eqn:Heq.
      + do 4 right. left. reflexivity.
      + destruct Hsel as [Hs|Hs]; [|exact Hs].
        apply jsstring_eqb_eq in Hs. congruence. }
  destruct e as [item|choice|v|v|p|d|v|key|now|pressed now|taskId|taskId|taskId| |];
    cbn [handle]; try (split; assumption); try apply Hadd.
  - destruct item; cbn [picksPseudoCategory] in Hpick; try discriminate;
      cbn [drawerClick].
    + split; [left; reflexivity | exact Hall].
    + destruct (categories !! i) eqn:Hi; [|split; assumption].
      split; [right; eapply Hlookup, Hi | exact Hall].
  - destruct choice as [i|]; cbn [categorySelect].
    + destruct (categories !! i) eqn:Hi; [|split; assumption].
      split; [right; eapply Hlookup, Hi | exact Hall].
    + split; [left; reflexivity | exact Hall].
  - destruct key; split; assumption.
  - unfold handleKeyPress. destruct (jsstring_eqb _ _); [apply Hadd | split; assumption].
  - split; [exact Hsel|].
    cbn [handleDeleteTask showSuccessMessage setShowNotification
         setNotificationMessage setTasks tasks].
    rewrite Forall_forall in *. intros t Ht. apply Hall.
    rewrite list_elem_of_In in *. apply filter_In in Ht. tauto.
  - split; [exact Hsel|].
    cbn [handleToggleComplete showSuccessMessage setShowNotification
         setNotificationMessage setTasks tasks].
    rewrite Forall_forall in *. intros t Ht.
    rewrite list_elem_of_In in Ht. apply in_map_iff in Ht.
    destruct Ht as (u & <- & Hu). apply list_elem_of_In, Hall in Hu.
    destruct (id u =? taskId); exact Hu.
  - split; [exact Hsel|].
    cbn [handleToggleExpand setTasks tasks].
    rewrite Forall_forall in *. intros t Ht.
    rewrite list_elem_of_In in Ht. apply in_map_iff in Ht.
    destruct Ht as (u & <- & Hu). apply list_elem_of_In, Hall in Hu.
    destruct (id u =? taskId); exact Hu.
Qed.

(** X22. In a run from the empty store that never clicks the drawer's
    "High Priority" or "Due Today" entry, every task has one of the five
    real categories: the form's selector and the other drawer entries only
    ever select "All", which add stores as "Other", or a real category. *)
Theorem real_categories_without_pseudo_clicks (evs : list Event) :
  Forall (fun e => picksPseudoCategory e = false) evs ->
  Forall realCategory (tasks (run evs (initialState []))).
Proof.
  intros Hevs.
  assert (H : forall s,
    (selectedCategory s = lit "All" \/ In (selectedCategory s) categories)
    /\ Forall realCategory (tasks s) ->
    (selectedCategory (run evs s) = lit "All"
     \/ In (selectedCategory (run evs s)) categories)
    /\ Forall realCategory (tasks (run evs s))).
  { unfold run. induction Hevs as [|e evs He _ IH]; intros s Hs; [exact Hs|].
    cbn [fold_left]. apply IH, handle_keeps_real_categories; assumption. }
  apply H. split; [left; reflexivity | constructor].
Qed.

Lemma real_categories_without_pseudo_clicks_witness :
  let evs := [DrawerClick (ItemCategory 1); TitleChange (lit "a"); AddClick 1;
              CategorySelect None; TitleChange (lit "b"); AddClick 2] in
  Forall (fun e => picksPseudoCategory e = false) evs
  /\ Forall realCategory (tasks (run evs (initialState []))).
Proof.
  intros evs.
  assert (H : Forall (fun e => picksPseudoCategory e = false) evs).
  { repeat constructor. }
  split; [exact H | exact (real_categories_without_pseudo_clicks evs H)].
Defined.

(** X23. The badge next to "Due Today" is the overdue count: it counts the
    tasks due before today, so a task that is due today, like one due later
    or without a due date, adds nothing to it. *)
Theorem due_today_badge_counts_overdue (offset now : Z) (s : State) :
  dueTodayBadge offset now s = countIf (overdueByDay offset now) (tasks s)
  /\ (Forall (fun t => forall d, dueDate t = Some d ->
                         localDay offset now <= localDay offset d) (tasks s) ->
      dueTodayBadge offset now s = O).
Proof.
  assert (H : dueTodayBadge offset now s
              = countIf (overdueByDay offset now) (tasks s)).
  { unfold dueTodayBadge, countIf. cbn [getTaskCounts Counts.overdue].
    f_equal. apply List.filter_ext. intros t. apply overdue_callback_by_day. }
  split; [exact H|]. intros Hall. rewrite H. clear H. unfold countIf.
  induction Hall as [|t l Ht _ IH]; [reflexivity|].
  cbn [List.filter]. unfold overdueByDay at 1.
  destruct (dueDate t) as [d|]; [|exact IH].
  specialize (Ht d eq_refl).
  rewrite (proj2 (Z.ltb_ge _ _) Ht). exact IH.
Qed.

Lemma handle_keeps_messages (e : Event) (s : State) :
  (showNotification s = true -> In (notificationMessage s) successMessages) ->
  showNotification (handle e s) = true ->
  In (notificationMessage (handle e s)) successMessages.
Proof.
  intros Hs.
  assert (Hadd : forall now,
            showNotification (handleAddTask now s) = true ->
            In (notificationMessage (handleAddTask now s)) successMessages).
  { intros now. unfold handleAddTask.
    destruct (truthy (trim (currentTask s))); [|exact Hs].
    intros _. left. reflexivity. }
  destruct e as [item|choice|v|v|p|d|v|key|now|pressed now|taskId|taskId|taskId| |];
    cbn [handle]; try exact Hs; try apply Hadd.
  - unfold drawerClick. destruct item; try exact Hs.
    destruct (categories !! i); exact Hs.
  - unfold categorySelect. destruct choice as [i|]; [|exact Hs].
    destruct (categories !! i); exact Hs.
  - destruct key; exact Hs.
  - unfold handleKeyPress. destruct (jsstring_eqb _ _); [apply Hadd | exact Hs].
  - intros _. right. left. reflexivity.
  - intros _. right. right. left. reflexivity.
  - discriminate.
Qed.

(** X24. Whenever the notification is open, in any state reached from the
    initial one, its text is one of the three success messages: no handler
    opens it without setting the message, and nothing else sets either. *)
Theorem open_notification_has_message (evs : list Event) (loaded : list Task) :
  let s := run evs (initialState loaded) in
  showNotification s = true -> In (notificationMessage s) successMessages.
Proof.
  cbv zeta.
  assert (H : forall s,
    (showNotification s = true -> In (notificationMessage s) successMessages) ->
    showNotification (run evs s) = true ->
    In (notificationMessage (run evs s)) successMessages).
  { unfold run. induction evs as [|e evs IH]; intros s Hs; [exact Hs|].
    cbn [fold_left]. apply IH. apply handle_keeps_messages, Hs. }
  apply H. discriminate.
Qed.

Lemma open_notification_has_message_witness :
  let s := run [TitleChange (lit "a"); AddClick 1; DeleteClick 1] (initialState []) in
  showNotification s = true /\ In (notificationMessage s) successMessages.
Proof.
  intros s.
  assert (H : showNotification s = true) by reflexivity.
  split; [exact H|].
  exact (open_notification_has_message
           [TitleChange (lit "a"); AddClick 1; DeleteClick 1] [] H).
Defined.

(** X25. In every state reachable from the empty store, whatever was
    clicked, the category of a task is one of the five real categories or
    one of the two pseudo-categories of the drawer; it is never "All". *)
Theorem categories_real_or_pseudo_in_every_run (evs : list Event) :
  Forall (fun t => (realCategory t \/ In (category t) pseudoCategories)
                   /\ category t <> lit "All")
         (tasks (run evs (initialState []))).
Proof.
  eapply Forall_impl; [apply (reachable_categories evs)|].
  intros t Hin. cbn beta in Hin. apply in_app_or in Hin. split.
  - exact Hin.
  - intros Heq. rewrite Heq in Hin.
    destruct Hin as [Hin|Hin]; cbn in Hin;
      repeat (destruct Hin as [Hin|Hin]; [discriminate|]); exact Hin.
Qed.
